(** * learn_bpe: a shallow embedding of the merge-learning engine

    The development follows [src/learn_bpe.py] under Python 3 semantics:
    dictionaries keep insertion order, [/] on integers is true division,
    and [defaultdict] inserts its default on a missing read.

    - symbols are strings, words are tuples (lists) of symbols, the sorted
      vocabulary is a list of (word, frequency) entries addressed by index;
    - [stats], [big_stats] and [indices] are insertion-ordered dictionaries,
      modelled as association lists with unique keys;
    - Python exceptions are the [Raise] results of an error monad;
    - the pruning threshold, a binary64 quotient in Python, is the exact
      rational quotient here; it is only ever compared with integer counts,
      and the two order alike against every integer as long as
      count * iteration stays below 2^53;
    - the [while True] loops that walk a tuple by index carry a fuel that
      is large enough for the whole tuple. *)

From Stdlib Require Import ZArith List String Ascii Bool Lia Arith.
From Stdlib Require Import QArith.
From Stdlib Require Import Numbers.DecimalString.
From Stdlib Require Import Permutation Sorted.
Import ListNotations.

Close Scope Q_scope.
Open Scope nat_scope.
Open Scope list_scope.

(** ** Data model *)

(** A symbol is a string, a word a tuple of symbols, a vocabulary entry a
    word with its frequency. *)
Abbreviation symbol := string (only parsing).
Abbreviation word := (list string) (only parsing).
Abbreviation pair := (string * string)%type (only parsing).
Abbreviation entry := (list string * Z)%type (only parsing).
Abbreviation vocabulary := (list (list string * Z)) (only parsing).

(** The literals of the source. *)
Definition DELIM : symbol := "=="%string.
Definition EOW : symbol := "</w>"%string.

Definition pair_eqb (p q : pair) : bool :=
  String.eqb (fst p) (fst q) && String.eqb (snd p) (snd q).

(** ** Exceptions *)

Inductive exn : Type := ValueError | IndexError.

Inductive res (A : Type) : Type :=
| Ok (a : A)
| Raise (e : exn).
Arguments Ok {A} a.
Arguments Raise {A} e.

Definition bind {A B : Type} (m : res A) (k : A -> res B) : res B :=
  match m with
  | Ok a => k a
  | Raise e => Raise e
  end.

Notation "'do' x <- m ; k" := (bind m (fun x => k))
  (at level 10, x pattern, m at level 100, k at level 200).

(** ** Insertion-ordered dictionaries *)

Module Dict.
Section Dict.
Context {K V : Type} (keqb : K -> K -> bool).

Definition t := list (K * V).

(** [d.get(k)] *)
Fixpoint get (d : t) (k : K) : option V :=
  match d with
  | [] => None
  | (k', v) :: d' => if keqb k' k then Some v else get d' k
  end.

(** [d[k] = v]: an existing key keeps its position, a new key goes last. *)
Fixpoint set (d : t) (k : K) (v : V) : t :=
  match d with
  | [] => [(k, v)]
  | (k', v') :: d' => if keqb k' k then (k', v) :: d' else (k', v') :: set d' k v
  end.

(** [del d[k]] (the source only deletes keys that are present). *)
Fixpoint del (d : t) (k : K) : t :=
  match d with
  | [] => []
  | (k', v') :: d' => if keqb k' k then d' else (k', v') :: del d' k
  end.

Definition mem (d : t) (k : K) : bool :=
  match get d k with Some _ => true | None => false end.
End Dict.
End Dict.

(** [stats]: pair -> frequency; [indices]: pair -> (word index -> count). *)
Abbreviation stats_t := (list ((string * string) * Z)) (only parsing).
Abbreviation inner_t := (list (nat * Z)) (only parsing).
Abbreviation indices_t := (list ((string * string) * list (nat * Z))) (only parsing).

(** Reading a [defaultdict(int)] without inserting: the value the source
    sees at [p], 0 when the key is missing. *)
Definition stat_of (stats : stats_t) (p : pair) : Z :=
  match Dict.get pair_eqb stats p with Some v => v | None => 0%Z end.

Definition inner_of (indices : indices_t) (p : pair) : inner_t :=
  match Dict.get pair_eqb indices p with Some d => d | None => [] end.

Definition count_of (d : inner_t) (j : nat) : Z :=
  match Dict.get Nat.eqb d j with Some v => v | None => 0%Z end.

Definition idx_of (indices : indices_t) (p : pair) (j : nat) : Z :=
  count_of (inner_of indices p) j.

(** [stats[p] += x] *)
Definition stats_add (stats : stats_t) (p : pair) (x : Z) : stats_t :=
  Dict.set pair_eqb stats p (stat_of stats p + x)%Z.

(** [indices[p][j] += x] *)
Definition idx_add (indices : indices_t) (p : pair) (j : nat) (x : Z) : indices_t :=
  let d := inner_of indices p in
  Dict.set pair_eqb indices p (Dict.set Nat.eqb d j (count_of d j + x)%Z).

(** The two counters always move together:
    [stats[p] += df; indices[p][j] += dc]. *)
Definition bump (st : stats_t * indices_t) (p : pair) (j : nat) (df dc : Z)
  : stats_t * indices_t :=
  (stats_add (fst st) p df, idx_add (snd st) p j dc).

(** ** Tuples *)

(** [tpl.index(x)] *)
Fixpoint index0 (x : symbol) (l : word) : option nat :=
  match l with
  | [] => None
  | y :: l' => if String.eqb y x then Some 0 else option_map S (index0 x l')
  end.

(** [tpl.index(x, i)]: [None] stands for the ValueError the loops catch. *)
Definition index (l : word) (x : symbol) (i : nat) : option nat :=
  option_map (Nat.add i) (index0 x (skipn i l)).

(** [tpl[a:b]] for [a <= b] *)
Definition slice (l : word) (a b : nat) : word := firstn (b - a) (skipn a l).

(** [tpl[k:k+2]] where both positions exist, as a dictionary key. *)
Definition slice2 (l : word) (k : nat) : pair :=
  (nth k l ""%string, nth (k + 1) l ""%string).

(** ['==' in t] *)
Definition has_delim (w : word) : bool := existsb (String.eqb DELIM) w.

Definition pair_has_delim (p : pair) : bool :=
  String.eqb DELIM (fst p) || String.eqb DELIM (snd p).

(** ** split_tuple *)

Fixpoint split_tuple_loop (fuel : nat) (tpl : word) (delim : symbol)
  (lst : list word) (start_idx : nat) (end_idx : Z) : list word :=
  match fuel with
  | O => lst
  | S fuel' =>
      match index tpl delim start_idx with
      | None => lst ++ [skipn (Z.to_nat (end_idx + 1)) tpl]
      | Some e =>
          split_tuple_loop fuel' tpl delim (lst ++ [slice tpl start_idx e])
            (e + 1) (Z.of_nat e)
      end
  end.

Definition split_tuple (tpl : word) (delim : symbol) : list word :=
  split_tuple_loop (S (List.length tpl)) tpl delim [] 0 (-1).

(** ** get_pair_statistics *)

(** The inner [for char in morpheme[1:]] loop. *)
Fixpoint count_run (i : nat) (freq : Z) (prev_char : symbol) (rest : word)
  (st : stats_t * indices_t) : stats_t * indices_t :=
  match rest with
  | [] => st
  | char :: rest' => count_run i freq char rest' (bump st (prev_char, char) i freq 1)
  end.

(** One morpheme: [morpheme[0]] raises IndexError on an empty span. *)
Definition count_morpheme (i : nat) (freq : Z) (morpheme : word)
  (st : stats_t * indices_t) : res (stats_t * indices_t) :=
  match morpheme with
  | [] => Raise IndexError
  | prev_char :: rest => Ok (count_run i freq prev_char rest st)
  end.

Fixpoint count_morphemes (i : nat) (freq : Z) (ms : list word)
  (st : stats_t * indices_t) : res (stats_t * indices_t) :=
  match ms with
  | [] => Ok st
  | m :: ms' => do st' <- count_morpheme i freq m st; count_morphemes i freq ms' st'
  end.

Fixpoint count_entries (i : nat) (vocab : vocabulary)
  (st : stats_t * indices_t) : res (stats_t * indices_t) :=
  match vocab with
  | [] => Ok st
  | (w, freq) :: vocab' =>
      do st' <- count_morphemes i freq (split_tuple w DELIM) st;
      count_entries (S i) vocab' st'
  end.

Definition get_pair_statistics (vocab : vocabulary) : res (stats_t * indices_t) :=
  count_entries 0 vocab ([], []).

(** ** replace_pair

    The source rewrites a word through its space-joined string:
    [' '.join(word)], one [pattern.sub], then [str.split()].  The pattern is
    [(?<!\S)] + the escaped literal [first + ' ' + second] + [(?!\S)], and
    the replacement template is [first + second] with its backslashes
    doubled, which [sub] reads back as the literal text [first + second]. *)

(** [str.isspace] on the code points below 256 (a character is a code
    point in that range). *)
Definition isspace (c : ascii) : bool :=
  let n := nat_of_ascii c in
  ((9 <=? n) && (n <=? 13)) || ((28 <=? n) && (n <=? 32)) || (n =? 133) || (n =? 160).

(** [' '.join(word)] *)
Fixpoint join (w : word) : string :=
  match w with
  | [] => EmptyString
  | x :: w' =>
      match w' with
      | [] => x
      | _ :: _ => (x ++ " " ++ join w')%string
      end
  end.

(** [s.split()] *)
Fixpoint split_ws (s : string) : list string :=
  match s with
  | EmptyString => []
  | String c s' =>
      if isspace c then split_ws s'
      else match s' with
           | EmptyString => [String c EmptyString]
           | String c' _ =>
               if isspace c' then String c EmptyString :: split_ws s'
               else match split_ws s' with
                    | t :: ts => String c t :: ts
                    | [] => [String c EmptyString]
                    end
           end
  end.

(** [s.startswith(p)], returning what follows the prefix. *)
Fixpoint strip_prefix (p s : string) : option string :=
  match p with
  | EmptyString => Some s
  | String a p' =>
      match s with
      | EmptyString => None
      | String b s' => if Ascii.eqb a b then strip_prefix p' s' else None
      end
  end.

Fixpoint last_char (prev : option ascii) (s : string) : option ascii :=
  match s with
  | EmptyString => prev
  | String c s' => last_char (Some c) s'
  end.

(** [(?<!\S)]: no non-space character just before. *)
Definition lookbehind (prev : option ascii) : bool :=
  match prev with
  | None => true
  | Some c => isspace c
  end.

(** [(?!\S)]: no non-space character just after. *)
Definition lookahead (rest : string) : bool :=
  match rest with
  | EmptyString => true
  | String c _ => isspace c
  end.

(** The pattern tried at one position: [prev] is the character before it,
    the result is the text after the match. *)
Definition match_at (lit : string) (prev : option ascii) (s : string) : option string :=
  if lookbehind prev then
    match strip_prefix lit s with
    | Some rest => if lookahead rest then Some rest else None
    | None => None
    end
  else None.

(** [pattern.sub(repl, s)]: leftmost matches, left to right, the scan
    resuming after each match.  The literal is never empty (it holds the
    joining space), so each step consumes a character and [fuel] = the
    length of the string is enough. *)
Fixpoint re_sub (fuel : nat) (lit repl : string) (prev : option ascii) (s : string) : string :=
  match fuel with
  | O => s
  | S fuel' =>
      match s with
      | EmptyString => EmptyString
      | String c s' =>
          match match_at lit prev s with
          | Some rest => (repl ++ re_sub fuel' lit repl (last_char prev lit) rest)%string
          | None => String c (re_sub fuel' lit repl (Some c) s')
          end
      end
  end.

Definition pattern_sub (first second : symbol) (s : string) : string :=
  re_sub (String.length s) (first ++ " " ++ second)%string (first ++ second)%string None s.

(** The boundary collapse of lines 212-214. *)
Definition collapse (new_word_tpl : word) : word :=
  if (Z.of_nat (List.length new_word_tpl)
      - 2 * Z.of_nat (count_occ string_dec new_word_tpl DELIM) - 1 =? 0)%Z
  then filter (fun t => negb (String.eqb t DELIM)) new_word_tpl
  else new_word_tpl.

(** What lines 208-214 make of one word. *)
Definition rewrite_word (pr : pair) (w : word) : word :=
  collapse (split_ws (pattern_sub (fst pr) (snd pr) (join w))).

(** [vocab[j] = e] *)
Fixpoint list_set {A : Type} (l : list A) (j : nat) (a : A) : list A :=
  match l, j with
  | [], _ => []
  | _ :: l', O => a :: l'
  | x :: l', S j' => x :: list_set l' j' a
  end.

(** An element of [changes]: [(j, new_word_tpl, word, freq)]. *)
Abbreviation change := (nat * list string * list string * Z)%type (only parsing).

Fixpoint replace_loop (pr : pair) (items : inner_t) (vocab : vocabulary)
  (changes : list change) : res (vocabulary * list change) :=
  match items with
  | [] => Ok (vocab, changes)
  | (j, freq) :: items' =>
      if (freq <? 1)%Z then replace_loop pr items' vocab changes
      else
        match nth_error vocab j with
        | None => Raise IndexError
        | Some (w, freq) =>
            let new_word_tpl := rewrite_word pr w in
            replace_loop pr items' (list_set vocab j (new_word_tpl, freq))
              (changes ++ [(j, new_word_tpl, w, freq)])
        end
  end.

(** [indices[pair]] is a read of a [defaultdict]: a missing pair gets an
    empty entry. *)
Definition touch (indices : indices_t) (p : pair) : indices_t :=
  if Dict.mem pair_eqb indices p then indices else Dict.set pair_eqb indices p [].

Definition replace_pair (pr : pair) (vocab : vocabulary) (indices : indices_t)
  : res (vocabulary * indices_t * list change) :=
  do (vocab', changes) <- replace_loop pr (inner_of indices pr) vocab [];
  Ok (vocab', touch indices pr, changes).

(** ** update_pair_statistics *)

(** The first [while True] loop of the else branch (lines 114-135);
    [i < len - 1] is written [i + 1 < len], and so on. *)
Fixpoint dec_loop (fuel : nat) (first second : symbol) (old_word : word)
  (j : nat) (freq : Z) (i : nat) (st : stats_t * indices_t) : stats_t * indices_t :=
  match fuel with
  | O => st
  | S fuel' =>
      match index old_word first i with
      | None => st
      | Some i =>
          let n := List.length old_word in
          if (i + 1 <? n) && String.eqb (nth (i + 1) old_word EmptyString) second then
            let st1 :=
              if negb (i =? 0) then
                let prev := slice2 old_word (i - 1) in
                if negb (pair_has_delim prev) then bump st prev j (- freq) (-1) else st
              else st in
            let st2 :=
              if i + 2 <? n then
                if negb (String.eqb (nth (i + 2) old_word EmptyString) first)
                   || (n <=? i + 3)
                   || negb (String.eqb (nth (i + 3) old_word EmptyString) second)
                then
                  let nex := slice2 old_word (i + 1) in
                  if negb (pair_has_delim nex) then bump st1 nex j (- freq) (-1) else st1
                else st1
              else st1 in
            dec_loop fuel' first second old_word j freq (i + 2) st2
          else dec_loop fuel' first second old_word j freq (i + 1) st
      end
  end.

(** The second [while True] loop (lines 137-154). *)
Fixpoint inc_loop (fuel : nat) (new_pair : symbol) (w : word)
  (j : nat) (freq : Z) (i : nat) (st : stats_t * indices_t) : stats_t * indices_t :=
  match fuel with
  | O => st
  | S fuel' =>
      match index w new_pair i with
      | None => st
      | Some i =>
          let n := List.length w in
          let st1 :=
            if negb (i =? 0) then
              let prev := slice2 w (i - 1) in
              if negb (pair_has_delim prev) then bump st prev j freq 1 else st
            else st in
          let st2 :=
            if (i + 1 <? n) && negb (String.eqb (nth (i + 1) w EmptyString) new_pair) then
              let nex := slice2 w i in
              if negb (pair_has_delim nex) then bump st1 nex j freq 1 else st1
            else st1 in
          inc_loop fuel' new_pair w j freq (i + 1) st2
      end
  end.

Definition update_word (first second : symbol) (c : change)
  (st : stats_t * indices_t) : res (stats_t * indices_t) :=
  let '(j, w, old_word, freq) := c in
  if has_delim old_word && negb (has_delim w) then
    match w with
    | [] => Raise IndexError
    | prev_token :: rest => Ok (count_run j freq prev_token rest st)
    end
  else
    let st1 := dec_loop (S (List.length old_word)) first second old_word j freq 0 st in
    Ok (inc_loop (S (List.length w)) (first ++ second)%string w j freq 0 st1).

Fixpoint update_changes (first second : symbol) (changed : list change)
  (st : stats_t * indices_t) : res (stats_t * indices_t) :=
  match changed with
  | [] => Ok st
  | c :: changed' =>
      do st' <- update_word first second c st;
      update_changes first second changed' st'
  end.

Definition update_pair_statistics (pr : pair) (changed : list change)
  (stats : stats_t) (indices : indices_t) : res (stats_t * indices_t) :=
  let stats := Dict.set pair_eqb stats pr 0%Z in
  let indices := Dict.set pair_eqb indices pr [] in
  update_changes (fst pr) (snd pr) changed (stats, indices).

(** ** prune_stats *)

(** [freq < threshold], the threshold being a quotient of integers. *)
Definition below (freq : Z) (threshold : Q) : bool :=
  (freq * Zpos (Qden threshold) <? Qnum threshold)%Z.

Fixpoint prune_loop (items : stats_t) (stats big_stats : stats_t) (threshold : Q)
  : stats_t * stats_t :=
  match items with
  | [] => (stats, big_stats)
  | (item, freq) :: items' =>
      if below freq threshold then
        prune_loop items' (Dict.del pair_eqb stats item)
          (if (freq <? 0)%Z then stats_add big_stats item freq
           else Dict.set pair_eqb big_stats item freq)
          threshold
      else prune_loop items' stats big_stats threshold
  end.

(** [list(stats.items())] is a snapshot taken before the loop. *)
Definition prune_stats (stats big_stats : stats_t) (threshold : Q)
  : stats_t * stats_t :=
  prune_loop stats stats big_stats threshold.

(** ** The vocabulary builder (lines 70-77 and 243-252) *)

Record arguments : Type := mkArgs {
  symbols : Z;
  min_frequency : Z;
  verbose : bool;
  morph_as_char : bool;
  delimiter : string;
  morph_aware : bool
}.

(** [get_vocabulary]: a [Counter] over the whitespace-separated words of
    the lines. *)
Definition counter_add (vocab : list (string * Z)) (w : string) : list (string * Z) :=
  Dict.set String.eqb vocab w
    (match Dict.get String.eqb vocab w with Some n => n | None => 0 end + 1)%Z.

Definition get_vocabulary (fobj : list string) : list (string * Z) :=
  fold_left (fun vocab line => fold_left counter_add (split_ws line) vocab) fobj [].

(** [x.split(sep)] for a non-empty separator; every step consumes a
    character, so [fuel] = the length of [x] is enough. *)
Fixpoint str_split (fuel : nat) (sep : string) (x : string) : list string :=
  match x with
  | EmptyString => [EmptyString]
  | String c x' =>
      match fuel with
      | O => [x]
      | S fuel' =>
          match strip_prefix sep x with
          | Some rest => EmptyString :: str_split fuel' sep rest
          | None =>
              match str_split fuel' sep x' with
              | p :: ps => String c p :: ps
              | [] => [String c EmptyString]
              end
          end
      end
  end.

(** [tuple(x)] *)
Fixpoint chars (x : string) : word :=
  match x with
  | EmptyString => []
  | String c x' => String c EmptyString :: chars x'
  end.

(** [reduce(lambda t1, t2: t1 + (delimiter,) + t2, ts)] *)
Definition reduce_with (delim : symbol) (ts : list word) : res word :=
  match ts with
  | [] => Raise ValueError
  | t :: ts' => Ok (fold_left (fun t1 t2 => t1 ++ [delim] ++ t2) ts' t)
  end.

(** The three tokenisations of lines 244-251; [str.split] refuses an
    empty separator with a ValueError. *)
Definition tokenize (args : arguments) (x : string) : res word :=
  if morph_as_char args then
    if String.eqb (delimiter args) EmptyString then Raise ValueError
    else Ok (str_split (String.length x) (delimiter args) x ++ [EOW])
  else if morph_aware args then
    if String.eqb (delimiter args) EmptyString then Raise ValueError
    else
      do t <- reduce_with (delimiter args)
                (map chars (str_split (String.length x) (delimiter args) x));
      Ok (t ++ [EOW])
  else Ok (chars x ++ [EOW]).

Definition word_eqb (a b : word) : bool :=
  if list_eq_dec string_dec a b then true else false.

(** [dict([(tokens(x), y) for (x, y) in vocab.items()])] *)
Fixpoint tokenize_all (args : arguments) (items : list (string * Z))
  (acc : vocabulary) : res vocabulary :=
  match items with
  | [] => Ok acc
  | (x, y) :: items' =>
      do t <- tokenize args x;
      tokenize_all args items' (Dict.set word_eqb acc t y)
  end.

(** [sorted(items, key=lambda x: x[1], reverse=True)]: stable, descending. *)
Fixpoint insert_desc (e : entry) (l : vocabulary) : vocabulary :=
  match l with
  | [] => [e]
  | e' :: l' => if (snd e' <? snd e)%Z then e :: l else e' :: insert_desc e l'
  end.

Definition sort_desc (l : vocabulary) : vocabulary :=
  fold_left (fun acc e => insert_desc e acc) l [].

Definition build_vocabulary (args : arguments) (fobj : list string) : res vocabulary :=
  do vocab <- tokenize_all args (get_vocabulary fobj) [];
  Ok (sort_desc vocab).

(** ** The merge loop (lines 254-282) *)

Record state : Type := mkState {
  sorted_vocab : vocabulary;
  stats : stats_t;
  big_stats : stats_t;
  indices : indices_t;
  threshold : Q;
  output : list string;    (* the lines written to [args.output] *)
  stderr : list string     (* the lines written to [sys.stderr] *)
}.

(** [max(stats, key=stats.get)]: the first key, in iteration order, whose
    value is maximal. *)
Fixpoint max_key_from (best : pair) (bv : Z) (d : stats_t) : pair :=
  match d with
  | [] => best
  | (k, v) :: d' => if (bv <? v)%Z then max_key_from k v d' else max_key_from best bv d'
  end.

Definition max_key (d : stats_t) : res pair :=
  match d with
  | [] => Raise ValueError
  | (k, v) :: d' => Ok (max_key_from k v d')
  end.

(** [max(stats.values())] *)
Definition max_value (d : stats_t) : res Z :=
  do k <- max_key d; Ok (stat_of d k).

Definition Z_to_string (x : Z) : string := NilZero.string_of_int (Z.to_int x).

Definition nl : string := String (ascii_of_nat 10) EmptyString.

Definition rule_line (p : pair) : string := (fst p ++ " " ++ snd p ++ nl)%string.

Definition stop_note (args : arguments) : string :=
  ("no pair has frequency >= " ++ Z_to_string (min_frequency args) ++ ". Stopping" ++ nl)%string.

Definition verbose_note (i : Z) (p : pair) (freq : Z) : string :=
  ("pair " ++ Z_to_string i ++ ": " ++ fst p ++ " " ++ snd p ++ " -> "
   ++ fst p ++ snd p ++ " (frequency " ++ Z_to_string freq ++ ")" ++ nl)%string.

(** Lines 259-269: selection, with the repair from the full statistics. *)
Definition select (i : Z) (st : state) : res (state * pair) :=
  let most_frequent := match stats st with [] => None | _ :: _ => Some (max_key (stats st)) end in
  let repair :=
    match most_frequent with
    | Some (Ok mf) => negb (i =? 0)%Z && below (stat_of (stats st) mf) (threshold st)
    | _ => true
    end in
  if repair then
    let '(_, big1) := prune_stats (stats st) (big_stats st) (threshold st) in
    let stats2 := big1 in
    do mf <- max_key stats2;
    let thr := Qmake (stat_of stats2 mf * i) (Z.to_pos (i + 10000)) in
    let '(stats3, big3) := prune_stats stats2 big1 thr in
    Ok (mkState (sorted_vocab st) stats3 big3 (indices st) thr (output st) (stderr st), mf)
  else
    match most_frequent with
    | Some (Ok mf) => Ok (st, mf)
    | _ => Raise ValueError
    end.

(** Lines 278-280: apply one merge and bring the statistics up to date. *)
Definition merge_step (most_frequent : pair) (s : vocabulary * stats_t * indices_t)
  : res (vocabulary * stats_t * indices_t) :=
  let '(vocab, stats, indices) := s in
  do (vocab', indices1, changes) <- replace_pair most_frequent vocab indices;
  do (stats2, indices2) <- update_pair_statistics most_frequent changes stats indices1;
  Ok (vocab', Dict.set pair_eqb stats2 most_frequent 0%Z, indices2).

(** One pass through the body of the [for] loop; the boolean is [true]
    when the pass ended in [break]. *)
Definition iteration (args : arguments) (i : Z) (st : state) : res (state * bool) :=
  do (st, most_frequent) <- select i st;
  (* [stats[most_frequent]] on line 271 reads a defaultdict *)
  let stats1 :=
    if Dict.mem pair_eqb (stats st) most_frequent then stats st
    else Dict.set pair_eqb (stats st) most_frequent 0%Z in
  if (stat_of stats1 most_frequent <? min_frequency args)%Z then
    Ok (mkState (sorted_vocab st) stats1 (big_stats st) (indices st) (threshold st)
          (output st) (stderr st ++ [stop_note args]), true)
  else
    let err :=
      if verbose args
      then stderr st ++ [verbose_note i most_frequent (stat_of stats1 most_frequent)]
      else stderr st in
    let out := output st ++ [rule_line most_frequent] in
    do (vocab', stats3, indices2) <-
      merge_step most_frequent (sorted_vocab st, stats1, indices st);
    let '(stats4, big4) :=
      if (i mod 100 =? 0)%Z then prune_stats stats3 (big_stats st) (threshold st)
      else (stats3, big_stats st) in
    Ok (mkState vocab' stats4 big4 indices2 (threshold st) out err, false).

(** [for i in range(args.symbols)], from iteration [i] on. *)
Fixpoint loop (args : arguments) (n : nat) (i : Z) (st : state) : res state :=
  match n with
  | O => Ok st
  | S n' =>
      do (st', stop) <- iteration args i st;
      if stop then Ok st' else loop args n' (i + 1)%Z st'
  end.

(** Lines 254-257. *)
Definition initial_state (vocab : vocabulary) : res state :=
  do (stats0, indices0) <- get_pair_statistics vocab;
  do m <- max_value stats0;
  Ok (mkState vocab stats0 stats0 indices0
        (Qmake m 10) [] []).

(** The program from the sorted vocabulary on. *)
Definition learn_bpe (args : arguments) (vocab : vocabulary) : res state :=
  do st <- initial_state vocab;
  loop args (Z.to_nat (symbols args)) 0%Z st.

Definition main (args : arguments) (fobj : list string) : res state :=
  do vocab <- build_vocabulary args fobj;
  learn_bpe args vocab.

(** * Reference notions

    The notions the properties are stated with: the pairs of a word and
    their counts, the merge of a pair read from left to right, the events
    of the update loops, the side conditions of a merge, and the runs used
    as examples. *)

(** The adjacent pairs of a tuple, left to right. *)
Fixpoint adj (w : word) : list pair :=
  match w with
  | [] => []
  | a :: tl => match tl with [] => [] | b :: _ => (a, b) :: adj tl end
  end.

(** The pairs that count: adjacent, neither side a boundary delimiter. *)
Definition pairs_of (w : word) : list pair :=
  filter (fun p => negb (pair_has_delim p)) (adj w).

Definition occ (q : pair) (ps : list pair) : Z :=
  Z.of_nat (List.length (filter (pair_eqb q) ps)).

(** Occurrence count of a pair in a word. *)
Definition cnt (q : pair) (w : word) : Z := occ q (pairs_of w).

(** True global frequency: sum of occurrence count times word frequency. *)
Fixpoint true_freq (v : vocabulary) (q : pair) : Z :=
  match v with
  | [] => 0%Z
  | (w, f) :: v' => (f * cnt q w + true_freq v' q)%Z
  end.

Definition word_at (v : vocabulary) (j : nat) : word :=
  match nth_error v j with Some (w, _) => w | None => [] end.

(** Splitting at a delimiter, by recursion on the tuple. *)
Fixpoint split_on (d : symbol) (w : word) : list word :=
  match w with
  | [] => [[]]
  | x :: w' =>
      if String.eqb x d then [] :: split_on d w'
      else match split_on d w' with
           | s :: ss => (x :: s) :: ss
           | [] => [[x]]
           end
  end.

(** [bump] over a list of pairs. *)
Definition bumps (st : stats_t * indices_t) (ps : list pair) (j : nat) (df dc : Z)
  : stats_t * indices_t :=
  fold_left (fun st p => bump st p j df dc) ps st.

Definition delta (p q : pair) (x : Z) : Z := if pair_eqb p q then x else 0%Z.

Definition nonempty (s : word) : bool := match s with [] => false | _ => true end.

Definition spans_ok (w : word) : bool := forallb nonempty (split_tuple w DELIM).

(** The recount of one vocabulary, entry [k] of the list having index
    [i + k]. *)
Fixpoint recount (i : nat) (v : vocabulary) (st : stats_t * indices_t) : stats_t * indices_t :=
  match v with
  | [] => st
  | (w, f) :: v' => recount (S i) v' (bumps st (pairs_of w) i f 1)
  end.

Definition all_spans_ok (v : vocabulary) : bool := forallb (fun e => spans_ok (fst e)) v.

(** Replacing, left to right, every non-overlapping adjacent occurrence of
    (L, R) by the single symbol L+R. *)
Fixpoint merge_pair (L R : symbol) (w : word) : word :=
  match w with
  | [] => []
  | a :: tl =>
      match tl with
      | [] => [a]
      | b :: rest =>
          if String.eqb a L && String.eqb b R
          then (L ++ R)%string :: merge_pair L R rest
          else a :: merge_pair L R tl
      end
  end.

Fixpoint no_space (s : string) : bool :=
  match s with
  | EmptyString => true
  | String c s' => negb (isspace c) && no_space s'
  end.

(** A well-formed symbol: not empty, no whitespace inside. *)
Definition wf_sym (s : symbol) : bool := negb (String.eqb s EmptyString) && no_space s.

Definition wf_word (w : word) : bool := forallb wf_sym w.

Definition tail_join (w : word) : string :=
  match w with
  | [] => EmptyString
  | _ :: _ => (" " ++ join w)%string
  end.

Open Scope string_scope.

(** A string that is empty or starts with whitespace: what follows a
    symbol in a joined word. *)
Definition at_gap (x : string) : bool := lookahead x.

(** The substitution with the fuel the string needs. *)
Definition resub (lit repl : string) (prev : option ascii) (s : string) : string :=
  re_sub (String.length s) lit repl prev s.

Close Scope string_scope.

(** The pair [p] as a counted pair: nothing when a side is a delimiter. *)
Definition keep (p : pair) : list pair := if pair_has_delim p then [] else [p].

Definition keep_prev (prev : option symbol) (a : symbol) : list pair :=
  match prev with Some p => keep (p, a) | None => [] end.

Definition starts_pair (L R : symbol) (s : word) : bool :=
  match s with
  | a :: b :: _ => String.eqb a L && String.eqb b R
  | _ => false
  end.

(** The pairs the first loop of the else branch decrements, read off the
    old word from left to right.  [prev] is the symbol before the suffix;
    [merged] says that it is the right half of a merged occurrence, whose
    pair with the next symbol is then lost. *)
Fixpoint dec_events (L R : symbol) (merged : bool) (prev : option symbol) (s : word)
  : list pair :=
  match s with
  | [] => []
  | a :: tl =>
      match tl with
      | [] => if merged then keep_prev prev a else []
      | b :: rest =>
          if String.eqb a L && String.eqb b R
          then keep_prev prev a ++ dec_events L R true (Some b) rest
          else (if merged then keep_prev prev a else [])
                 ++ dec_events L R false (Some a) tl
      end
  end.

(** The pairs the second loop increments, read off the new word: every
    adjacent pair with the new symbol on a side.  [pending] says that
    [prev] is the new symbol. *)
Fixpoint inc_events (N : symbol) (pending : bool) (prev : option symbol) (s : word)
  : list pair :=
  match s with
  | [] => []
  | a :: tl =>
      (if String.eqb a N || pending then keep_prev prev a else [])
        ++ inc_events N (String.eqb a N) (Some a) tl
  end.

Definition prev_at (w : word) (i : nat) : option symbol :=
  if i =? 0 then None else Some (nth (i - 1) w EmptyString).

Definition involves (N : symbol) (q : pair) : bool :=
  String.eqb (fst q) N || String.eqb (snd q) N.

Definition with_prev (prev : option symbol) (s : word) : word :=
  match prev with Some p => p :: s | None => s end.

Definition is_sym (N : symbol) (prev : option symbol) : bool :=
  match prev with Some p => String.eqb p N | None => false end.

Definition is_delim (x : symbol) : bool := String.eqb x DELIM.

Fixpoint total_len (ss : list word) : nat :=
  match ss with
  | [] => 0
  | s :: ss' => S (List.length s) + total_len ss'
  end.

(** The vocabulary after the merge of [pr]: the words that hold the pair
    are rewritten, the others are left alone. *)
Definition rewrite_vocab (pr : pair) (v : vocabulary) : vocabulary :=
  map (fun e => if (0 <? cnt pr (fst e))%Z then (rewrite_word pr (fst e), snd e) else e) v.

(** The side conditions of a merge on one word: its symbols are
    well formed, no span is empty, the merged symbol is new to it, and if
    it holds the pair, its rewriting does not bring the two halves
    together again. *)
Definition proper_word (pr : pair) (w : word) : bool :=
  wf_word w && spans_ok w
  && negb (existsb (String.eqb (fst pr ++ snd pr)%string) w)
  && ((cnt pr w =? 0)%Z || (cnt pr (rewrite_word pr w) =? 0)%Z).

Definition proper_step (pr : pair) (v : vocabulary) : bool :=
  wf_sym (fst pr) && wf_sym (snd pr)
  && negb (is_delim (fst pr)) && negb (is_delim (snd pr))
  && negb (is_delim (fst pr ++ snd pr)%string)
  && forallb (fun e => proper_word pr (fst e)) v.

(** Every inner dictionary of the index has distinct keys. *)
Definition tidy (ix : indices_t) : Prop := forall q, NoDup (map fst (inner_of ix q)).

(** The sums of the per-word changes recorded in [changes]. *)
Fixpoint delta_sum (q : pair) (cs : list change) : Z :=
  match cs with
  | [] => 0%Z
  | (_, w', w, f) :: cs' => (f * (cnt q w' - cnt q w) + delta_sum q cs')%Z
  end.

Fixpoint delta_idx (q : pair) (k : nat) (cs : list change) : Z :=
  match cs with
  | [] => 0%Z
  | (j, w', w, _) :: cs' =>
      ((if Nat.eqb j k then cnt q w' - cnt q w else 0) + delta_idx q k cs')%Z
  end.

(** What [replace_pair] records for a rewritten entry. *)
Definition recorded (pr : pair) (v : vocabulary) (items : inner_t) (c : change) : Prop :=
  let '(j, w', w, f) := c in
  nth_error v j = Some (w, f) /\ w' = rewrite_word pr w /\ (1 <= count_of items j)%Z.

(** A recorded change the update can follow. *)
Definition sound_change (L R : symbol) (c : change) : Prop :=
  let '(j, w', w, f) := c in
  w' = collapse (merge_pair L R w) /\ spans_ok w = true /\ ~ In (L ++ R)%string w
  /\ cnt (L, R) w' = 0%Z.

(** A sequence of merges from a state. *)
Fixpoint run_merges (ps : list pair) (s : vocabulary * stats_t * indices_t)
  : res (vocabulary * stats_t * indices_t) :=
  match ps with
  | [] => Ok s
  | p :: ps' => do s' <- merge_step p s; run_merges ps' s'
  end.

(** The side conditions along a sequence of merges: each step is proper on
    the vocabulary it meets, and no pair is merged twice. *)
Fixpoint proper_run (ps : list pair) (v : vocabulary) : bool :=
  match ps with
  | [] => true
  | p :: ps' =>
      proper_step p v && negb (existsb (pair_eqb p) ps')
      && proper_run ps' (rewrite_vocab p v)
  end.

Definition rewrite_all (ps : list pair) (v : vocabulary) : vocabulary :=
  fold_left (fun v p => rewrite_vocab p v) ps v.

(** Number of non-whitespace characters. *)
Fixpoint nsc (s : string) : nat :=
  match s with
  | EmptyString => 0
  | String c s' => (if isspace c then 0 else 1) + nsc s'
  end.

(** Every key of every inner dictionary of the index is a position of the
    vocabulary. *)
Definition keys_bounded (n : nat) (ix : indices_t) : Prop :=
  forall q j, In j (map fst (inner_of ix q)) -> j < n.

(** What the loop keeps true: the full statistics are not empty and the
    index only points into the vocabulary. *)
Definition loop_inv (st : state) : Prop :=
  big_stats st <> [] /\ keys_bounded (List.length (sorted_vocab st)) (indices st).

Definition change_ok (pr : pair) (n : nat) (c : change) : Prop :=
  let '(j, w', w, f) := c in j < n /\ w' = rewrite_word pr w.

(** No word is collapsed by the merge of [pr]. *)
Definition no_collapse (pr : pair) (v : vocabulary) : bool :=
  forallb (fun e => word_eqb (collapse (merge_pair (fst pr) (snd pr) (fst e)))
                             (merge_pair (fst pr) (snd pr) (fst e))) v.

Definition nonneg_freqs (v : vocabulary) : bool := forallb (fun e => (0 <=? snd e)%Z) v.

Definition symbol_count (x : symbol) (w : word) : Z := Z.of_nat (count_occ string_dec w x).

Definition is_nil (s : word) : bool := match s with [] => true | _ => false end.

(** Some span of the word is empty. *)
Definition has_empty_span (w : word) : bool := existsb is_nil (split_tuple w DELIM).

Definition delim_first (w : word) : bool :=
  match w with [] => false | x :: _ => is_delim x end.

Definition delim_last (w : word) : bool :=
  match w with [] => false | _ :: _ => is_delim (last w EmptyString) end.

Definition delim_twice (w : word) : bool :=
  existsb (fun p => is_delim (fst p) && is_delim (snd p)) (adj w).


(** The run the pruning is compared with: pruning disabled, every
    selection made over the full statistics. *)
Fixpoint loop_unpruned (args : arguments) (n : nat)
  (s : vocabulary * stats_t * indices_t) (out : list string)
  : res (vocabulary * stats_t * indices_t * list string) :=
  match n with
  | O => Ok (s, out)
  | S n' =>
      let '(v, st, ix) := s in
      do most_frequent <- max_key st;
      if (stat_of st most_frequent <? min_frequency args)%Z then Ok (s, out)
      else
        do s' <- merge_step most_frequent s;
        loop_unpruned args n' s' (out ++ [rule_line most_frequent])
  end.

Definition learn_bpe_unpruned (args : arguments) (v : vocabulary) : res (list string) :=
  do (s, ix) <- get_pair_statistics v;
  do r <- loop_unpruned args (Z.to_nat (symbols args)) (v, s, ix) [];
  Ok (snd r).

(** [n] copies of a word on one line. *)
Fixpoint repeat_word (n : nat) (x : string) : string :=
  match n with
  | O => EmptyString
  | S n' => (x ++ " " ++ repeat_word n' x)%string
  end.

Open Scope string_scope.

(** The example of the specification. *)
Definition example_args : arguments := mkArgs 3 2 false false "==" false.

Definition example_vocab : vocabulary :=
  [(["l"; "o"; "w"; "</w>"], 1%Z);
   (["l"; "o"; "w"; "e"; "r"; "</w>"], 1%Z);
   (["l"; "o"; "w"; "e"; "s"; "t"; "</w>"], 1%Z);
   (["n"; "e"; "w"; "e"; "s"; "t"; "</w>"], 1%Z);
   (["w"; "i"; "d"; "e"; "s"; "t"; "</w>"], 1%Z)].

Close Scope string_scope.

Definition strip_delims (w : word) : word := filter (fun t => negb (String.eqb t DELIM)) w.

(** The frequency the two tables stand for: the working entry when it is
    present and not negative; the full entry corrected by the working
    entry when that is a negative delta; the full entry when the pair is
    absent from the working table. *)
Definition deferred (stats big : stats_t) (q : pair) : Z :=
  if Dict.mem pair_eqb stats q
  then (if (stat_of stats q <? 0)%Z then stat_of big q + stat_of stats q
        else stat_of stats q)%Z
  else stat_of big q.

(** No key of the table holds the symbol. *)
Definition unseen (N : symbol) (d : stats_t) : bool :=
  forallb (fun e => negb (involves N (fst e))) d.

Definition positive_freqs (v : vocabulary) : bool := forallb (fun e => (0 <? snd e)%Z) v.

(** A merge the deferred reading survives: proper, without collapse, of a
    symbol that no key of either table holds. *)
Definition clean_step (pr : pair) (st : state) : bool :=
  proper_step pr (sorted_vocab st) && no_collapse pr (sorted_vocab st)
  && unseen (fst pr ++ snd pr)%string (stats st)
  && unseen (fst pr ++ snd pr)%string (big_stats st).

(** Every merge of the run is clean. *)
Fixpoint clean_loop (args : arguments) (n : nat) (i : Z) (st : state) : bool :=
  match n with
  | O => true
  | S n' =>
      match select i st, iteration args i st with
      | Ok (st1, most_frequent), Ok (st', stop) =>
          if stop then true
          else clean_step most_frequent st1 && clean_loop args n' (i + 1)%Z st'
      | _, _ => true
      end
  end.

Definition seen (stats big : stats_t) (q : pair) : Prop :=
  Dict.mem pair_eqb stats q = true \/ Dict.mem pair_eqb big q = true.

Definition pruned_value (big : stats_t) (q : pair) (x : Z) : Z :=
  if (x <? 0)%Z then (stat_of big q + x)%Z else x.

(** How one entry of the working table moves through an update: [m], [x]
    are its presence and value before, [m'], [x'] after, [d] the change of
    the pair's true frequency; [inv] says that the pair holds the new
    symbol.  A pair without the new symbol only loses occurrences, and it
    is (re)inserted only when it loses some. *)
Definition touch_rel (inv m : bool) (x : Z) (m' : bool) (x' d : Z) : Prop :=
  x' = (x + d)%Z /\
  (if inv then 0 <= d else d <= 0)%Z /\
  ((m' = m /\ d = 0%Z) \/ (m' = true /\ (inv = true \/ d < 0)%Z)).

Definition plain_change (L R : symbol) (c : change) : Prop :=
  let '(j, w', w, f) := c in
  w' = merge_pair L R w /\ ~ In (L ++ R)%string w /\ (0 < f)%Z.

(** The index of a pair is exact, or the pair is a merged one: it does
    not occur any more, a table holds it, and its stale index entries are
    not positive. *)
Definition idx_ok (v : vocabulary) (s big : stats_t) (ix : indices_t) (q : pair) : Prop :=
  (forall j, idx_of ix q j = cnt q (word_at v j)) \/
  (true_freq v q = 0%Z /\ seen s big q /\ forall j, (idx_of ix q j <= 0)%Z).

(** The invariant of the run under the deferred reading. *)
Definition run_inv (st : state) : Prop :=
  NoDup (map fst (stats st)) /\ NoDup (map fst (big_stats st)) /\
  tidy (indices st) /\ positive_freqs (sorted_vocab st) = true /\
  (forall q, deferred (stats st) (big_stats st) q = true_freq (sorted_vocab st) q) /\
  (forall q, idx_ok (sorted_vocab st) (stats st) (big_stats st) (indices st) q).

(** What every pass of the loop finds and leaves: a non-empty full table,
    an index that points into the vocabulary and lists no position twice,
    and tables without a repeated key. *)
Definition steady (st : state) : Prop :=
  loop_inv st /\ tidy (indices st)
  /\ NoDup (map fst (stats st)) /\ NoDup (map fst (big_stats st)).

(** The selection of pass [i] in state [st] (lines 259-269): the pair [p]
    it chooses and the value [x] that line 271 reads for it, no pair of the
    working table, as the selection leaves it, having a greater value. *)
Definition selects (i : Z) (st : state) (p : pair) (x : Z) : Prop :=
  exists st1,
    select i st = Ok (st1, p) /\ x = stat_of (stats st1) p
    /\ forall q, Dict.mem pair_eqb (stats st1) q = true -> (stat_of (stats st1) q <= x)%Z.

(** The merge of [p] between the states [a] and [b]: every entry stays at
    its index with its frequency, and its word is rewritten exactly when
    the index of [a] counts the pair in it. *)
Definition merged_in_place (p : pair) (a b : state) : Prop :=
  forall j,
    nth_error (sorted_vocab b) j =
    match nth_error (sorted_vocab a) j with
    | Some (w, f) =>
        Some (if (1 <=? idx_of (indices a) p j)%Z then rewrite_word p w else w, f)
    | None => None
    end.

(** [w'] comes from [w] by the merges of [rules], in their order, each one
    either leaving the word or rewriting it once. *)
Fixpoint descends (rules : list pair) (w w' : word) : Prop :=
  match rules with
  | [] => w' = w
  | p :: rules' => descends rules' w w' \/ descends rules' (rewrite_word p w) w'
  end.

(** Every entry of [v'] sits at the index of the entry of [v] it comes
    from, with the same frequency; no entry is added or removed. *)
Definition same_places (rules : list pair) (v v' : vocabulary) : Prop :=
  forall j,
    match nth_error v j with
    | Some (w, f) => exists w', nth_error v' j = Some (w', f) /\ descends rules w w'
    | None => nth_error v' j = None
    end.

(** The run cut after [k] passes: the program with the budget [k]. *)
Definition run_to (args : arguments) (v : vocabulary) (k : nat) : res state :=
  do st0 <- initial_state v; loop args k 0%Z st0.

(** Pass [k] of the run on [v] (the first pass is pass 0) is reached with
    [k] rules written, none of the passes before it having stopped, and it
    selects the pair [p] with the value [x]. *)
Definition pass_selects (args : arguments) (v : vocabulary) (k : nat) (p : pair) (x : Z)
  : Prop :=
  exists a,
    run_to args v k = Ok a /\ List.length (output a) = k /\ selects (Z.of_nat k) a p x.

(** The value of a computation that returned, the given one otherwise. *)
Definition value_or {A : Type} (d : A) (r : res A) : A :=
  match r with Ok a => a | Raise _ => d end.

Definition empty_state : state := mkState [] [] [] [] (Qmake 0 1) [] [].

Open Scope string_scope.

(** Runs used as examples. *)
Definition stale_args : arguments := mkArgs 3 2 false false "==" false.

Definition stale_corpus : list string :=
  [repeat_word 60 "de"; repeat_word 48 "ab"; repeat_word 2 "abz"].

Definition stale_vocab : vocabulary :=
  [(["d"; "e"; "</w>"], 60%Z); (["a"; "b"; "</w>"], 48%Z);
   (["a"; "b"; "z"; "</w>"], 2%Z)].

Definition stale_initial : state :=
  Eval vm_compute in value_or empty_state (initial_state stale_vocab).

Definition stale_final : state :=
  Eval vm_compute in value_or empty_state (learn_bpe stale_args stale_vocab).

Definition preexisting_args : arguments := mkArgs 1 2 true true "==" false.

Definition preexisting_corpus : list string :=
  [repeat_word 5 "ab==x==a==b"; repeat_word 3 "a==b==c"].

Definition pruned_args : arguments := mkArgs 4 2 false false "==" true.

Definition pruned_corpus : list string :=
  [repeat_word 50 "de"; repeat_word 2 "ab";
   repeat_word 20 "a==b==c"; repeat_word 21 "g==h==c"].

Definition floor_args : arguments := mkArgs 10 21 false false "==" true.

Definition rising_args : arguments := mkArgs 3 2 false false "==" true.

Definition rising_corpus : list string := ["x==x==x==ab x==x==x==ab"].

Definition rising_vocab0 : vocabulary :=
  [(["x"; "=="; "x"; "=="; "x"; "=="; "a"; "b"; "</w>"], 2%Z)].

Definition rising_vocab : vocabulary :=
  [(["x"; "=="; "x"; "=="; "x"; "=="; "ab"; "</w>"], 2%Z)].

Definition plus_args : arguments := mkArgs 1 1 false false "+" true.

Definition example_counts : stats_t * indices_t :=
  Eval vm_compute in recount 0 example_vocab ([], []).

Definition example_step : vocabulary * stats_t * indices_t :=
  Eval vm_compute in
    value_or ([], [], [])
      (merge_step ("l", "o") (example_vocab, fst example_counts, snd example_counts)).

Definition example_step2 : vocabulary * stats_t * indices_t :=
  Eval vm_compute in value_or ([], [], []) (merge_step ("w", "e") example_step).

Close Scope string_scope.

(** A character of a string. *)
Fixpoint char_in (c : ascii) (s : string) : bool :=
  match s with
  | EmptyString => false
  | String a s' => Ascii.eqb a c || char_in c s'
  end.

(** [x] appended to the last of the spans. *)
Definition append_last (ms : list word) (x : symbol) : list word :=
  removelast ms ++ [last ms [] ++ [x]].

Definition is_empty (s : string) : bool := String.eqb s EmptyString.

Definition aware_args : arguments := mkArgs 10 2 false false "==" true.

(** The distinct elements of a list, in the order of their first
    occurrence. *)
Fixpoint uniq (l : list string) : list string :=
  match l with
  | [] => []
  | x :: l' => x :: filter (fun y => negb (String.eqb y x)) (uniq l')
  end.

(** The whitespace-separated words of a corpus, line after line. *)
Definition corpus_words (fobj : list string) : list string := flat_map split_ws fobj.

Definition times (l : list string) (w : string) : Z := Z.of_nat (count_occ string_dec l w).

(** Entries in the order of non-increasing frequency. *)
Definition freq_ge (a b : entry) : Prop := (snd b <= snd a)%Z.

Definition has_freq (k : Z) (e : entry) : bool := (snd e =? k)%Z.

Definition demo_corpus : list string :=
  ["b a==c a==c"%string; String (ascii_of_nat 9) "d b  a==c"%string].

Definition demo_vocab : vocabulary :=
  Eval vm_compute in value_or [] (build_vocabulary aware_args demo_corpus).

(** The separator that reads a tokenised word back: the morphemes of
    [--morph-as-char] are glued by the delimiter, the characters of the
    other two modes by nothing. *)
Definition glue (args : arguments) : string :=
  if morph_as_char args then delimiter args else EmptyString.

(** The modes that call [str.split] on the delimiter. *)
Definition splits (args : arguments) : bool := morph_as_char args || morph_aware args.

(** An entry of the counter and its tokenised form. *)
Definition tokenized (args : arguments) (e : string * Z) (t : entry) : Prop :=
  tokenize args (fst e) = Ok (fst t) /\ snd t = snd e.

(** An entry that [prune_stats] keeps in the working table. *)
Definition kept (thr : Q) (e : (string * string) * Z) : bool := negb (below (snd e) thr).

(** What [prune_stats] stores in the full table for a pruned entry of
    value [x]. *)
Definition stored (big : stats_t) (q : pair) (x : Z) : Z :=
  if (x <? 0)%Z then (stat_of big q + x)%Z else x.

Definition demo_stats : stats_t :=
  [(("a", "b"), 5%Z); (("b", "c"), 1%Z); (("c", "d"), (-2)%Z); (("d", "e"), 7%Z)]%string.

Definition demo_big : stats_t := [(("c", "d"), 6%Z); (("x", "y"), 1%Z)]%string.

Definition demo_tables : stats_t * indices_t :=
  Eval vm_compute in value_or ([], []) (get_pair_statistics demo_vocab).

(** The text a word spells: its symbols, the boundary delimiters apart,
    one after the other. *)
Definition spelling (w : word) : string := String.concat EmptyString (strip_delims w).

(** A word in which no two symbols stand side by side inside a morpheme. *)
Definition no_pairs (w : word) : bool :=
  match pairs_of w with [] => true | _ :: _ => false end.

(** The options with another budget. *)
Definition with_symbols (args : arguments) (k : Z) : arguments :=
  mkArgs k (min_frequency args) (verbose args) (morph_as_char args)
    (delimiter args) (morph_aware args).

Definition plain_args : arguments := mkArgs 2 2 false false "==" false.

Definition demo_short : state :=
  Eval vm_compute in value_or empty_state (learn_bpe plain_args demo_vocab).

Definition demo_long : state :=
  Eval vm_compute in value_or empty_state (learn_bpe (with_symbols plain_args 5) demo_vocab).

(** A pair without the boundary delimiter on either side. *)
Definition plain_pair (p : pair) : Prop := pair_has_delim p = false.

(** A table whose keys are all such pairs. *)
Definition plain_keys (d : stats_t) : Prop := Forall (fun e => plain_pair (fst e)) d.

(** The options with another verbosity. *)
Definition with_verbose (args : arguments) (b : bool) : arguments :=
  mkArgs (symbols args) (min_frequency args) b (morph_as_char args)
    (delimiter args) (morph_aware args).

(** Two states that differ at most in what was written to stderr. *)
Definition same_but_stderr (s1 s2 : state) : Prop :=
  sorted_vocab s1 = sorted_vocab s2 /\ stats s1 = stats s2 /\ big_stats s1 = big_stats s2
  /\ indices s1 = indices s2 /\ threshold s1 = threshold s2 /\ output s1 = output s2.

(** Two outcomes that are the same but for stderr. *)
Definition same_outcome {A : Type} (r1 r2 : res (state * A)) : Prop :=
  match r1, r2 with
  | Ok (s1, a1), Ok (s2, a2) => same_but_stderr s1 s2 /\ a1 = a2
  | Raise e1, Raise e2 => e1 = e2
  | _, _ => False
  end.

(** A word of the corpus with an empty morpheme before a delimiter: it
    starts with the delimiter or holds two delimiters in a row. *)
Definition empty_morph (x : string) : bool :=
  existsb is_empty (removelast (str_split (String.length x) DELIM x)).

Definition broken_corpus : list string := ["ab==c d"%string; "e====f"%string].

(** A pair that stands clear of a merge of (L, R): it is not the pair, it
    does not end in L, does not start with R, and does not hold L+R. *)
Definition clear_of (L R : symbol) (q : pair) : Prop :=
  q <> (L, R) /\ snd q <> L /\ fst q <> R /\ involves (L ++ R)%string q = false.

(** A change that takes the else branch of [update_pair_statistics]. *)
Definition in_place (c : change) : Prop :=
  let '(j, w, old_word, f) := c in has_delim old_word && negb (has_delim w) = false.

Definition demo_changes : list change :=
  [(0, ["x"; "ab"; "c"; "</w>"], ["x"; "a"; "b"; "c"; "</w>"], 4%Z);
   (2, ["ab"; "ab"; "</w>"], ["a"; "b"; "a"; "b"; "</w>"], 1%Z)]%string.

(** * Properties *)

(** * Dictionaries *)

Section DictFacts.
Context {K V : Type} (keqb : K -> K -> bool).
Hypothesis keqb_eq : forall a b, keqb a b = true <-> a = b.

Lemma keqb_refl a : keqb a a = true.
Proof. now apply keqb_eq. Qed.

Lemma keqb_neq a b : a <> b -> keqb a b = false.
Proof.
  intros H. destruct (keqb a b) eqn:E; [|reflexivity].
  apply keqb_eq in E. contradiction.
Qed.

Lemma get_set_same (d : list (K * V)) k v :
  Dict.get keqb (Dict.set keqb d k v) k = Some v.
Proof.
  induction d as [|[k' v'] d IH]; simpl.
  - now rewrite keqb_refl.
  - destruct (keqb k' k) eqn:E; simpl; rewrite E; auto.
Qed.

Lemma get_set_other (d : list (K * V)) k v q :
  k <> q -> Dict.get keqb (Dict.set keqb d k v) q = Dict.get keqb d q.
Proof.
  intros Hn. induction d as [|[k' v'] d IH]; simpl.
  - now rewrite keqb_neq.
  - destruct (keqb k' k) eqn:E; simpl.
    + apply keqb_eq in E. subst k'. now rewrite keqb_neq.
    + now rewrite IH.
Qed.

Lemma get_del_other (d : list (K * V)) k q :
  k <> q -> Dict.get keqb (Dict.del keqb d k) q = Dict.get keqb d q.
Proof.
  intros Hn. induction d as [|[k' v'] d IH]; simpl; auto.
  destruct (keqb k' k) eqn:E; simpl.
  - apply keqb_eq in E. subst k'. now rewrite keqb_neq.
  - now rewrite IH.
Qed.

Lemma get_none_notin (d : list (K * V)) k :
  Dict.get keqb d k = None <-> ~ In k (map fst d).
Proof.
  induction d as [|[k' v'] d IH]; simpl.
  - tauto.
  - destruct (keqb k' k) eqn:E.
    + apply keqb_eq in E. split; [discriminate | intros H; exfalso; apply H; auto].
    + rewrite IH. split.
      * intros H [H1|H1]; [|tauto]. subst. rewrite keqb_refl in E. discriminate.
      * tauto.
Qed.

Lemma get_del_same (d : list (K * V)) k :
  NoDup (map fst d) -> Dict.get keqb (Dict.del keqb d k) k = None.
Proof.
  induction d as [|[k' v'] d IH]; simpl; auto.
  intros Hnd. inversion Hnd; subst.
  destruct (keqb k' k) eqn:E; simpl.
  - apply keqb_eq in E. subst. now apply get_none_notin.
  - rewrite E. auto.
Qed.

Lemma keys_set (d : list (K * V)) k v :
  map fst (Dict.set keqb d k v) =
  if Dict.mem keqb d k then map fst d else map fst d ++ [k].
Proof.
  unfold Dict.mem. induction d as [|[k' v'] d IH]; simpl; auto.
  destruct (keqb k' k) eqn:E; simpl; auto.
  rewrite IH. destruct (Dict.get keqb d k); auto.
Qed.

Lemma nodup_set (d : list (K * V)) k v :
  NoDup (map fst d) -> NoDup (map fst (Dict.set keqb d k v)).
Proof.
  intros H. rewrite keys_set. unfold Dict.mem.
  destruct (Dict.get keqb d k) eqn:E; auto.
  apply get_none_notin in E.
  apply NoDup_app; auto.
  - constructor; [intros []|constructor].
  - intros x Hx [Hy|[]]. subst. contradiction.
Qed.

Lemma keys_del_incl (d : list (K * V)) k x :
  In x (map fst (Dict.del keqb d k)) -> In x (map fst d).
Proof.
  induction d as [|[k' v'] d IH]; simpl; auto.
  destruct (keqb k' k); simpl; tauto.
Qed.

Lemma nodup_del (d : list (K * V)) k :
  NoDup (map fst d) -> NoDup (map fst (Dict.del keqb d k)).
Proof.
  induction d as [|[k' v'] d IH]; simpl; auto.
  intros H. inversion H; subst.
  destruct (keqb k' k); simpl; auto.
  constructor; auto. intros Hin. apply keys_del_incl in Hin. contradiction.
Qed.
End DictFacts.

Lemma pair_eqb_eq (a b : pair) : pair_eqb a b = true <-> a = b.
Proof.
  destruct a as [a1 a2], b as [b1 b2]. unfold pair_eqb. simpl.
  rewrite andb_true_iff, !String.eqb_eq. split.
  - intros [-> ->]. reflexivity.
  - intros H. inversion H. auto.
Qed.

Lemma pair_eqb_refl (a : pair) : pair_eqb a a = true.
Proof. now apply pair_eqb_eq. Qed.

Lemma pair_eqb_sym (a b : pair) : pair_eqb a b = pair_eqb b a.
Proof.
  destruct (pair_eqb a b) eqn:E1, (pair_eqb b a) eqn:E2; auto.
  - apply pair_eqb_eq in E1. subst. rewrite pair_eqb_refl in E2. discriminate.
  - apply pair_eqb_eq in E2. subst. rewrite pair_eqb_refl in E1. discriminate.
Qed.

Lemma nat_eqb_eq (a b : nat) : Nat.eqb a b = true <-> a = b.
Proof. apply Nat.eqb_eq. Qed.

(** * The counters seen as functions *)

Lemma stat_of_set stats p v q :
  stat_of (Dict.set pair_eqb stats p v) q = if pair_eqb p q then v else stat_of stats q.
Proof.
  unfold stat_of. destruct (pair_eqb p q) eqn:E.
  - apply pair_eqb_eq in E. subst. now rewrite (get_set_same _ pair_eqb_eq).
  - rewrite (get_set_other _ pair_eqb_eq); auto.
    intros ->. rewrite pair_eqb_refl in E. discriminate.
Qed.

Lemma stat_of_add stats p x q :
  stat_of (stats_add stats p x) q = (stat_of stats q + delta p q x)%Z.
Proof.
  unfold stats_add, delta. rewrite stat_of_set.
  destruct (pair_eqb p q) eqn:E; [|lia].
  apply pair_eqb_eq in E. now subst.
Qed.

Lemma inner_of_set indices p d q :
  inner_of (Dict.set pair_eqb indices p d) q = if pair_eqb p q then d else inner_of indices q.
Proof.
  unfold inner_of. destruct (pair_eqb p q) eqn:E.
  - apply pair_eqb_eq in E. subst. now rewrite (get_set_same _ pair_eqb_eq).
  - rewrite (get_set_other _ pair_eqb_eq); auto.
    intros ->. rewrite pair_eqb_refl in E. discriminate.
Qed.

Lemma count_of_set d j v k :
  count_of (Dict.set Nat.eqb d j v) k = if Nat.eqb j k then v else count_of d k.
Proof.
  unfold count_of. destruct (Nat.eqb j k) eqn:E.
  - apply Nat.eqb_eq in E. subst. now rewrite (get_set_same _ nat_eqb_eq).
  - rewrite (get_set_other _ nat_eqb_eq); auto.
    intros ->. rewrite Nat.eqb_refl in E. discriminate.
Qed.

Lemma idx_of_add indices p j x q k :
  idx_of (idx_add indices p j x) q k =
  (idx_of indices q k + if Nat.eqb j k then delta p q x else 0)%Z.
Proof.
  unfold idx_of, idx_add, delta. rewrite inner_of_set.
  destruct (pair_eqb p q) eqn:E.
  - apply pair_eqb_eq in E. subst q. rewrite count_of_set.
    destruct (Nat.eqb j k) eqn:E2; [|lia].
    apply Nat.eqb_eq in E2. now subst.
  - destruct (Nat.eqb j k); lia.
Qed.

Lemma occ_nil q : occ q [] = 0%Z.
Proof. reflexivity. Qed.

Lemma occ_cons q p ps : occ q (p :: ps) = (delta p q 1 + occ q ps)%Z.
Proof.
  unfold occ, delta. cbn [filter]. rewrite (pair_eqb_sym q p).
  destruct (pair_eqb p q); cbn [List.length]; lia.
Qed.

Lemma occ_app q ps1 ps2 : occ q (ps1 ++ ps2) = (occ q ps1 + occ q ps2)%Z.
Proof.
  unfold occ. rewrite filter_app, length_app. lia.
Qed.

Lemma occ_nonneg q ps : (0 <= occ q ps)%Z.
Proof. unfold occ. lia. Qed.

Lemma stat_of_bumps ps st j df dc q :
  stat_of (fst (bumps st ps j df dc)) q = (stat_of (fst st) q + df * occ q ps)%Z.
Proof.
  revert st. induction ps as [|p ps IH]; intros st; simpl.
  - rewrite occ_nil. lia.
  - unfold bumps in *. simpl. rewrite IH. simpl. rewrite stat_of_add, occ_cons.
    unfold delta. destruct (pair_eqb p q); lia.
Qed.

Lemma idx_of_bumps ps st j df dc q k :
  idx_of (snd (bumps st ps j df dc)) q k =
  (idx_of (snd st) q k + if Nat.eqb j k then dc * occ q ps else 0)%Z.
Proof.
  revert st. induction ps as [|p ps IH]; intros st; simpl.
  - rewrite occ_nil. destruct (Nat.eqb j k); lia.
  - unfold bumps in *. simpl. rewrite IH. simpl. rewrite idx_of_add, occ_cons.
    unfold delta. destruct (Nat.eqb j k), (pair_eqb p q); lia.
Qed.

Lemma bumps_app st ps1 ps2 j df dc :
  bumps st (ps1 ++ ps2) j df dc = bumps (bumps st ps1 j df dc) ps2 j df dc.
Proof. unfold bumps. now rewrite fold_left_app. Qed.

(** * split_tuple *)

Lemma split_on_nonempty d w : split_on d w <> [].
Proof.
  destruct w as [|x w]; simpl; [discriminate|].
  destruct (String.eqb x d); [discriminate|].
  destruct (split_on d w); discriminate.
Qed.

Lemma split_on_index0_none d w : index0 d w = None -> split_on d w = [w].
Proof.
  induction w as [|x w IH]; simpl; auto.
  destruct (String.eqb x d); [discriminate|].
  destruct (index0 d w); [discriminate|].
  intros _. now rewrite IH.
Qed.

Lemma split_on_index0_some d w k :
  index0 d w = Some k ->
  k < List.length w /\ split_on d w = firstn k w :: split_on d (skipn (S k) w).
Proof.
  revert k. induction w as [|x w IH]; simpl; [discriminate|].
  intros k. destruct (String.eqb x d).
  - intros [= <-]. split; [lia|reflexivity].
  - destruct (index0 d w) as [k'|]; [|discriminate].
    intros [= <-]. destruct (IH k' eq_refl) as [Hlt Heq].
    split; [lia|]. rewrite Heq. reflexivity.
Qed.

Lemma skipn_skipn_add {A} (a b : nat) (l : list A) : skipn a (skipn b l) = skipn (b + a) l.
Proof.
  revert l. induction b as [|b IH]; intros l; simpl; auto.
  destruct l; simpl; auto. now destruct a.
Qed.

Lemma split_tuple_loop_eq d tpl fuel lst s :
  List.length tpl - s < fuel ->
  split_tuple_loop fuel tpl d lst s (Z.of_nat s - 1) = lst ++ split_on d (skipn s tpl).
Proof.
  revert lst s. induction fuel as [|fuel IH]; intros lst s Hf; [lia|].
  cbn [split_tuple_loop]. unfold index.
  destruct (index0 d (skipn s tpl)) as [k|] eqn:E; cbn [option_map].
  - destruct (split_on_index0_some _ _ _ E) as [Hlt Heq].
    rewrite length_skipn in Hlt.
    replace (Z.of_nat (s + k)) with (Z.of_nat (s + k + 1) - 1)%Z by lia.
    rewrite IH by lia. rewrite Heq, <- app_assoc.
    unfold slice. replace (s + k - s) with k by lia. cbn [app].
    rewrite skipn_skipn_add. replace (s + S k) with (s + k + 1) by lia. reflexivity.
  - rewrite (split_on_index0_none _ _ E).
    replace (Z.to_nat (Z.of_nat s - 1 + 1)) with s by lia. reflexivity.
Qed.

Lemma split_tuple_eq w d : split_tuple w d = split_on d w.
Proof.
  unfold split_tuple. change (-1)%Z with (Z.of_nat 0 - 1)%Z.
  rewrite split_tuple_loop_eq by lia. reflexivity.
Qed.

(** * Pairs inside spans *)

Lemma adj_cons a w : adj (a :: w) = match w with [] => [] | b :: _ => (a, b) :: adj w end.
Proof. reflexivity. Qed.

Lemma pairs_of_cons2 a b w :
  pairs_of (a :: b :: w) =
  (if pair_has_delim (a, b) then [] else [(a, b)]) ++ pairs_of (b :: w).
Proof.
  unfold pairs_of. cbn [adj filter]. destruct (pair_has_delim (a, b)); reflexivity.
Qed.

Lemma eqb_delim_sym x : String.eqb x DELIM = String.eqb DELIM x.
Proof. apply String.eqb_sym. Qed.

Lemma flat_adj_split_on w :
  flat_map adj (split_on DELIM w) = pairs_of w.
Proof.
  induction w as [|a w IH]; [reflexivity|].
  destruct w as [|b w].
  - simpl. destruct (String.eqb a DELIM); reflexivity.
  - rewrite pairs_of_cons2. rewrite <- IH.
    change (split_on DELIM (a :: b :: w)) with
      (if String.eqb a DELIM then [] :: split_on DELIM (b :: w)
       else match split_on DELIM (b :: w) with
            | s :: ss => (a :: s) :: ss
            | [] => [[a]]
            end).
    unfold pair_has_delim. cbn [fst snd]. rewrite <- !eqb_delim_sym.
    destruct (String.eqb a DELIM) eqn:Ea; [reflexivity|].
    cbn [orb].
    cbn [split_on]. destruct (String.eqb b DELIM) eqn:Eb.
    + reflexivity.
    + destruct (split_on DELIM w) as [|s ss] eqn:Es.
      * exfalso. eapply split_on_nonempty; eauto.
      * reflexivity.
Qed.

(** * get_pair_statistics as a recount *)

Lemma count_run_bumps i freq prev rest st :
  count_run i freq prev rest st = bumps st (adj (prev :: rest)) i freq 1.
Proof.
  revert prev st. induction rest as [|c rest IH]; intros prev st; [reflexivity|].
  cbn [count_run]. rewrite IH. reflexivity.
Qed.

Lemma count_morphemes_eq i freq ms st :
  count_morphemes i freq ms st =
  if forallb nonempty ms then Ok (bumps st (flat_map adj ms) i freq 1)
  else Raise IndexError.
Proof.
  revert st. induction ms as [|m ms IH]; intros st; [reflexivity|].
  cbn [count_morphemes forallb flat_map]. destruct m as [|a m]; [reflexivity|].
  cbn [count_morpheme bind nonempty andb]. rewrite IH, count_run_bumps.
  destruct (forallb nonempty ms); [|reflexivity].
  now rewrite bumps_app.
Qed.

Lemma count_entries_eq i v st :
  count_entries i v st =
  if forallb (fun e => spans_ok (fst e)) v then Ok (recount i v st) else Raise IndexError.
Proof.
  revert i st. induction v as [|[w f] v IH]; intros i st; [reflexivity|].
  cbn [count_entries forallb recount fst]. rewrite count_morphemes_eq.
  unfold spans_ok. destruct (forallb nonempty (split_tuple w DELIM)); [|reflexivity].
  cbn [bind andb]. rewrite IH, split_tuple_eq, flat_adj_split_on. reflexivity.
Qed.

Lemma stat_of_recount v i st q :
  stat_of (fst (recount i v st)) q = (stat_of (fst st) q + true_freq v q)%Z.
Proof.
  revert i st. induction v as [|[w f] v IH]; intros i st; simpl; [lia|].
  rewrite IH, stat_of_bumps. unfold cnt. lia.
Qed.

Lemma word_at_cons e v j : word_at (e :: v) (S j) = word_at v j.
Proof. reflexivity. Qed.

Lemma idx_of_recount v i st q k :
  idx_of (snd (recount i v st)) q k =
  (idx_of (snd st) q k + if Nat.leb i k then cnt q (word_at v (k - i)%nat) else 0)%Z.
Proof.
  revert i st. induction v as [|[w f] v IH]; intros i st.
  - simpl. unfold word_at. destruct (k - i); simpl; unfold cnt; simpl;
      destruct (i <=? k); rewrite ?occ_nil; lia.
  - cbn [recount]. rewrite IH, idx_of_bumps.
    destruct (Nat.eqb i k) eqn:E1.
    + apply Nat.eqb_eq in E1. subst k.
      replace (S i <=? i) with false by (symmetry; apply Nat.leb_gt; lia).
      rewrite Nat.leb_refl, Nat.sub_diag. unfold word_at. cbn [nth_error].
      unfold cnt. lia.
    + apply Nat.eqb_neq in E1. destruct (i <=? k) eqn:E2.
      * apply Nat.leb_le in E2.
        replace (S i <=? k) with true by (symmetry; apply Nat.leb_le; lia).
        replace (k - i) with (S (k - S i)) by lia. rewrite word_at_cons. lia.
      * apply Nat.leb_gt in E2.
        replace (S i <=? k) with false by (symmetry; apply Nat.leb_gt; lia). lia.
Qed.

Lemma get_pair_statistics_eq v :
  get_pair_statistics v =
  if all_spans_ok v then Ok (recount 0 v ([], [])) else Raise IndexError.
Proof. apply count_entries_eq. Qed.

Lemma get_pair_statistics_exact v s ix :
  get_pair_statistics v = Ok (s, ix) ->
  (forall q, stat_of s q = true_freq v q) /\
  (forall q j, idx_of ix q j = cnt q (word_at v j)).
Proof.
  rewrite get_pair_statistics_eq. destruct (all_spans_ok v); [|discriminate].
  intros [= H]. split.
  - intros q. replace s with (fst (recount 0 v ([], []))) by now rewrite H.
    rewrite stat_of_recount. reflexivity.
  - intros q j. replace ix with (snd (recount 0 v ([], []))) by now rewrite H.
    rewrite idx_of_recount. simpl. rewrite Nat.sub_0_r. reflexivity.
Qed.

(** * Strings *)

Open Scope string_scope.

Lemma app_nil_r' s : (s ++ "")%string = s.
Proof. induction s; simpl; congruence. Qed.

Lemma app_assoc' a b c : ((a ++ b) ++ c)%string = (a ++ (b ++ c))%string.
Proof. induction a; simpl; congruence. Qed.

Lemma length_app' a b : String.length (a ++ b) = String.length a + String.length b.
Proof. induction a; simpl; auto. Qed.

Lemma no_space_app a b : no_space (a ++ b) = no_space a && no_space b.
Proof. induction a; simpl; auto. rewrite IHa. now rewrite andb_assoc. Qed.

Lemma wf_sym_app a b : wf_sym a = true -> wf_sym b = true -> wf_sym (a ++ b) = true.
Proof.
  unfold wf_sym. rewrite !andb_true_iff, no_space_app, andb_true_iff.
  intros [Ha1 Ha2] [Hb1 Hb2]. repeat split; auto.
  destruct a; simpl in *; auto.
Qed.

Lemma wf_sym_cons s :
  wf_sym s = true -> exists c s', s = String c s' /\ isspace c = false /\ no_space s' = true.
Proof.
  unfold wf_sym. destruct s as [|c s']; simpl; [discriminate|].
  rewrite andb_true_iff, negb_true_iff. intros [Hc Hs]. eauto.
Qed.

Lemma join_cons a w : join (a :: w) = (a ++ tail_join w)%string.
Proof. destruct w; simpl; auto. now rewrite app_nil_r'. Qed.

Lemma space_is_space : isspace " "%char = true.
Proof. reflexivity. Qed.

Lemma at_gap_tail_join w : at_gap (tail_join w) = true.
Proof. destruct w; reflexivity. Qed.

Lemma strip_prefix_length p s r :
  strip_prefix p s = Some r -> String.length s = String.length p + String.length r.
Proof.
  revert s. induction p as [|a p IH]; intros s; simpl.
  - intros [= ->]. reflexivity.
  - destruct s as [|b s]; [discriminate|]. destruct (Ascii.eqb a b); [|discriminate].
    intros H. simpl. now rewrite (IH _ H).
Qed.

Lemma strip_prefix_app p1 p2 s :
  strip_prefix (p1 ++ p2) s =
  match strip_prefix p1 s with Some r => strip_prefix p2 r | None => None end.
Proof.
  revert s. induction p1 as [|a p1 IH]; intros s; simpl; auto.
  destruct s as [|b s]; auto. destruct (Ascii.eqb a b); auto.
Qed.

Lemma strip_prefix_self p x : strip_prefix p (p ++ x) = Some x.
Proof. induction p; simpl; auto. now rewrite Ascii.eqb_refl. Qed.

(** A whitespace-free prefix of [a ++ x], [x] at a gap, lies inside [a]. *)
Lemma strip_prefix_token p a x r :
  no_space p = true -> at_gap x = true ->
  strip_prefix p (a ++ x) = Some r ->
  exists a', a = (p ++ a')%string /\ r = (a' ++ x)%string.
Proof.
  intros Hp Hx. revert a. induction p as [|c p IH]; intros a; simpl.
  - intros [= <-]. exists a. auto.
  - simpl in Hp. apply andb_true_iff in Hp. destruct Hp as [Hc Hp].
    apply negb_true_iff in Hc.
    destruct a as [|b a]; simpl.
    + destruct x as [|b x]; [discriminate|].
      destruct (Ascii.eqb c b) eqn:E; [|discriminate].
      apply Ascii.eqb_eq in E. subst b. simpl in Hx. congruence.
    + destruct (Ascii.eqb c b) eqn:E; [|discriminate].
      apply Ascii.eqb_eq in E. subst b. intros H.
      destruct (IH Hp a H) as [a' [-> ->]]. exists a'. auto.
Qed.

Lemma lookahead_token a x :
  no_space a = true -> at_gap x = true -> lookahead (a ++ x) = true -> a = EmptyString.
Proof.
  destruct a as [|c a]; auto. simpl. intros H _ H1.
  apply andb_true_iff in H. destruct H as [H _]. apply negb_true_iff in H. congruence.
Qed.

Section Rewrite.
Variables L R : symbol.
Hypothesis wfL : wf_sym L = true.
Hypothesis wfR : wf_sym R = true.

Let lit : string := (L ++ " " ++ R)%string.
Let repl : string := (L ++ R)%string.

Lemma lit_length_pos : 0 < String.length lit.
Proof.
  unfold lit. rewrite length_app'. simpl. lia.
Qed.

Lemma wfL_ns : no_space L = true.
Proof. unfold wf_sym in wfL. apply andb_true_iff in wfL. tauto. Qed.

Lemma wfR_ns : no_space R = true.
Proof. unfold wf_sym in wfR. apply andb_true_iff in wfR. tauto. Qed.

(** The pattern matches at the start of a joined word exactly when the
    word starts with L, R. *)
Lemma match_at_join prev a w r :
  wf_sym a = true -> wf_word w = true ->
  match_at lit prev (join (a :: w)) = Some r ->
  a = L /\ exists w', w = R :: w' /\ r = tail_join w'.
Proof.
  intros Ha Hw. unfold match_at. destruct (lookbehind prev); [|discriminate].
  unfold lit. rewrite strip_prefix_app, join_cons.
  destruct (strip_prefix L (a ++ tail_join w)) as [r1|] eqn:E1; [|discriminate].
  apply strip_prefix_token in E1; auto using wfL_ns, at_gap_tail_join.
  destruct E1 as [a' [-> ->]].
  assert (Ha' : no_space a' = true).
  { unfold wf_sym in Ha. apply andb_true_iff in Ha. destruct Ha as [_ Ha].
    rewrite no_space_app in Ha. apply andb_true_iff in Ha. tauto. }
  rewrite strip_prefix_app.
  destruct (strip_prefix " " (a' ++ tail_join w)) as [r2|] eqn:E2; [|discriminate].
  assert (a' = EmptyString) as ->.
  { destruct a' as [|c a']; auto. cbn [append strip_prefix] in E2. simpl in Ha'.
    destruct (Ascii.eqb " " c) eqn:E; [|discriminate].
    apply Ascii.eqb_eq in E. subst c. simpl in Ha'. discriminate. }
  rewrite app_nil_r'. cbn [append] in E2.
  destruct w as [|b w]; [discriminate|].
  assert (Hr2 : r2 = join (b :: w)).
  { cbn [tail_join append strip_prefix] in E2.
    change (Ascii.eqb " " " ") with true in E2. now injection E2 as <-. }
  subst r2. clear E2.
  rewrite join_cons.
  destruct (strip_prefix R (b ++ tail_join w)) as [r3|] eqn:E3; [|discriminate].
  simpl in Hw. apply andb_true_iff in Hw. destruct Hw as [Hb Hw].
  apply strip_prefix_token in E3; auto using wfR_ns, at_gap_tail_join.
  destruct E3 as [b' [-> ->]].
  assert (Hb' : no_space b' = true).
  { unfold wf_sym in Hb. apply andb_true_iff in Hb. destruct Hb as [_ Hb].
    rewrite no_space_app in Hb. apply andb_true_iff in Hb. tauto. }
  destruct (lookahead (b' ++ tail_join w)) eqn:E4; [|discriminate].
  apply lookahead_token in E4; auto using at_gap_tail_join. subst b'.
  rewrite app_nil_r'. simpl. intros [= <-]. split; auto. exists w. auto.
Qed.

Lemma match_at_hit prev w :
  lookbehind prev = true ->
  match_at lit prev (join (L :: R :: w)) = Some (tail_join w).
Proof.
  intros Hp. unfold match_at. rewrite Hp. unfold lit.
  rewrite !join_cons. cbn [tail_join]. rewrite !join_cons.
  replace (L ++ " " ++ R ++ tail_join w)%string with ((L ++ " " ++ R) ++ tail_join w)%string.
  2:{ rewrite app_assoc'. reflexivity. }
  rewrite strip_prefix_self. now rewrite at_gap_tail_join.
Qed.

Lemma match_at_inside c s : isspace c = false -> match_at lit (Some c) s = None.
Proof. intros H. unfold match_at. simpl. now rewrite H. Qed.

(** Fuel beyond the length of the string changes nothing. *)
Lemma re_sub_fuel n : forall s f1 f2 prev,
  String.length s <= n -> String.length s <= f1 -> String.length s <= f2 ->
  re_sub f1 lit repl prev s = re_sub f2 lit repl prev s.
Proof.
  induction n as [|n IH]; intros s f1 f2 prev Hn H1 H2.
  - destruct s; simpl in Hn; [|lia]. destruct f1, f2; reflexivity.
  - destruct s as [|c s]; [destruct f1, f2; reflexivity|].
    simpl in *. destruct f1 as [|f1]; [lia|]. destruct f2 as [|f2]; [lia|].
    cbn [re_sub]. destruct (match_at lit prev (String c s)) as [r|] eqn:E.
    + assert (Hr : String.length r < S (String.length s)).
      { unfold match_at in E. destruct (lookbehind prev); [|discriminate].
        destruct (strip_prefix lit (String c s)) as [r'|] eqn:E'; [|discriminate].
        destruct (lookahead r'); [|discriminate]. injection E as <-.
        apply strip_prefix_length in E'. simpl in E'.
        pose proof lit_length_pos. lia. }
      f_equal. apply IH; lia.
    + f_equal. apply IH; lia.
Qed.

Lemma resub_nil prev : resub lit repl prev EmptyString = EmptyString.
Proof. reflexivity. Qed.

Lemma resub_miss prev c s :
  match_at lit prev (String c s) = None ->
  resub lit repl prev (String c s) = String c (resub lit repl (Some c) s).
Proof.
  intros E. unfold resub. cbn [String.length re_sub]. now rewrite E.
Qed.

Lemma resub_hit prev c s r :
  match_at lit prev (String c s) = Some r ->
  resub lit repl prev (String c s) = (repl ++ resub lit repl (last_char prev lit) r)%string.
Proof.
  intros E. unfold resub. cbn [String.length re_sub]. rewrite E. f_equal.
  assert (Hr : String.length r <= String.length s).
  { unfold match_at in E. destruct (lookbehind prev); [|discriminate].
    destruct (strip_prefix lit (String c s)) as [r'|] eqn:E'; [|discriminate].
    destruct (lookahead r'); [|discriminate]. injection E as <-.
    apply strip_prefix_length in E'. simpl in E'.
    pose proof lit_length_pos. lia. }
  apply (re_sub_fuel (String.length s)); lia.
Qed.

(** Inside a symbol nothing matches: the symbol is copied. *)
Lemma resub_inside a : forall c x,
  isspace c = false -> no_space a = true ->
  exists c', isspace c' = false /\
    resub lit repl (Some c) (a ++ x) = (a ++ resub lit repl (Some c') x)%string.
Proof.
  induction a as [|b a IH]; intros c x Hc Ha.
  - exists c. auto.
  - simpl in Ha. apply andb_true_iff in Ha. destruct Ha as [Hb Ha].
    apply negb_true_iff in Hb.
    destruct (IH b x Hb Ha) as [c' [Hc' Heq]].
    exists c'. split; auto.
    cbn [append]. rewrite resub_miss by now apply match_at_inside.
    now rewrite Heq.
Qed.

Lemma last_char_app prev a b : last_char prev (a ++ b) = last_char (last_char prev a) b.
Proof. revert prev. induction a; simpl; auto. Qed.

Lemma last_char_token prev a :
  wf_sym a = true -> exists c, last_char prev a = Some c /\ isspace c = false.
Proof.
  intros H. apply wf_sym_cons in H. destruct H as [c [s [-> [Hc Hs]]]].
  simpl. clear prev. revert c Hc. induction s as [|d s IH]; intros c Hc; simpl.
  - eauto.
  - simpl in Hs. apply andb_true_iff in Hs. destruct Hs as [Hd Hs].
    apply negb_true_iff in Hd. auto.
Qed.

Lemma last_char_lit prev : exists c, last_char prev lit = Some c /\ isspace c = false.
Proof.
  unfold lit. rewrite !last_char_app. apply last_char_token. exact wfR.
Qed.

(** The substitution on a joined word is the merge on its symbols. *)
Lemma resub_join n : forall w,
  List.length w <= n -> wf_word w = true ->
  (forall prev, lookbehind prev = true ->
     resub lit repl prev (join w) = join (merge_pair L R w)) /\
  (forall c, isspace c = false ->
     resub lit repl (Some c) (tail_join w) = tail_join (merge_pair L R w)).
Proof.
  induction n as [|n IH]; intros w Hn Hw.
  - destruct w; simpl in Hn; [|lia]. split; reflexivity.
  - assert (Hfirst : forall prev, lookbehind prev = true ->
              resub lit repl prev (join w) = join (merge_pair L R w)).
    { intros prev Hp. destruct w as [|a w]; [reflexivity|].
      simpl in Hw. apply andb_true_iff in Hw. destruct Hw as [Ha Hw].
      simpl in Hn.
      destruct (wf_sym_cons _ Ha) as [c [a' [-> [Hc Ha']]]].
      destruct (match_at lit prev (join (String c a' :: w))) as [r|] eqn:E.
      - destruct (match_at_join _ _ _ _ Ha Hw E) as [HL [w' [-> ->]]].
        rewrite join_cons in E |- *. cbn [append] in E |- *.
        rewrite (resub_hit _ _ _ _ E).
        destruct (last_char_lit prev) as [c' [-> Hc']].
        simpl in Hw. apply andb_true_iff in Hw. destruct Hw as [_ Hw].
        destruct (IH w' ltac:(simpl in Hn; lia) Hw) as [_ IH2].
        rewrite (IH2 _ Hc').
        cbn [merge_pair]. rewrite HL, !String.eqb_refl. cbn [andb].
        rewrite join_cons. reflexivity.
      - assert (Hm : merge_pair L R (String c a' :: w) = String c a' :: merge_pair L R w).
        { destruct w as [|b w]; [reflexivity|]. cbn [merge_pair].
          destruct (String.eqb (String c a') L && String.eqb b R) eqn:Eb; [|reflexivity].
          apply andb_true_iff in Eb. destruct Eb as [E1 E2].
          apply String.eqb_eq in E1, E2. rewrite E1, E2 in E.
          rewrite match_at_hit in E by assumption. discriminate. }
        transitivity (join (String c a' :: merge_pair L R w));
          [|f_equal; symmetry; exact Hm].
        rewrite !join_cons. rewrite join_cons in E. cbn [append] in E |- *.
        rewrite (resub_miss _ _ _ E).
        destruct (resub_inside a' c (tail_join w) Hc Ha') as [c' [Hc' ->]].
        destruct (IH w ltac:(lia) Hw) as [_ IH2].
        now rewrite (IH2 _ Hc'). }
    split; [exact Hfirst|].
    intros c Hc. destruct w as [|a w]; [reflexivity|].
    cbn [tail_join]. cbn [append].
    rewrite resub_miss by now apply match_at_inside.
    rewrite (Hfirst (Some " "%char) eq_refl).
    destruct (merge_pair L R (a :: w)) eqn:Em; [|reflexivity].
    exfalso. destruct w as [|b w]; [discriminate|]. cbn [merge_pair] in Em.
    destruct (String.eqb a L && String.eqb b R); discriminate.
Qed.

Lemma pattern_sub_join w :
  wf_word w = true -> pattern_sub L R (join w) = join (merge_pair L R w).
Proof.
  intros Hw. unfold pattern_sub. fold lit. fold repl.
  change (re_sub (String.length (join w)) lit repl None (join w)) with (resub lit repl None (join w)).
  destruct (resub_join (List.length w) w (le_n _) Hw) as [H _]. now apply H.
Qed.

Lemma wf_merge_pair w : wf_word w = true -> wf_word (merge_pair L R w) = true.
Proof.
  assert (H : forall n w, List.length w <= n -> wf_word w = true ->
                    wf_word (merge_pair L R w) = true).
  { induction n as [|n IH]; intros w' Hn Hw.
    - destruct w'; simpl in Hn; [reflexivity|lia].
    - destruct w' as [|a [|b w']]; auto.
      cbn [merge_pair]. simpl in Hn. simpl in Hw.
      apply andb_true_iff in Hw. destruct Hw as [Ha Hw].
      destruct (String.eqb a L && String.eqb b R).
      + apply andb_true_iff in Hw. destruct Hw as [Hb Hw].
        cbn [wf_word forallb]. rewrite wf_sym_app by assumption.
        apply IH; [lia|assumption].
      + change (wf_sym a && wf_word (merge_pair L R (b :: w')) = true).
        rewrite Ha. apply IH; [simpl; lia|exact Hw]. }
  intros. eapply H; eauto.
Qed.
End Rewrite.

(** [split] undoes [join] on well-formed symbols. *)
Lemma split_ws_token a x :
  no_space a = true -> at_gap x = true ->
  split_ws (a ++ x) =
  match a with EmptyString => split_ws x | _ => a :: split_ws x end.
Proof.
  intros Ha Hx. induction a as [|c a IH]; [reflexivity|].
  simpl in Ha. apply andb_true_iff in Ha. destruct Ha as [Hc Ha].
  apply negb_true_iff in Hc. cbn [append split_ws]. rewrite Hc.
  specialize (IH Ha).
  destruct a as [|d a].
  - cbn [append]. destruct x as [|e x]; [reflexivity|].
    simpl in Hx. rewrite Hx. reflexivity.
  - cbn [append] in *. simpl in Ha. apply andb_true_iff in Ha. destruct Ha as [Hd Ha].
    apply negb_true_iff in Hd. rewrite Hd. rewrite IH. reflexivity.
Qed.

Lemma split_ws_join w : wf_word w = true -> split_ws (join w) = w.
Proof.
  induction w as [|a w IH]; [reflexivity|].
  intros Hw. simpl in Hw. apply andb_true_iff in Hw. destruct Hw as [Ha Hw].
  rewrite join_cons.
  unfold wf_sym in Ha. apply andb_true_iff in Ha. destruct Ha as [Hne Hns].
  rewrite split_ws_token; auto using at_gap_tail_join.
  destruct a as [|c a]; [discriminate|].
  f_equal. destruct w as [|b w]; [reflexivity|].
  cbn [tail_join]. cbn [append split_ws]. rewrite space_is_space. now apply IH.
Qed.

Lemma delim_wf : wf_sym DELIM = true.
Proof. reflexivity. Qed.

(** The string-level rewriting of the source is the symbol-level merge
    followed by the boundary collapse. *)
Lemma rewrite_word_merge L R w :
  wf_sym L = true -> wf_sym R = true -> wf_word w = true ->
  rewrite_word (L, R) w = collapse (merge_pair L R w).
Proof.
  intros HL HR Hw. unfold rewrite_word. cbn [fst snd].
  rewrite pattern_sub_join by assumption.
  rewrite split_ws_join; [reflexivity|]. now apply wf_merge_pair.
Qed.

Close Scope string_scope.

(** * Tuples by index *)

Lemma nth_skipn' {A} (l : list A) i k d : nth k (skipn i l) d = nth (i + k) l d.
Proof.
  revert l. induction i as [|i IH]; intros l; [reflexivity|].
  destruct l; simpl; [now destruct k|]. apply IH.
Qed.

Lemma skipn_nth_cons {A} (l : list A) i d :
  i < List.length l -> skipn i l = nth i l d :: skipn (S i) l.
Proof.
  revert l. induction i as [|i IH]; intros l H.
  - destruct l; simpl in *; [lia|reflexivity].
  - destruct l; simpl in *; [lia|]. apply IH. lia.
Qed.

Lemma index0_none_notin x l : index0 x l = None -> ~ In x l.
Proof.
  induction l as [|y l IH]; simpl; auto.
  destruct (String.eqb y x) eqn:E; [discriminate|].
  destruct (index0 x l); [discriminate|].
  intros _ [H|H]; [|now apply IH].
  subst. rewrite String.eqb_refl in E. discriminate.
Qed.

Lemma index0_some x l k :
  index0 x l = Some k ->
  k < List.length l /\ nth k l EmptyString = x /\ ~ In x (firstn k l).
Proof.
  revert k. induction l as [|y l IH]; simpl; [discriminate|].
  intros k. destruct (String.eqb y x) eqn:E.
  - intros [= <-]. apply String.eqb_eq in E. simpl. repeat split; auto. lia.
  - destruct (index0 x l) as [k'|]; [|discriminate].
    intros [= <-]. destruct (IH k' eq_refl) as [H1 [H2 H3]].
    simpl. repeat split; auto; [lia|].
    intros [H|H]; [|contradiction]. subst. rewrite String.eqb_refl in E. discriminate.
Qed.

(** * The first loop *)

Section DecLoop.
Variables L R : symbol.

(** Without a pending boundary, a stretch without L yields nothing. *)
Lemma dec_events_skip pre : forall prev s,
  ~ In L pre ->
  dec_events L R false prev (pre ++ s) =
  dec_events L R false
    (match pre with [] => prev | _ => Some (last pre EmptyString) end) s.
Proof.
  induction pre as [|a pre IH]; intros prev s Hn; [reflexivity|].
  assert (Ha : String.eqb a L = false).
  { apply String.eqb_neq. intros ->. apply Hn. now left. }
  assert (Hn' : ~ In L pre) by (intros H; apply Hn; now right).
  cbn [app dec_events].
  destruct (pre ++ s) as [|b rest] eqn:E.
  - apply app_eq_nil in E. destruct E as [-> ->]. reflexivity.
  - rewrite Ha. cbn [andb app]. rewrite <- E, IH by assumption.
    destruct pre; reflexivity.
Qed.

Lemma dec_events_none prev s : ~ In L s -> dec_events L R false prev s = [].
Proof.
  intros H. rewrite <- (app_nil_r s). rewrite dec_events_skip by assumption.
  now destruct s.
Qed.

Lemma dec_events_merged b s :
  dec_events L R true (Some b) s =
  (match s with
   | [] => []
   | c :: _ => if starts_pair L R s then [] else keep (b, c)
   end) ++ dec_events L R false (Some b) s.
Proof.
  destruct s as [|c [|d s]]; cbn [dec_events starts_pair keep_prev app].
  - reflexivity.
  - now rewrite app_nil_r.
  - destruct (String.eqb c L && String.eqb d R); reflexivity.
Qed.

Lemma prev_at_S w i : prev_at w (S i) = Some (nth i w EmptyString).
Proof. unfold prev_at. simpl. now rewrite Nat.sub_0_r. Qed.

Lemma firstn_skipn_last (w : word) i k :
  0 < k -> i + k <= List.length w ->
  last (firstn k (skipn i w)) EmptyString = nth (i + k - 1) w EmptyString.
Proof.
  revert i. induction k as [|k IH]; intros i Hk Hlen; [lia|].
  rewrite (skipn_nth_cons w i EmptyString) by lia.
  cbn [firstn]. destruct k as [|k].
  - simpl. f_equal. lia.
  - specialize (IH (S i) ltac:(lia) ltac:(lia)).
    replace (i + S (S k) - 1) with (S i + S k - 1) by lia. rewrite <- IH.
    destruct (firstn (S k) (skipn (S i) w)) eqn:E; [|reflexivity].
    exfalso. assert (H : List.length (firstn (S k) (skipn (S i) w)) = 0) by now rewrite E.
    rewrite length_firstn, length_skipn in H. lia.
Qed.

Lemma dec_events_cons2 merged prev a b rest :
  dec_events L R merged prev (a :: b :: rest) =
  if String.eqb a L && String.eqb b R
  then keep_prev prev a ++ dec_events L R true (Some b) rest
  else (if merged then keep_prev prev a else [])
         ++ dec_events L R false (Some a) (b :: rest).
Proof. reflexivity. Qed.

Lemma prev_at_add w i k :
  0 < k -> prev_at w (i + k) = Some (nth (i + k - 1) w EmptyString).
Proof.
  intros H. unfold prev_at.
  replace (i + k =? 0) with false by (symmetry; apply Nat.eqb_neq; lia). reflexivity.
Qed.

Lemma skipn_nth_cons1 (w : word) i :
  i < List.length w -> skipn i w = nth i w EmptyString :: skipn (i + 1) w.
Proof.
  intros H. rewrite (skipn_nth_cons w i EmptyString) by assumption.
  now replace (i + 1) with (S i) by lia.
Qed.

Lemma dec_loop_events old j freq : forall fuel i st,
  i <= List.length old -> List.length old - i < fuel ->
  dec_loop fuel L R old j freq i st =
  bumps st (dec_events L R false (prev_at old i) (skipn i old)) j (- freq) (-1).
Proof.
  induction fuel as [|fuel IH]; intros i st Hi Hf; [lia|].
  cbn [dec_loop]. unfold index.
  destruct (index0 L (skipn i old)) as [k|] eqn:E; cbn [option_map].
  2:{ rewrite dec_events_none; [reflexivity|]. now apply index0_none_notin. }
  destruct (index0_some _ _ _ E) as [Hk [Hnth Hpre]].
  rewrite length_skipn in Hk. rewrite nth_skipn' in Hnth.
  set (i' := i + k) in *.
  (* the structural reading, moved to position i' *)
  assert (Hs : dec_events L R false (prev_at old i) (skipn i old) =
               dec_events L R false (prev_at old i') (skipn i' old)).
  { rewrite <- (firstn_skipn k (skipn i old)) at 1.
    rewrite dec_events_skip by assumption.
    rewrite skipn_skipn_add. fold i'. f_equal.
    destruct k as [|k].
    - simpl. unfold i'. now rewrite Nat.add_0_r.
    - destruct (firstn (S k) (skipn i old)) eqn:Ef.
      + exfalso. assert (H : List.length (firstn (S k) (skipn i old)) = 0) by now rewrite Ef.
        rewrite length_firstn, length_skipn in H. lia.
      + rewrite <- Ef. rewrite firstn_skipn_last by lia.
        unfold i'. now rewrite prev_at_add by lia. }
  rewrite Hs. clear Hs.
  assert (Hi' : i' < List.length old) by (unfold i'; lia).
  rewrite (skipn_nth_cons1 old i') by lia. rewrite Hnth.
  destruct (i' + 1 <? List.length old) eqn:E1.
  - apply Nat.ltb_lt in E1.
    rewrite (skipn_nth_cons1 old (i' + 1)) by lia.
    rewrite dec_events_cons2, String.eqb_refl. cbn [andb].
    destruct (String.eqb (nth (i' + 1) old EmptyString) R) eqn:E2.
    + (* an occurrence at i' *)
      rewrite IH by lia.
      rewrite prev_at_add by lia. replace (i' + 2 - 1) with (i' + 1) by lia.
      replace (i' + 1 + 1) with (i' + 2) by lia.
      rewrite dec_events_merged, !bumps_app. f_equal.
      apply String.eqb_eq in E2.
      assert (Hprev : (if negb (i' =? 0)
                       then if negb (pair_has_delim (slice2 old (i' - 1)))
                            then bump st (slice2 old (i' - 1)) j (- freq) (-1) else st
                       else st)
                      = bumps st (keep_prev (prev_at old i') L) j (- freq) (-1)).
      { unfold prev_at. destruct (i' =? 0) eqn:E0; [reflexivity|].
        apply Nat.eqb_neq in E0. cbn [negb keep_prev]. unfold keep, slice2.
        replace (i' - 1 + 1) with i' by lia. rewrite Hnth.
        destruct (pair_has_delim (nth (i' - 1) old EmptyString, L)); reflexivity. }
      rewrite Hprev. clear Hprev.
      set (st1 := bumps st (keep_prev (prev_at old i') L) j (- freq) (-1)).
      destruct (i' + 2 <? List.length old) eqn:E3.
      * apply Nat.ltb_lt in E3.
        rewrite (skipn_nth_cons1 old (i' + 2)) by lia.
        replace (i' + 2 + 1) with (i' + 3) by lia.
        unfold slice2. replace (i' + 1 + 1) with (i' + 2) by lia. rewrite E2.
        assert (Hc : negb (String.eqb (nth (i' + 2) old EmptyString) L)
                     || (List.length old <=? i' + 3)
                     || negb (String.eqb (nth (i' + 3) old EmptyString) R)
                     = negb (starts_pair L R (nth (i' + 2) old EmptyString :: skipn (i' + 3) old))).
        { destruct (List.length old <=? i' + 3) eqn:E4.
          - apply Nat.leb_le in E4. rewrite skipn_all2 by lia.
            cbn [starts_pair]. now rewrite orb_true_r.
          - apply Nat.leb_gt in E4.
            rewrite (skipn_nth_cons1 old (i' + 3)) by lia.
            cbn [starts_pair]. rewrite orb_false_r, negb_andb. reflexivity. }
        rewrite Hc.
        destruct (starts_pair L R (nth (i' + 2) old EmptyString :: skipn (i' + 3) old));
          cbn [negb]; [reflexivity|].
        unfold keep.
        destruct (pair_has_delim (R, nth (i' + 2) old EmptyString)); reflexivity.
      * apply Nat.ltb_ge in E3. rewrite skipn_all2 by lia. reflexivity.
    + rewrite IH by lia.
      rewrite prev_at_add by lia. replace (i' + 1 - 1) with i' by lia.
      rewrite Hnth.
      rewrite <- (skipn_nth_cons1 old (i' + 1)) by lia. reflexivity.
  - apply Nat.ltb_ge in E1. cbn [andb].
    rewrite IH by lia.
    rewrite !(skipn_all2 old) by lia. reflexivity.
Qed.
End DecLoop.

(** * The second loop *)

Section IncLoop.
Variable N : symbol.

Lemma inc_events_skip pre : forall prev s,
  ~ In N pre ->
  inc_events N false prev (pre ++ s) =
  inc_events N false
    (match pre with [] => prev | _ => Some (last pre EmptyString) end) s.
Proof.
  induction pre as [|a pre IH]; intros prev s Hn; [reflexivity|].
  assert (Ha : String.eqb a N = false).
  { apply String.eqb_neq. intros ->. apply Hn. now left. }
  assert (Hn' : ~ In N pre) by (intros H; apply Hn; now right).
  cbn [app inc_events]. rewrite Ha. cbn [orb app].
  rewrite IH by assumption. destruct pre; reflexivity.
Qed.

Lemma inc_events_none prev s : ~ In N s -> inc_events N false prev s = [].
Proof.
  intros H. rewrite <- (app_nil_r s). rewrite inc_events_skip by assumption.
  now destruct s.
Qed.

Lemma inc_events_pending s :
  inc_events N true (Some N) s =
  (match s with
   | [] => []
   | b :: _ => if String.eqb b N then [] else keep (N, b)
   end) ++ inc_events N false (Some N) s.
Proof.
  destruct s as [|b s]; [reflexivity|].
  cbn [inc_events keep_prev]. rewrite orb_true_r, orb_false_r.
  destruct (String.eqb b N); reflexivity.
Qed.

Lemma inc_loop_events w j freq : forall fuel i st,
  i <= List.length w -> List.length w - i < fuel ->
  inc_loop fuel N w j freq i st =
  bumps st (inc_events N false (prev_at w i) (skipn i w)) j freq 1.
Proof.
  induction fuel as [|fuel IH]; intros i st Hi Hf; [lia|].
  cbn [inc_loop]. unfold index.
  destruct (index0 N (skipn i w)) as [k|] eqn:E; cbn [option_map].
  2:{ rewrite inc_events_none; [reflexivity|]. now apply index0_none_notin. }
  destruct (index0_some _ _ _ E) as [Hk [Hnth Hpre]].
  rewrite length_skipn in Hk. rewrite nth_skipn' in Hnth.
  set (i' := i + k) in *.
  assert (Hs : inc_events N false (prev_at w i) (skipn i w) =
               inc_events N false (prev_at w i') (skipn i' w)).
  { rewrite <- (firstn_skipn k (skipn i w)) at 1.
    rewrite inc_events_skip by assumption.
    rewrite skipn_skipn_add. fold i'. f_equal.
    destruct k as [|k].
    - simpl. unfold i'. now rewrite Nat.add_0_r.
    - destruct (firstn (S k) (skipn i w)) eqn:Ef.
      + exfalso. assert (H : List.length (firstn (S k) (skipn i w)) = 0) by now rewrite Ef.
        rewrite length_firstn, length_skipn in H. lia.
      + rewrite <- Ef. rewrite firstn_skipn_last by lia.
        unfold i'. now rewrite prev_at_add by lia. }
  rewrite Hs. clear Hs.
  assert (Hi' : i' < List.length w) by (unfold i'; lia).
  rewrite (skipn_nth_cons1 w i') by lia. rewrite Hnth.
  cbn [inc_events]. rewrite String.eqb_refl. cbn [orb].
  rewrite inc_events_pending, !bumps_app.
  rewrite IH by lia. rewrite prev_at_add by lia.
  replace (i' + 1 - 1) with i' by lia. rewrite Hnth. f_equal.
  assert (Hprev : (if negb (i' =? 0)
                   then if negb (pair_has_delim (slice2 w (i' - 1)))
                        then bump st (slice2 w (i' - 1)) j freq 1 else st
                   else st)
                  = bumps st (keep_prev (prev_at w i') N) j freq 1).
  { unfold prev_at. destruct (i' =? 0) eqn:E0; [reflexivity|].
    apply Nat.eqb_neq in E0. cbn [negb keep_prev]. unfold keep, slice2.
    replace (i' - 1 + 1) with i' by lia. rewrite Hnth.
    destruct (pair_has_delim (nth (i' - 1) w EmptyString, N)); reflexivity. }
  rewrite Hprev. clear Hprev.
  set (st1 := bumps st (keep_prev (prev_at w i') N) j freq 1).
  destruct (i' + 1 <? List.length w) eqn:E1.
  - apply Nat.ltb_lt in E1.
    rewrite (skipn_nth_cons1 w (i' + 1)) by lia. cbn [andb].
    unfold slice2. rewrite Hnth.
    destruct (String.eqb (nth (i' + 1) w EmptyString) N); cbn [negb]; [reflexivity|].
    unfold keep. destruct (pair_has_delim (N, nth (i' + 1) w EmptyString)); reflexivity.
  - apply Nat.ltb_ge in E1. rewrite skipn_all2 by lia. reflexivity.
Qed.
End IncLoop.

(** The two loops of the else branch, from their first positions. *)
Lemma else_branch_events L R old w j freq st :
  inc_loop (S (List.length w)) (L ++ R)%string w j freq 0
    (dec_loop (S (List.length old)) L R old j freq 0 st) =
  bumps (bumps st (dec_events L R false None old) j (- freq) (-1))
    (inc_events (L ++ R)%string false None w) j freq 1.
Proof.
  rewrite dec_loop_events by lia. rewrite inc_loop_events by lia. reflexivity.
Qed.

(** * Counting pairs *)

Lemma occ_keep q p : occ q (keep p) = if pair_has_delim p then 0%Z else delta p q 1.
Proof.
  unfold keep. destruct (pair_has_delim p); [reflexivity|].
  rewrite occ_cons, occ_nil. lia.
Qed.

Lemma occ_notin q ps : ~ In q ps -> occ q ps = 0%Z.
Proof.
  induction ps as [|p ps IH]; intros H; [reflexivity|].
  rewrite occ_cons, IH by (intros H'; apply H; now right).
  unfold delta. destruct (pair_eqb p q) eqn:E; [|reflexivity].
  apply pair_eqb_eq in E. subst. exfalso. apply H. now left.
Qed.

Lemma pairs_of_keep a b w : pairs_of (a :: b :: w) = keep (a, b) ++ pairs_of (b :: w).
Proof. apply pairs_of_cons2. Qed.

Lemma pairs_of_with_prev prev a s :
  pairs_of (with_prev prev (a :: s)) = keep_prev prev a ++ pairs_of (a :: s).
Proof.
  destruct prev as [p|]; [|reflexivity].
  cbn [with_prev keep_prev]. rewrite pairs_of_cons2. reflexivity.
Qed.

Lemma pairs_of_single_prev prev : pairs_of (with_prev prev []) = [].
Proof. destruct prev; reflexivity. Qed.

Lemma in_adj p w : In p (adj w) -> In (fst p) w /\ In (snd p) w.
Proof.
  induction w as [|a w IH]; [intros []|].
  destruct w as [|b w]; [intros []|].
  cbn [adj]. intros [<-|H].
  - simpl. auto.
  - destruct (IH H). split; now right.
Qed.

Lemma in_pairs_of p w : In p (pairs_of w) -> In (fst p) w /\ In (snd p) w.
Proof.
  unfold pairs_of. intros H. apply filter_In in H. apply in_adj. tauto.
Qed.

Lemma in_pairs_of_nodelim p w : In p (pairs_of w) -> pair_has_delim p = false.
Proof.
  unfold pairs_of. intros H. apply filter_In in H. destruct H as [_ H].
  now apply negb_true_iff in H.
Qed.

Lemma involves_in N q w :
  involves N q = true -> In (fst q) w /\ In (snd q) w -> In N w.
Proof.
  unfold involves. intros H [H1 H2]. apply orb_true_iff in H.
  destruct H as [H|H]; apply String.eqb_eq in H; now subst.
Qed.

Lemma cnt_fresh N q w : involves N q = true -> ~ In N w -> cnt q w = 0%Z.
Proof.
  intros Hq Hn. unfold cnt. apply occ_notin. intros H.
  apply Hn. eapply involves_in; eauto. now apply in_pairs_of.
Qed.

Lemma in_keep p q : In p (keep q) -> p = q.
Proof. unfold keep. destruct (pair_has_delim q); [intros []|]. intros [H|[]]. auto. Qed.

(** * What the second loop adds *)

Lemma inc_count N q s : forall prev,
  occ q (inc_events N (is_sym N prev) prev s) =
  if involves N q then occ q (pairs_of (with_prev prev s)) else 0%Z.
Proof.
  induction s as [|a s IH]; intros prev.
  - rewrite pairs_of_single_prev. cbn [inc_events]. rewrite occ_nil.
    now destruct (involves N q).
  - cbn [inc_events]. rewrite occ_app.
    pose proof (IH (Some a)) as IH'. cbn [is_sym] in IH'. rewrite IH'. clear IH'.
    rewrite pairs_of_with_prev, occ_app. cbn [with_prev].
    assert (H : occ q (if String.eqb a N || is_sym N prev then keep_prev prev a else [])
                = if involves N q then occ q (keep_prev prev a) else 0%Z).
    { destruct prev as [p|]; cbn [keep_prev is_sym].
      2:{ rewrite occ_nil. destruct (_ || _), (involves N q); reflexivity. }
      rewrite occ_keep. unfold delta, involves.
      destruct (String.eqb a N || String.eqb p N) eqn:E1.
      - rewrite occ_keep. unfold delta.
        destruct (String.eqb (fst q) N || String.eqb (snd q) N) eqn:E2; [reflexivity|].
        destruct (pair_has_delim (p, a)); [reflexivity|].
        destruct (pair_eqb (p, a) q) eqn:E3; [|reflexivity].
        apply pair_eqb_eq in E3. subst q. cbn [fst snd] in E2.
        rewrite orb_comm in E1. congruence.
      - rewrite occ_nil.
        destruct (String.eqb (fst q) N || String.eqb (snd q) N) eqn:E2; [|reflexivity].
        destruct (pair_has_delim (p, a)); [reflexivity|].
        destruct (pair_eqb (p, a) q) eqn:E3; [|reflexivity].
        apply pair_eqb_eq in E3. subst q. cbn [fst snd] in E2.
        rewrite orb_comm in E1. congruence. }
    rewrite H. destruct (involves N q); lia.
Qed.

(** * Merging *)

Section Merge.
Variables L R : symbol.
Let N : symbol := (L ++ R)%string.

Lemma merge_pair_cons2 a b rest :
  merge_pair L R (a :: b :: rest) =
  if String.eqb a L && String.eqb b R then N :: merge_pair L R rest
  else a :: merge_pair L R (b :: rest).
Proof. reflexivity. Qed.

(** Induction along the merge: two symbols at a time at an occurrence. *)
Lemma merge_ind (P : word -> Prop) :
  P [] ->
  (forall a, P [a]) ->
  (forall rest, P rest -> P (L :: R :: rest)) ->
  (forall a b rest, String.eqb a L && String.eqb b R = false ->
                    P (b :: rest) -> P (a :: b :: rest)) ->
  forall w, P w.
Proof.
  intros H0 H1 H2 H3.
  assert (H : forall n w, List.length w <= n -> P w).
  { induction n as [|n IH]; intros w Hn.
    - destruct w; [exact H0|simpl in Hn; lia].
    - destruct w as [|a [|b rest]]; auto.
      simpl in Hn.
      destruct (String.eqb a L && String.eqb b R) eqn:E.
      + apply andb_true_iff in E. destruct E as [E1 E2].
        apply String.eqb_eq in E1, E2. subst. apply H2. apply IH. lia.
      + apply H3; auto. apply IH. simpl. lia. }
  intros w. now apply (H (List.length w)).
Qed.

Lemma merge_hit rest : merge_pair L R (L :: R :: rest) = N :: merge_pair L R rest.
Proof. rewrite merge_pair_cons2, !String.eqb_refl. reflexivity. Qed.

Lemma merge_miss a b rest :
  String.eqb a L && String.eqb b R = false ->
  merge_pair L R (a :: b :: rest) = a :: merge_pair L R (b :: rest).
Proof. intros H. now rewrite merge_pair_cons2, H. Qed.

Lemma dec_hit merged prev rest :
  dec_events L R merged prev (L :: R :: rest) =
  keep_prev prev L ++ dec_events L R true (Some R) rest.
Proof. rewrite dec_events_cons2, !String.eqb_refl. reflexivity. Qed.

Lemma dec_miss merged prev a b rest :
  String.eqb a L && String.eqb b R = false ->
  dec_events L R merged prev (a :: b :: rest) =
  (if merged then keep_prev prev a else []) ++ dec_events L R false (Some a) (b :: rest).
Proof. intros H. now rewrite dec_events_cons2, H. Qed.

(** What the first loop removes, for pairs without the new symbol: the
    context is the symbol before the suffix, in the old word and in the
    new one. *)
Lemma dec_count q :
  involves N q = false -> q <> (L, R) ->
  forall s,
    (forall prev,
       (occ q (pairs_of (with_prev prev (merge_pair L R s)))
        + occ q (dec_events L R false prev s)
        = occ q (pairs_of (with_prev prev s)))%Z) /\
    (occ q (pairs_of (N :: merge_pair L R s))
     + occ q (dec_events L R true (Some R) s)
     = occ q (pairs_of (R :: s)))%Z.
Proof.
  intros Hq Hne.
  assert (HN : forall x, occ q (keep (N, x)) = 0%Z).
  { intros x. apply occ_notin. intros H. apply in_keep in H. subst q.
    unfold involves in Hq. cbn [fst] in Hq. now rewrite String.eqb_refl in Hq. }
  assert (HN' : forall prev, occ q (keep_prev prev N) = 0%Z).
  { intros [p|]; [|reflexivity]. apply occ_notin. intros H. apply in_keep in H. subst q.
    unfold involves in Hq. cbn [fst snd] in Hq.
    rewrite String.eqb_refl, orb_true_r in Hq. discriminate. }
  assert (HLR : occ q (keep (L, R)) = 0%Z).
  { apply occ_notin. intros H. apply in_keep in H. congruence. }
  apply merge_ind.
  - split; [intros prev|].
    + cbn [merge_pair dec_events]. rewrite occ_nil. lia.
    + reflexivity.
  - intros a. split; [intros prev|].
    + cbn [merge_pair dec_events]. rewrite occ_nil. lia.
    + cbn [merge_pair dec_events keep_prev]. rewrite !pairs_of_keep, !occ_app, HN.
      change (pairs_of [a]) with (@nil pair). rewrite occ_nil. lia.
  - intros rest [_ IH]. rewrite merge_hit. split; [intros prev|].
    + rewrite dec_hit, !pairs_of_with_prev, !occ_app, !pairs_of_keep, !occ_app.
      rewrite HN', HLR. fold N in IH. lia.
    + rewrite dec_hit. cbn [keep_prev]. rewrite !occ_app, !pairs_of_keep, !occ_app.
      rewrite HN, HLR. fold N in IH. lia.
  - intros a b rest E [IH _]. rewrite merge_miss by assumption.
    specialize (IH (Some a)). cbn [with_prev] in IH.
    split; [intros prev|].
    + rewrite dec_miss by assumption. cbn [app].
      rewrite !pairs_of_with_prev, !occ_app. lia.
    + rewrite dec_miss by assumption. cbn [keep_prev].
      rewrite occ_app, (pairs_of_keep N a), (pairs_of_keep R a), !occ_app, HN. lia.
Qed.

Lemma in_dec_events p : forall s merged prev,
  In p (dec_events L R merged prev s) ->
  In (fst p) (with_prev prev s) /\ In (snd p) s.
Proof.
  assert (Hk : forall prev a s, In p (keep_prev prev a) ->
                 In (fst p) (with_prev prev (a :: s)) /\ In (snd p) (a :: s)).
  { intros [x|] a s H; [|destruct H]. apply in_keep in H. subst p. simpl. auto. }
  assert (Hw : forall prev a b s, In (fst p) (with_prev (Some a) (b :: s)) ->
                 In (fst p) (with_prev prev (a :: b :: s))).
  { intros [x|] a b s; simpl; tauto. }
  intros s. pattern s. apply merge_ind; clear s.
  - intros merged prev [].
  - intros a merged prev. cbn [dec_events]. destruct merged; [|intros []].
    apply Hk.
  - intros rest IH merged prev. rewrite dec_hit. intros H.
    apply in_app_or in H. destruct H as [H|H]; [now apply Hk|].
    apply IH in H. destruct H as [H1 H2]. split.
    + destruct prev; simpl in *; tauto.
    + simpl. auto.
  - intros a b rest E IH merged prev. rewrite dec_miss by assumption. intros H.
    apply in_app_or in H. destruct H as [H|H].
    + destruct merged; [now apply Hk|destruct H].
    + apply IH in H. destruct H as [H1 H2]. split; [now apply Hw|now right].
Qed.

(** Per-word balance of the else branch. *)
Lemma else_branch_balance q w :
  q <> (L, R) -> ~ In N w ->
  (cnt q (merge_pair L R w)
   = cnt q w - occ q (dec_events L R false None w)
     + occ q (inc_events N false None (merge_pair L R w)))%Z.
Proof.
  intros Hne Hfresh.
  pose proof (inc_count N q (merge_pair L R w) None) as Hinc.
  cbn [is_sym with_prev] in Hinc. rewrite Hinc. unfold cnt.
  destruct (involves N q) eqn:Eq.
  - rewrite (occ_notin q (pairs_of w)).
    2:{ intros H. apply Hfresh. eapply involves_in; eauto. now apply in_pairs_of. }
    rewrite (occ_notin q (dec_events L R false None w)).
    2:{ intros H. apply Hfresh. apply in_dec_events in H. cbn [with_prev] in H.
        eapply involves_in; eauto. }
    lia.
  - destruct (dec_count q Eq Hne w) as [H _]. specialize (H None).
    cbn [with_prev] in H. lia.
Qed.

(** The head of a merged word. *)
Lemma merge_head w :
  match merge_pair L R w with
  | [] => w = []
  | h :: _ => (h = N /\ starts_pair L R w = true)
              \/ (exists tl, w = h :: tl /\ starts_pair L R w = false)
  end.
Proof.
  destruct w as [|a [|b rest]]; [reflexivity| |].
  - right. exists []. auto.
  - rewrite merge_pair_cons2. cbn [starts_pair].
    destruct (String.eqb a L && String.eqb b R); [left|right]; eauto.
Qed.

Lemma merge_nil w : merge_pair L R w = [] -> w = [].
Proof. pose proof (merge_head w) as H. intros E. now rewrite E in H. Qed.

Hypothesis N_not_L : N <> L.
Hypothesis N_not_R : N <> R.

(** After the merge the pair no longer occurs. *)
Lemma merge_no_pair w : ~ In (L, R) (adj (merge_pair L R w)).
Proof.
  pattern w. apply merge_ind; clear w.
  - intros [].
  - intros a [].
  - intros rest IH. rewrite merge_hit.
    destruct (merge_pair L R rest) as [|h t] eqn:E; [intros []|].
    cbn [adj]. intros [H|H]; [|now apply IH].
    inversion H. now apply N_not_L.
  - intros a b rest E IH. rewrite merge_miss by assumption.
    pose proof (merge_head (b :: rest)) as Hh.
    destruct (merge_pair L R (b :: rest)) as [|h t] eqn:Em; [intros []|].
    cbn [adj]. intros [H|H]; [|now apply IH].
    inversion H. subst a h.
    destruct Hh as [[Hh _]|[tl [Hh _]]].
    + now apply N_not_R.
    + inversion Hh. subst b. rewrite !String.eqb_refl in E. discriminate.
Qed.

Lemma cnt_merge_pair w : cnt (L, R) (merge_pair L R w) = 0%Z.
Proof.
  unfold cnt. apply occ_notin. intros H. apply (merge_no_pair w).
  unfold pairs_of in H. apply filter_In in H. tauto.
Qed.
End Merge.

(** * Spans *)

Lemma split_on_cons x w :
  split_on DELIM (x :: w) =
  if is_delim x then [] :: split_on DELIM w
  else match split_on DELIM w with
       | s :: ss => (x :: s) :: ss
       | [] => [[x]]
       end.
Proof. reflexivity. Qed.

Lemma split_on_cons_plain x w :
  is_delim x = false ->
  exists s ss, split_on DELIM w = s :: ss /\ split_on DELIM (x :: w) = (x :: s) :: ss.
Proof.
  intros H. rewrite split_on_cons, H.
  destruct (split_on DELIM w) as [|s ss] eqn:E.
  - exfalso. eapply split_on_nonempty; eauto.
  - eauto.
Qed.

Lemma split_on_total_len w : total_len (split_on DELIM w) = S (List.length w).
Proof.
  induction w as [|x w IH]; [reflexivity|].
  rewrite split_on_cons. destruct (is_delim x) eqn:E.
  - cbn [total_len List.length]. lia.
  - destruct (split_on DELIM w) as [|s ss]; simpl in *; lia.
Qed.

Lemma split_on_count w :
  List.length (split_on DELIM w) = S (count_occ string_dec w DELIM).
Proof.
  induction w as [|x w IH]; [reflexivity|].
  rewrite split_on_cons. cbn [count_occ]. unfold is_delim.
  destruct (string_dec x DELIM) as [->|Hne].
  - rewrite String.eqb_refl. simpl. lia.
  - apply String.eqb_neq in Hne. rewrite Hne.
    destruct (split_on DELIM w) as [|s ss]; simpl in *; lia.
Qed.

Lemma length_adj s : nonempty s = true -> S (List.length (adj s)) = List.length s.
Proof.
  induction s as [|a s IH]; [discriminate|]. intros _.
  destruct s as [|b s]; [reflexivity|].
  specialize (IH eq_refl).
  change (adj (a :: b :: s)) with ((a, b) :: adj (b :: s)).
  cbn [List.length] in *. lia.
Qed.

Lemma total_len_pairs ss :
  forallb nonempty ss = true ->
  total_len ss = List.length (flat_map adj ss) + 2 * List.length ss.
Proof.
  induction ss as [|s ss IH]; [reflexivity|].
  cbn [forallb]. intros H. apply andb_true_iff in H. destruct H as [Hs Hss].
  cbn [total_len flat_map List.length]. rewrite length_app, IH by assumption.
  rewrite <- (length_adj s Hs). lia.
Qed.

(** With no empty span, the expression tested by the collapse is the
    number of counted pairs. *)
Lemma spans_ok_pairs w :
  spans_ok w = true ->
  (Z.of_nat (List.length w) - 2 * Z.of_nat (count_occ string_dec w DELIM) - 1
   = Z.of_nat (List.length (pairs_of w)))%Z.
Proof.
  unfold spans_ok. rewrite split_tuple_eq. intros H.
  pose proof (total_len_pairs _ H) as H1.
  rewrite split_on_total_len, split_on_count, flat_adj_split_on in H1. lia.
Qed.

Lemma has_delim_count w : has_delim w = false <-> count_occ string_dec w DELIM = 0.
Proof.
  unfold has_delim. induction w as [|x w IH]; [simpl; tauto|].
  cbn [existsb count_occ]. destruct (string_dec x DELIM) as [->|Hne].
  - rewrite String.eqb_refl. cbn [orb]. split; intros H; [discriminate|lia].
  - rewrite (String.eqb_sym DELIM x). apply String.eqb_neq in Hne. rewrite Hne. exact IH.
Qed.

Lemma has_delim_in w : has_delim w = true <-> In DELIM w.
Proof.
  unfold has_delim. rewrite existsb_exists. split.
  - intros [x [H1 H2]]. apply String.eqb_eq in H2. now subst.
  - intros H. exists DELIM. split; [assumption|apply String.eqb_refl].
Qed.

Lemma pairs_of_no_delim w : has_delim w = false -> pairs_of w = adj w.
Proof.
  intros H. unfold pairs_of. apply forallb_filter_id. apply forallb_forall.
  intros p Hp. apply in_adj in Hp. destruct Hp as [H1 H2].
  unfold pair_has_delim. apply negb_true_iff. apply orb_false_iff.
  split; apply String.eqb_neq; intros E; rewrite <- E in *;
    (assert (Ht : has_delim w = true) by now apply has_delim_in); congruence.
Qed.

Lemma filter_no_delim w :
  has_delim (filter (fun t => negb (String.eqb t DELIM)) w) = false.
Proof.
  destruct (has_delim (filter _ w)) eqn:E; [|reflexivity].
  apply has_delim_in in E. apply filter_In in E. destruct E as [_ E].
  now rewrite String.eqb_refl in E.
Qed.

Lemma collapse_cases m :
  (collapse m = m) \/
  ((Z.of_nat (List.length m) - 2 * Z.of_nat (count_occ string_dec m DELIM) - 1 = 0)%Z
   /\ collapse m = filter (fun t => negb (String.eqb t DELIM)) m).
Proof.
  unfold collapse.
  destruct (Z.of_nat (List.length m) - 2 * Z.of_nat (count_occ string_dec m DELIM) - 1 =? 0)%Z eqn:E.
  - right. apply Z.eqb_eq in E. auto.
  - now left.
Qed.

Lemma filter_length_count m :
  List.length (filter (fun t => negb (String.eqb t DELIM)) m)
  + count_occ string_dec m DELIM = List.length m.
Proof.
  induction m as [|x m IH]; [reflexivity|].
  cbn [filter count_occ]. destruct (string_dec x DELIM) as [->|Hne].
  - rewrite String.eqb_refl. simpl. lia.
  - apply String.eqb_neq in Hne. rewrite Hne. simpl. lia.
Qed.

(** * Merging and spans *)

Section MergeSpans.
Variables L R : symbol.
Let N : symbol := (L ++ R)%string.
Hypothesis L_plain : is_delim L = false.
Hypothesis R_plain : is_delim R = false.
Hypothesis N_plain : is_delim N = false.

Lemma split_on_merge w :
  split_on DELIM (merge_pair L R w) = map (merge_pair L R) (split_on DELIM w).
Proof.
  pattern w. apply (merge_ind L R); clear w.
  - reflexivity.
  - intros a. cbn [merge_pair]. rewrite split_on_cons.
    destruct (is_delim a); reflexivity.
  - intros rest IH. rewrite merge_hit. fold N.
    destruct (split_on_cons_plain N (merge_pair L R rest) N_plain) as [s [ss [E1 E2]]].
    rewrite E2.
    destruct (split_on_cons_plain R rest R_plain) as [s0 [ss0 [E3 E4]]].
    destruct (split_on_cons_plain L (R :: rest) L_plain) as [s1 [ss1 [E5 E6]]].
    rewrite E6. rewrite E4 in E5. injection E5 as <- <-.
    rewrite IH, E3 in E1. cbn [map] in E1. injection E1 as <- <-.
    cbn [map]. now rewrite merge_hit.
  - intros a b rest E IH. rewrite merge_miss by assumption.
    rewrite (split_on_cons a (b :: rest)), (split_on_cons a (merge_pair L R (b :: rest))).
    rewrite IH. destruct (is_delim a); [reflexivity|].
    destruct (split_on DELIM (b :: rest)) as [|s0 ss0] eqn:E0.
    + exfalso. eapply split_on_nonempty; eauto.
    + cbn [map]. f_equal.
      rewrite split_on_cons in E0. destruct (is_delim b) eqn:Eb.
      * injection E0 as <- _. reflexivity.
      * destruct (split_on DELIM rest) as [|s1 ss1]; injection E0 as <- _;
          now rewrite merge_miss.
Qed.

Lemma nonempty_merge s : nonempty (merge_pair L R s) = nonempty s.
Proof.
  destruct s as [|a [|b s]]; try reflexivity.
  rewrite merge_pair_cons2. destruct (_ && _); reflexivity.
Qed.

Lemma spans_ok_merge w : spans_ok w = true -> spans_ok (merge_pair L R w) = true.
Proof.
  unfold spans_ok. rewrite !split_tuple_eq, split_on_merge.
  induction (split_on DELIM w) as [|s ss IH]; [reflexivity|].
  cbn [map forallb]. rewrite nonempty_merge. intros H.
  apply andb_true_iff in H. destruct H as [-> H]. now apply IH.
Qed.

Lemma in_merge x w : In x (merge_pair L R w) -> x = N \/ In x w.
Proof.
  pattern w. apply (merge_ind L R); clear w.
  - intros [].
  - intros a H. now right.
  - intros rest IH. rewrite merge_hit. intros [H|H]; [now left|].
    destruct (IH H); [now left|]. right. simpl. auto.
  - intros a b rest E IH. rewrite merge_miss by assumption. intros [H|H].
    + right. now left.
    + destruct (IH H); [now left|]. right. now right.
Qed.

Lemma delim_in_merge w : In DELIM w -> In DELIM (merge_pair L R w).
Proof.
  assert (HL : L <> DELIM) by now apply String.eqb_neq.
  assert (HR : R <> DELIM) by now apply String.eqb_neq.
  pattern w. apply (merge_ind L R); clear w.
  - intros [].
  - intros a H. exact H.
  - intros rest IH. rewrite merge_hit. intros [H|[H|H]]; try congruence.
    right. now apply IH.
  - intros a b rest E IH. rewrite merge_miss by assumption. intros [H|H].
    + now left.
    + right. now apply IH.
Qed.

Lemma has_delim_merge w : has_delim (merge_pair L R w) = has_delim w.
Proof.
  destruct (has_delim w) eqn:E.
  - apply has_delim_in. apply delim_in_merge. now apply has_delim_in.
  - destruct (has_delim (merge_pair L R w)) eqn:E'; [|reflexivity].
    apply has_delim_in in E'. apply in_merge in E'. destruct E' as [E'|E'].
    + unfold is_delim in N_plain. rewrite <- E', String.eqb_refl in N_plain. discriminate.
    + apply has_delim_in in E'. congruence.
Qed.

(** When nothing is left to count after the merge, the old word only
    held occurrences of the merged pair. *)
Lemma pairs_gone w :
  pairs_of (merge_pair L R w) = [] -> forall p, In p (pairs_of w) -> p = (L, R).
Proof.
  assert (Hk : forall a b, keep (a, b) = [] -> is_delim a = false -> is_delim b = true).
  { intros a b. unfold keep, pair_has_delim, is_delim. cbn [fst snd].
    rewrite !(String.eqb_sym DELIM).
    destruct (String.eqb a DELIM), (String.eqb b DELIM); simpl; congruence. }
  assert (Hd : forall a b, is_delim a = true \/ is_delim b = true -> keep (a, b) = []).
  { intros a b. unfold keep, pair_has_delim, is_delim. cbn [fst snd].
    rewrite !(String.eqb_sym DELIM).
    destruct (String.eqb a DELIM), (String.eqb b DELIM); simpl; intuition congruence. }
  pattern w. apply (merge_ind L R); clear w.
  - intros _ p [].
  - intros a _ p [].
  - intros rest IH. rewrite merge_hit. fold N. intros H p.
    rewrite pairs_of_keep. intros Hp. apply in_app_or in Hp.
    destruct Hp as [Hp|Hp]; [now apply in_keep in Hp|].
    pose proof (merge_head L R rest) as Hh.
    destruct (merge_pair L R rest) as [|h t] eqn:Em.
    + subst rest. destruct Hp.
    + rewrite pairs_of_keep in H. apply app_eq_nil in H. destruct H as [H1 H2].
      apply Hk in H1; [|exact N_plain].
      destruct Hh as [[Hh _]|[tl [Hh _]]].
      * fold N in Hh. subst h. congruence.
      * subst rest. rewrite pairs_of_keep in Hp.
        rewrite (Hd R h) in Hp by now right. now apply IH.
  - intros a b rest E IH. rewrite merge_miss by assumption. intros H p.
    pose proof (merge_head L R (b :: rest)) as Hh.
    destruct (merge_pair L R (b :: rest)) as [|h t] eqn:Em; [discriminate|].
    rewrite pairs_of_keep in H. apply app_eq_nil in H. destruct H as [H1 H2].
    rewrite pairs_of_keep. intros Hp. apply in_app_or in Hp.
    destruct Hp as [Hp|Hp]; [|now apply IH].
    exfalso.
    assert (Hab : keep (a, b) = []).
    { destruct (is_delim a) eqn:Ea; [apply Hd; now left|].
      apply Hk in H1; [|assumption].
      destruct Hh as [[Hh _]|[tl [Hh _]]].
      - fold N in Hh. subst h. congruence.
      - injection Hh as <- _. apply Hd. now right. }
    rewrite Hab in Hp. destruct Hp.
Qed.
End MergeSpans.

(** * One changed word *)

Lemma append_length_neq_l (a b : string) : b <> EmptyString -> (a ++ b)%string <> a.
Proof.
  intros Hb E. apply (f_equal String.length) in E. rewrite length_app' in E.
  destruct b; [congruence|simpl in E; lia].
Qed.

Lemma append_length_neq_r (a b : string) : a <> EmptyString -> (a ++ b)%string <> b.
Proof.
  intros Ha E. apply (f_equal String.length) in E. rewrite length_app' in E.
  destruct a; [congruence|simpl in E; lia].
Qed.

Lemma wf_sym_nonempty s : wf_sym s = true -> s <> EmptyString.
Proof.
  unfold wf_sym. intros H. apply andb_true_iff in H. destruct H as [H _].
  apply negb_true_iff in H. now apply String.eqb_neq.
Qed.

Lemma filter_id_no_delim m :
  has_delim m = false -> filter (fun t => negb (String.eqb t DELIM)) m = m.
Proof.
  intros H. apply forallb_filter_id. apply forallb_forall. intros x Hx.
  apply negb_true_iff. apply String.eqb_neq. intros ->.
  apply has_delim_in in Hx. congruence.
Qed.

Section OneWord.
Variables L R : symbol.
Let N : symbol := (L ++ R)%string.
Hypothesis wfL : wf_sym L = true.
Hypothesis wfR : wf_sym R = true.
Hypothesis L_plain : is_delim L = false.
Hypothesis R_plain : is_delim R = false.
Hypothesis N_plain : is_delim N = false.

Lemma N_not_L : N <> L.
Proof. apply append_length_neq_l. now apply wf_sym_nonempty. Qed.

Lemma N_not_R : N <> R.
Proof. apply append_length_neq_r. now apply wf_sym_nonempty. Qed.

Lemma pair_not_involved : involves N (L, R) = false.
Proof.
  unfold involves. cbn [fst snd]. apply orb_false_iff. split; apply String.eqb_neq.
  - intros E. now apply N_not_L.
  - intros E. now apply N_not_R.
Qed.

(** The two branches of [update_word], told apart by the collapse. *)
Lemma branch_cases w :
  let m := merge_pair L R w in
  (has_delim w && negb (has_delim (collapse m)) = false /\ collapse m = m)
  \/ (has_delim w && negb (has_delim (collapse m)) = true
      /\ (Z.of_nat (List.length m) - 2 * Z.of_nat (count_occ string_dec m DELIM) - 1 = 0)%Z
      /\ collapse m = filter (fun t => negb (String.eqb t DELIM)) m).
Proof.
  intros m. pose proof (has_delim_merge L R L_plain R_plain N_plain w) as Hd. fold m in Hd.
  destruct (collapse_cases m) as [E|[Ec E]].
  - left. rewrite E, Hd. split; [|reflexivity]. now destruct (has_delim w).
  - rewrite E, filter_no_delim. cbn [negb]. rewrite andb_true_r.
    destruct (has_delim w) eqn:Ew.
    + right. auto.
    + left. split; [reflexivity|]. rewrite <- E. rewrite E.
      apply filter_id_no_delim. congruence.
Qed.

Lemma update_word_spec j w f st :
  spans_ok w = true -> ~ In N w ->
  let w' := collapse (merge_pair L R w) in
  exists st',
    update_word L R (j, w', w, f) st = Ok st' /\
    (forall q, q <> (L, R) ->
       stat_of (fst st') q = (stat_of (fst st) q + f * (cnt q w' - cnt q w))%Z) /\
    (forall q k, q <> (L, R) ->
       idx_of (snd st') q k =
       (idx_of (snd st) q k + if Nat.eqb j k then cnt q w' - cnt q w else 0)%Z) /\
    (cnt (L, R) w' = 0%Z ->
     forall k, (idx_of (snd st') (L, R) k <= idx_of (snd st) (L, R) k)%Z).
Proof.
  intros Hok Hfresh w'. unfold update_word.
  destruct (branch_cases w) as [[Eb Ec]|[Eb [Econd Ec]]]; fold w' in Eb, Ec; rewrite Eb.
  - (* the else branch: the new word is the merged word *)
    rewrite else_branch_events. fold N. eexists. split; [reflexivity|].
    rewrite Ec.
    split; [|split].
    + intros q Hq. rewrite !stat_of_bumps.
      rewrite (else_branch_balance L R q w Hq Hfresh). fold N. lia.
    + intros q k Hq. rewrite !idx_of_bumps.
      rewrite (else_branch_balance L R q w Hq Hfresh). fold N.
      destruct (Nat.eqb j k); lia.
    + intros _ k. rewrite !idx_of_bumps.
      pose proof (inc_count N (L, R) (merge_pair L R w) None) as Hi.
      cbn [is_sym with_prev] in Hi. rewrite pair_not_involved in Hi. rewrite Hi.
      pose proof (occ_nonneg (L, R) (dec_events L R false None w)).
      destruct (Nat.eqb j k); lia.
  - (* the collapse branch *)
    set (m := merge_pair L R w) in *.
    assert (Hm : spans_ok m = true) by now apply spans_ok_merge.
    assert (Hp : pairs_of m = []).
    { pose proof (spans_ok_pairs m Hm) as H. rewrite Econd in H.
      destruct (pairs_of m); [reflexivity|simpl in H; lia]. }
    assert (Hold : forall q, q <> (L, R) -> cnt q w = 0%Z).
    { intros q Hq. unfold cnt. apply occ_notin. intros H.
      apply Hq. eapply (pairs_gone L R); eauto. }
    assert (Hnd : has_delim w' = false) by (rewrite Ec; apply filter_no_delim).
    assert (Hlen : 0 < List.length w').
    { rewrite Ec. pose proof (filter_length_count m). lia. }
    destruct w' as [|t rest] eqn:Ew; [simpl in Hlen; lia|].
    rewrite count_run_bumps. eexists. split; [reflexivity|].
    unfold cnt. rewrite (pairs_of_no_delim _ Hnd).
    split; [|split].
    + intros q Hq. rewrite stat_of_bumps. pose proof (Hold q Hq) as H0.
      unfold cnt in H0. lia.
    + intros q k Hq. rewrite idx_of_bumps. pose proof (Hold q Hq) as H0.
      unfold cnt in H0. destruct (Nat.eqb j k); lia.
    + intros H0 k. rewrite idx_of_bumps. destruct (Nat.eqb j k); lia.
Qed.
End OneWord.

(** * Lists updated by index *)

Lemma length_list_set {A} (l : list A) j a : List.length (list_set l j a) = List.length l.
Proof.
  revert j. induction l as [|x l IH]; intros j; [now destruct j|].
  destruct j; simpl; auto.
Qed.

Lemma nth_error_list_set {A} (l : list A) j a k :
  nth_error (list_set l j a) k =
  if Nat.eqb j k then (if j <? List.length l then Some a else None) else nth_error l k.
Proof.
  revert j k. induction l as [|x l IH]; intros j k.
  - simpl. destruct (Nat.eqb j k); destruct k; reflexivity.
  - destruct j, k; simpl; auto.
Qed.

Lemma true_freq_list_set v j w f w' q :
  nth_error v j = Some (w, f) ->
  true_freq (list_set v j (w', f)) q = (true_freq v q + f * (cnt q w' - cnt q w))%Z.
Proof.
  revert j. induction v as [|[w0 f0] v IH]; intros j; [destruct j; discriminate|].
  destruct j; simpl.
  - intros [= -> ->]. lia.
  - intros H. rewrite (IH _ H). lia.
Qed.

Lemma word_at_list_set v j e k :
  j < List.length v ->
  word_at (list_set v j e) k = if Nat.eqb j k then fst e else word_at v k.
Proof.
  intros H. unfold word_at. rewrite nth_error_list_set.
  destruct (Nat.eqb j k); [|reflexivity].
  apply Nat.ltb_lt in H. rewrite H. now destruct e.
Qed.

Lemma get_in_nodup {V} (d : list (nat * V)) k x :
  NoDup (map fst d) -> In (k, x) d -> Dict.get Nat.eqb d k = Some x.
Proof.
  induction d as [|[k' x'] d IH]; simpl; [intros _ []|].
  intros Hn [H|H]; inversion Hn; subst.
  - inversion H; subst. now rewrite Nat.eqb_refl.
  - destruct (Nat.eqb k' k) eqn:E; [|auto].
    apply Nat.eqb_eq in E. subst. exfalso. apply H2. apply in_map_iff.
    exists (k, x). auto.
Qed.

Lemma count_of_cons j c items k :
  count_of ((j, c) :: items) k = if Nat.eqb j k then c else count_of items k.
Proof. unfold count_of. simpl. destruct (Nat.eqb j k); reflexivity. Qed.

Lemma count_of_notin items k : ~ In k (map fst items) -> count_of items k = 0%Z.
Proof.
  intros H. unfold count_of.
  apply (get_none_notin Nat.eqb nat_eqb_eq) in H. now rewrite H.
Qed.

Lemma count_of_in items k : (1 <= count_of items k)%Z -> In k (map fst items).
Proof.
  intros H. destruct (in_dec Nat.eq_dec k (map fst items)) as [Hin|Hn]; [exact Hin|].
  rewrite (count_of_notin _ _ Hn) in H. lia.
Qed.

Lemma count_of_tail j c items k :
  ~ In j (map fst items) -> (1 <= count_of items k)%Z ->
  count_of ((j, c) :: items) k = count_of items k.
Proof.
  intros Hn Hk. rewrite count_of_cons. destruct (Nat.eqb j k) eqn:E; [|reflexivity].
  apply Nat.eqb_eq in E. subst k. exfalso. apply Hn. now apply count_of_in.
Qed.

(** * replace_pair *)

Section Replace.
Variable pr : pair.

Lemma replace_loop_spec items : forall v chs,
  NoDup (map fst items) ->
  (forall j c, In (j, c) items -> (1 <= c)%Z -> j < List.length v) ->
  exists v' new,
    replace_loop pr items v chs = Ok (v', chs ++ new) /\
    List.length v' = List.length v /\
    (forall k, nth_error v' k =
       match nth_error v k with
       | Some (w, f) =>
           Some (if (1 <=? count_of items k)%Z then rewrite_word pr w else w, f)
       | None => None
       end) /\
    Forall (recorded pr v items) new /\
    (forall q, true_freq v' q = (true_freq v q + delta_sum q new)%Z) /\
    (forall q k, cnt q (word_at v' k) = (cnt q (word_at v k) + delta_idx q k new)%Z).
Proof.
  induction items as [|[j c] items IH]; intros v chs Hnd Hrange.
  - exists v, []. cbn [replace_loop]. rewrite app_nil_r.
    repeat split; auto.
    + intros k. destruct (nth_error v k) as [[w f]|]; reflexivity.
    + intros q. simpl. lia.
    + intros q k. simpl. lia.
  - cbn [map fst] in Hnd. inversion Hnd as [|? ? Hnin Hnd']; subst.
    assert (Hrange' : forall v1 : vocabulary, List.length v1 = List.length v ->
              forall j' c', In (j', c') items -> (1 <= c')%Z -> j' < List.length v1).
    { intros v1 Hl j' c' Hin Hc. rewrite Hl. eapply Hrange; eauto. now right. }
    cbn [replace_loop]. destruct (c <? 1)%Z eqn:Ec.
    + apply Z.ltb_lt in Ec.
      destruct (IH v chs Hnd' (Hrange' v eq_refl)) as [v' [new [H1 [H2 [H3 [H4 [H5 H6]]]]]]].
      exists v', new. repeat split; auto.
      * intros k. rewrite H3, count_of_cons.
        destruct (nth_error v k) as [[w f]|]; [|reflexivity].
        destruct (Nat.eqb j k) eqn:Ejk; [|reflexivity].
        apply Nat.eqb_eq in Ejk. subst k. rewrite count_of_notin by assumption.
        replace (1 <=? c)%Z with false by (symmetry; apply Z.leb_gt; lia). reflexivity.
      * eapply Forall_impl; [|exact H4]. intros [[[j' w'] w] f] [Ha [Hb Hc]].
        cbn [recorded]. split; [exact Ha|]. split; [exact Hb|].
        now rewrite count_of_tail.
    + apply Z.ltb_ge in Ec.
      assert (Hj : j < List.length v) by (eapply Hrange; [now left|lia]).
      destruct (nth_error v j) as [[w f]|] eqn:Ej.
      2:{ apply nth_error_None in Ej. lia. }
      set (w' := rewrite_word pr w).
      set (v1 := list_set v j (w', f)).
      assert (Hl1 : List.length v1 = List.length v) by apply length_list_set.
      destruct (IH v1 (chs ++ [(j, w', w, f)]) Hnd' (Hrange' v1 Hl1))
        as [v' [new [H1 [H2 [H3 [H4 [H5 H6]]]]]]].
      exists v', ((j, w', w, f) :: new). repeat split.
      * rewrite H1, <- app_assoc. reflexivity.
      * lia.
      * intros k. rewrite H3, count_of_cons. unfold v1.
        rewrite nth_error_list_set.
        destruct (Nat.eqb j k) eqn:Ejk.
        -- apply Nat.eqb_eq in Ejk. subst k. rewrite Ej.
           apply Nat.ltb_lt in Hj. rewrite Hj.
           rewrite count_of_notin by assumption.
           replace (1 <=? c)%Z with true by (symmetry; apply Z.leb_le; lia).
           reflexivity.
        -- reflexivity.
      * constructor.
        -- cbn [recorded]. split; [exact Ej|]. split; [reflexivity|].
           rewrite count_of_cons, Nat.eqb_refl. exact Ec.
        -- eapply Forall_impl; [|exact H4]. intros [[[j' w1'] w1] f1] [Ha [Hb Hc]].
           cbn [recorded]. split; [|split; [exact Hb|now rewrite count_of_tail]].
           unfold v1 in Ha. rewrite nth_error_list_set in Ha.
           destruct (Nat.eqb j j') eqn:Ejj; [|assumption].
           apply Nat.eqb_eq in Ejj. subst j'. exfalso. apply Hnin.
           now apply count_of_in.
      * intros q. rewrite H5. unfold v1.
        rewrite (true_freq_list_set _ _ _ _ _ _ Ej). cbn [delta_sum]. lia.
      * intros q k. rewrite H6. unfold v1.
        rewrite word_at_list_set by assumption. cbn [delta_idx fst].
        destruct (Nat.eqb j k) eqn:Ejk; [|lia].
        apply Nat.eqb_eq in Ejk. subst k. unfold word_at. rewrite Ej. lia.
Qed.
End Replace.

(** * update_pair_statistics over the changes *)

Lemma inner_of_idx_add ix p j x q :
  inner_of (idx_add ix p j x) q =
  if pair_eqb p q
  then Dict.set Nat.eqb (inner_of ix p) j (count_of (inner_of ix p) j + x)%Z
  else inner_of ix q.
Proof. unfold idx_add. apply inner_of_set. Qed.

Lemma tidy_bumps ps : forall st j df dc, tidy (snd st) -> tidy (snd (bumps st ps j df dc)).
Proof.
  induction ps as [|p ps IH]; intros st j df dc H; [exact H|].
  unfold bumps. cbn [fold_left]. apply IH. cbn [bump snd].
  intros q. rewrite inner_of_idx_add. destruct (pair_eqb p q) eqn:E.
  - apply (nodup_set Nat.eqb nat_eqb_eq). apply H.
  - apply H.
Qed.

Lemma update_word_tidy L R c st st' :
  update_word L R c st = Ok st' -> tidy (snd st) -> tidy (snd st').
Proof.
  destruct c as [[[j w'] w] f]. unfold update_word.
  destruct (has_delim w && negb (has_delim w')).
  - destruct w' as [|t rest]; [discriminate|].
    intros [= <-]. rewrite count_run_bumps. apply tidy_bumps.
  - cbv zeta. rewrite else_branch_events. intros [= <-] H. now do 2 apply tidy_bumps.
Qed.

Section Update.
Variables L R : symbol.
Let N : symbol := (L ++ R)%string.
Hypothesis wfL : wf_sym L = true.
Hypothesis wfR : wf_sym R = true.
Hypothesis L_plain : is_delim L = false.
Hypothesis R_plain : is_delim R = false.
Hypothesis N_plain : is_delim N = false.

Lemma update_changes_spec cs : forall st,
  Forall (sound_change L R) cs -> tidy (snd st) ->
  exists st',
    update_changes L R cs st = Ok st' /\ tidy (snd st') /\
    (forall q, q <> (L, R) ->
       stat_of (fst st') q = (stat_of (fst st) q + delta_sum q cs)%Z) /\
    (forall q k, q <> (L, R) ->
       idx_of (snd st') q k = (idx_of (snd st) q k + delta_idx q k cs)%Z) /\
    (forall k, (idx_of (snd st') (L, R) k <= idx_of (snd st) (L, R) k)%Z).
Proof.
  induction cs as [|[[[j w'] w] f] cs IH]; intros st Hs Ht.
  - exists st. cbn [update_changes delta_sum delta_idx]. repeat split; auto; intros; lia.
  - inversion Hs as [|? ? Hc Hs']; subst. destruct Hc as [Hw' [Hok [Hfresh Hpr]]].
    destruct (update_word_spec L R wfL wfR L_plain R_plain N_plain j w f st Hok Hfresh)
      as [st1 [E1 [A1 [A2 A3]]]].
    rewrite <- Hw' in E1, A1, A2, A3.
    assert (Ht1 : tidy (snd st1)) by (eapply update_word_tidy; eauto).
    destruct (IH st1 Hs' Ht1) as [st' [E2 [T2 [B1 [B2 B3]]]]].
    exists st'. cbn [update_changes bind]. rewrite E1. cbn [bind]. split; [exact E2|].
    split; [exact T2|]. repeat split.
    + intros q Hq. rewrite (B1 q Hq), (A1 q Hq). cbn [delta_sum]. lia.
    + intros q k Hq. rewrite (B2 q k Hq), (A2 q k Hq). cbn [delta_idx]. lia.
    + intros k. specialize (B3 k). specialize (A3 Hpr k). lia.
Qed.
End Update.

(** * One merge step *)

Lemma cnt_nonneg q w : (0 <= cnt q w)%Z.
Proof. apply occ_nonneg. Qed.

Lemma word_at_out v j : List.length v <= j -> word_at v j = [].
Proof.
  intros H. unfold word_at. apply nth_error_None in H. now rewrite H.
Qed.

Lemma cnt_nil q : cnt q [] = 0%Z.
Proof. reflexivity. Qed.

Lemma inner_of_touch ix p q : inner_of (touch ix p) q = inner_of ix q.
Proof.
  unfold touch, Dict.mem. destruct (Dict.get pair_eqb ix p) eqn:E; [reflexivity|].
  rewrite inner_of_set. destruct (pair_eqb p q) eqn:Eq; [|reflexivity].
  apply pair_eqb_eq in Eq. subst q. unfold inner_of. now rewrite E.
Qed.

Lemma proper_step_inv pr v :
  proper_step pr v = true ->
  wf_sym (fst pr) = true /\ wf_sym (snd pr) = true /\
  is_delim (fst pr) = false /\ is_delim (snd pr) = false /\
  is_delim (fst pr ++ snd pr)%string = false /\
  forall w f, In (w, f) v ->
    wf_word w = true /\ spans_ok w = true /\ ~ In (fst pr ++ snd pr)%string w /\
    ((0 < cnt pr w)%Z -> cnt pr (rewrite_word pr w) = 0%Z).
Proof.
  unfold proper_step. rewrite !andb_true_iff, !negb_true_iff, forallb_forall.
  intros [[[[[H1 H2] H3] H4] H5] H6].
  split; [exact H1|]. split; [exact H2|]. split; [exact H3|]. split; [exact H4|].
  split; [exact H5|]. intros w f H.
  specialize (H6 (w, f) H). unfold proper_word in H6. cbn [fst] in H6.
  rewrite !andb_true_iff, negb_true_iff in H6.
  destruct H6 as [[[A B] C] D].
  split; [exact A|]. split; [exact B|]. split.
  - intros Hin. assert (existsb (String.eqb (fst pr ++ snd pr)%string) w = true).
    { apply existsb_exists. eexists. split; [exact Hin|apply String.eqb_refl]. }
    congruence.
  - intros Hpos. apply orb_true_iff in D. destruct D as [D|D]; apply Z.eqb_eq in D; [lia|exact D].
Qed.

Lemma true_freq_rewrite_pr pr v :
  (forall w f, In (w, f) v -> (0 < cnt pr w)%Z -> cnt pr (rewrite_word pr w) = 0%Z) ->
  true_freq (rewrite_vocab pr v) pr = 0%Z.
Proof.
  induction v as [|[w f] v IH]; intros H; [reflexivity|].
  cbn [rewrite_vocab map fst snd]. fold (rewrite_vocab pr v).
  destruct (0 <? cnt pr w)%Z eqn:E; cbn [true_freq].
  - apply Z.ltb_lt in E. rewrite (H w f) by (auto; now left).
    rewrite IH; [lia|]. intros. eapply H; eauto. right. eauto.
  - apply Z.ltb_ge in E. pose proof (cnt_nonneg pr w).
    replace (cnt pr w) with 0%Z by lia.
    rewrite IH; [lia|]. intros. eapply H; eauto. right. eauto.
Qed.

Lemma nth_error_rewrite_vocab pr v k :
  nth_error (rewrite_vocab pr v) k =
  match nth_error v k with
  | Some (w, f) => Some (if (0 <? cnt pr w)%Z then rewrite_word pr w else w, f)
  | None => None
  end.
Proof.
  unfold rewrite_vocab. rewrite nth_error_map.
  destruct (nth_error v k) as [[w f]|]; [|reflexivity].
  cbn [option_map fst snd]. now destruct (0 <? cnt pr w)%Z.
Qed.

(** The anatomy of one merge step on a proper vocabulary: the words that
    hold the pair are rewritten, and every counter moves by the change of
    the count it stands for. *)
Lemma merge_step_changes pr v s ix :
  proper_step pr v = true ->
  tidy ix ->
  (forall j, idx_of ix pr j = cnt pr (word_at v j)) ->
  exists new s2 ix2,
    merge_step pr (v, s, ix)
      = Ok (rewrite_vocab pr v, Dict.set pair_eqb s2 pr 0%Z, ix2) /\
    update_changes (fst pr) (snd pr) new
      (Dict.set pair_eqb s pr 0%Z, Dict.set pair_eqb (touch ix pr) pr [])
      = Ok (s2, ix2) /\
    Forall (recorded pr v (inner_of ix pr)) new /\
    tidy ix2 /\
    (forall q, true_freq (rewrite_vocab pr v) q = (true_freq v q + delta_sum q new)%Z) /\
    (forall q, q <> pr -> stat_of s2 q = (stat_of s q + delta_sum q new)%Z) /\
    (forall q j, q <> pr ->
       idx_of ix2 q j
       = (idx_of ix q j
          + (cnt q (word_at (rewrite_vocab pr v) j) - cnt q (word_at v j)))%Z) /\
    (forall j, (idx_of ix2 pr j <= 0)%Z) /\
    true_freq (rewrite_vocab pr v) pr = 0%Z.
Proof.
  intros Hp Ht Hex.
  destruct (proper_step_inv _ _ Hp) as [wfL [wfR [HL [HR [HN Hw]]]]].
  destruct pr as [L R]. cbn [fst snd] in *.
  (* the rewriting *)
  assert (Hrange : forall j c, In (j, c) (inner_of ix (L, R)) -> (1 <= c)%Z ->
                               j < List.length v).
  { intros j c Hin Hc. apply (get_in_nodup _ _ _ (Ht (L, R))) in Hin.
    specialize (Hex j). unfold idx_of, count_of in Hex. rewrite Hin in Hex.
    destruct (Nat.lt_ge_cases j (List.length v)) as [|Hge]; [assumption|].
    rewrite (word_at_out _ _ Hge), cnt_nil in Hex. lia. }
  destruct (replace_loop_spec (L, R) (inner_of ix (L, R)) v [] (Ht (L, R)) Hrange)
    as [v' [new [E1 [Hlen [Hnth [Hrec [Hfreq Hcnt]]]]]]].
  assert (Hv' : v' = rewrite_vocab (L, R) v).
  { apply nth_error_ext. intros k. rewrite Hnth, nth_error_rewrite_vocab.
    destruct (nth_error v k) as [[w f]|] eqn:Ek; [|reflexivity].
    specialize (Hex k). unfold word_at in Hex. rewrite Ek in Hex.
    unfold idx_of in Hex. rewrite Hex.
    destruct (1 <=? cnt (L, R) w)%Z eqn:Ea, (0 <? cnt (L, R) w)%Z eqn:Eb;
      try reflexivity; exfalso.
    - apply Z.leb_le in Ea. apply Z.ltb_ge in Eb. lia.
    - apply Z.leb_gt in Ea. apply Z.ltb_lt in Eb. lia. }
  subst v'.
  assert (Hsound : Forall (sound_change L R) new).
  { eapply Forall_impl; [|exact Hrec]. intros [[[j w'] w] f] [Ha [Hb Hc]].
    assert (Hpos : (0 < cnt (L, R) w)%Z).
    { specialize (Hex j). unfold idx_of, word_at in Hex. rewrite Ha in Hex. lia. }
    apply nth_error_In in Ha. destruct (Hw _ _ Ha) as [W1 [W2 [W3 W4]]].
    specialize (W4 Hpos). cbn [sound_change]. rewrite <- Hb in W4.
    repeat split; auto. rewrite Hb. now apply rewrite_word_merge. }
  (* the update *)
  set (st0 := (Dict.set pair_eqb s (L, R) 0%Z,
               Dict.set pair_eqb (touch ix (L, R)) (L, R) [])).
  assert (Ht0 : tidy (snd st0)).
  { intros q. cbn [st0 snd]. rewrite inner_of_set.
    destruct (pair_eqb (L, R) q); [constructor|]. rewrite inner_of_touch. apply Ht. }
  destruct (update_changes_spec L R wfL wfR HL HR HN new st0 Hsound Ht0)
    as [[s2 ix2] [E2 [T2 [B1 [B2 B3]]]]].
  subst st0. cbn [fst snd] in *.
  exists new, s2, ix2.
  assert (Hoff : forall q, q <> (L, R) -> pair_eqb (L, R) q = false).
  { intros q Hq. destruct (pair_eqb (L, R) q) eqn:Eq; [|reflexivity].
    apply pair_eqb_eq in Eq. congruence. }
  split; [|split; [exact E2|split; [exact Hrec|split; [exact T2|
          split; [exact Hfreq|split; [|split; [|split]]]]]]].
  - unfold merge_step, replace_pair. rewrite app_nil_l in E1. rewrite E1.
    cbn [bind]. unfold update_pair_statistics. cbn [fst snd].
    rewrite E2. reflexivity.
  - intros q Hq. rewrite (B1 q Hq), stat_of_set, (Hoff q Hq). reflexivity.
  - intros q j Hq. rewrite (B2 q j Hq), Hcnt.
    unfold idx_of at 1. rewrite inner_of_set, (Hoff q Hq), inner_of_touch.
    fold (idx_of ix q j). lia.
  - intros j. specialize (B3 j). unfold idx_of at 2 in B3.
    rewrite inner_of_set, pair_eqb_refl in B3. exact B3.
  - apply true_freq_rewrite_pr. intros w f Hin. now destruct (Hw _ _ Hin) as [_ [_ [_ ?]]].
Qed.

(** One proper merge step keeps the statistics exact. *)
Theorem merge_step_exact pr v s ix :
  proper_step pr v = true ->
  tidy ix ->
  (forall j, idx_of ix pr j = cnt pr (word_at v j)) ->
  exists s' ix',
    merge_step pr (v, s, ix) = Ok (rewrite_vocab pr v, s', ix') /\
    tidy ix' /\
    (forall q, stat_of s q = true_freq v q ->
               stat_of s' q = true_freq (rewrite_vocab pr v) q) /\
    (forall q, q <> pr ->
       (forall j, idx_of ix q j = cnt q (word_at v j)) ->
       forall j, idx_of ix' q j = cnt q (word_at (rewrite_vocab pr v) j)) /\
    (forall j, (idx_of ix' pr j <= 0)%Z) /\
    stat_of s' pr = 0%Z /\ true_freq (rewrite_vocab pr v) pr = 0%Z.
Proof.
  intros Hp Ht Hex.
  destruct (merge_step_changes pr v s ix Hp Ht Hex)
    as [new [s2 [ix2 [E [_ [_ [T2 [Hfreq [B1 [B2 [B3 Hpr0]]]]]]]]]]].
  exists (Dict.set pair_eqb s2 pr 0%Z), ix2.
  split; [exact E|]. split; [exact T2|]. split; [|split; [|split; [exact B3|split]]].
  - intros q Hq. rewrite stat_of_set. destruct (pair_eqb pr q) eqn:Eq.
    + apply pair_eqb_eq in Eq. subst q. now rewrite Hpr0.
    + assert (Hne : q <> pr).
      { intros ->. rewrite pair_eqb_refl in Eq. discriminate. }
      rewrite (B1 q Hne), Hfreq. lia.
  - intros q Hq Hex' j. rewrite (B2 q j Hq), Hex'. lia.
  - rewrite stat_of_set. now rewrite pair_eqb_refl.
  - exact Hpr0.
Qed.

(** * Sequences of merges *)

Lemma tidy_nil : tidy [].
Proof. intros q. constructor. Qed.

Lemma tidy_recount v : forall i st, tidy (snd st) -> tidy (snd (recount i v st)).
Proof.
  induction v as [|[w f] v IH]; intros i st H; [exact H|].
  cbn [recount]. apply IH. now apply tidy_bumps.
Qed.

Lemma spans_ok_plain w : has_delim w = false -> w <> [] -> spans_ok w = true.
Proof.
  intros H Hne. unfold spans_ok. rewrite split_tuple_eq.
  assert (E : split_on DELIM w = [w]).
  { clear Hne. induction w as [|x w IH]; [reflexivity|].
    unfold has_delim in H. cbn [existsb] in H. apply orb_false_iff in H.
    destruct H as [H1 H2]. rewrite split_on_cons. unfold is_delim.
    rewrite String.eqb_sym, H1. now rewrite (IH H2). }
  rewrite E. destruct w; [congruence|reflexivity].
Qed.

Lemma spans_ok_collapse m : spans_ok m = true -> spans_ok (collapse m) = true.
Proof.
  intros H. destruct (collapse_cases m) as [->|[Hc ->]]; [assumption|].
  apply spans_ok_plain; [apply filter_no_delim|].
  intros E. pose proof (filter_length_count m) as Hl. rewrite E in Hl. simpl in Hl. lia.
Qed.

Lemma all_spans_ok_rewrite pr v :
  proper_step pr v = true -> all_spans_ok (rewrite_vocab pr v) = true.
Proof.
  intros Hp. destruct (proper_step_inv _ _ Hp) as [wfL [wfR [HL [HR [HN Hw]]]]].
  unfold all_spans_ok. apply forallb_forall. intros [w' f'] Hin.
  unfold rewrite_vocab in Hin. apply in_map_iff in Hin.
  destruct Hin as [[w f] [E Hin]]. cbn [fst snd] in E.
  destruct (Hw _ _ Hin) as [W1 [W2 _]].
  destruct (0 <? cnt pr w)%Z; injection E as <- <-; cbn [fst]; [|assumption].
  destruct pr as [L R]. cbn [fst snd] in *.
  rewrite rewrite_word_merge by assumption.
  apply spans_ok_collapse. now apply spans_ok_merge.
Qed.

Lemma run_merges_exact ps : forall v s ix done,
  proper_run ps v = true ->
  tidy ix ->
  (forall q, stat_of s q = true_freq v q) ->
  (forall q, ~ In q done -> forall j, idx_of ix q j = cnt q (word_at v j)) ->
  (forall q, In q ps -> ~ In q done) ->
  exists s' ix',
    run_merges ps (v, s, ix) = Ok (rewrite_all ps v, s', ix') /\
    tidy ix' /\
    (forall q, stat_of s' q = true_freq (rewrite_all ps v) q) /\
    (forall q, ~ In q (ps ++ done) ->
       forall j, idx_of ix' q j = cnt q (word_at (rewrite_all ps v) j)).
Proof.
  induction ps as [|p ps IH]; intros v s ix done Hp Ht Hs Hi Hd.
  - exists s, ix. repeat split; auto.
  - cbn [proper_run] in Hp. apply andb_true_iff in Hp. destruct Hp as [Hp Hrun].
    apply andb_true_iff in Hp. destruct Hp as [Hstep Hnew].
    apply negb_true_iff in Hnew.
    assert (Hpd : ~ In p done) by (apply Hd; now left).
    destruct (merge_step_exact p v s ix Hstep Ht (Hi p Hpd))
      as [s1 [ix1 [E1 [T1 [A1 [A2 [A3 _]]]]]]].
    destruct (IH (rewrite_vocab p v) s1 ix1 (p :: done) Hrun T1) as [s' [ix' [E2 [T2 [B1 B2]]]]].
    + intros q. apply A1. apply Hs.
    + intros q Hq j. apply A2.
      * intros ->. apply Hq. now left.
      * apply Hi. intros H. apply Hq. now right.
    + intros q Hq [H|H].
      * subst q. assert (existsb (pair_eqb p) ps = true); [|congruence].
        apply existsb_exists. exists p. split; [assumption|apply pair_eqb_refl].
      * apply (Hd q); [now right|assumption].
    + exists s', ix'. cbn [run_merges bind]. rewrite E1. cbn [bind rewrite_all fold_left].
      split; [exact E2|]. split; [exact T2|]. split; [exact B1|].
      intros q Hq. apply B2. intros H. apply Hq. apply in_app_or in H.
      cbn [app]. destruct H as [H|[H|H]].
      * right. apply in_or_app. now left.
      * now left.
      * right. apply in_or_app. now right.
Qed.

Lemma all_spans_ok_run ps : forall v,
  all_spans_ok v = true -> proper_run ps v = true ->
  all_spans_ok (rewrite_all ps v) = true.
Proof.
  induction ps as [|p ps IH]; intros v Hv Hp; [exact Hv|].
  cbn [proper_run] in Hp. apply andb_true_iff in Hp. destruct Hp as [Hp Hrun].
  apply andb_true_iff in Hp. destruct Hp as [Hstep _].
  cbn [rewrite_all fold_left]. apply IH; [|assumption].
  now apply all_spans_ok_rewrite.
Qed.

(** * A rewritten word is not empty *)

Open Scope string_scope.

Lemma nsc_app a b : nsc (a ++ b) = nsc a + nsc b.
Proof. induction a as [|c a IH]; simpl; [reflexivity|]. rewrite IH. lia. Qed.

Lemma strip_prefix_eq p s r : strip_prefix p s = Some r -> s = p ++ r.
Proof.
  revert s. induction p as [|a p IH]; intros s; simpl.
  - now intros [= ->].
  - destruct s as [|b s]; [discriminate|]. destruct (Ascii.eqb a b) eqn:E; [|discriminate].
    apply Ascii.eqb_eq in E. subst b. intros H. now rewrite (IH _ H).
Qed.

Lemma nsc_re_sub lit repl : nsc repl = nsc lit ->
  forall fuel prev s, nsc (re_sub fuel lit repl prev s) = nsc s.
Proof.
  intros Hl. induction fuel as [|fuel IH]; intros prev s; [reflexivity|].
  cbn [re_sub]. destruct s as [|c s]; [reflexivity|].
  destruct (match_at lit prev (String c s)) as [r|] eqn:E.
  - unfold match_at in E. destruct (lookbehind prev); [|discriminate].
    destruct (strip_prefix lit (String c s)) as [r'|] eqn:E'; [|discriminate].
    destruct (lookahead r'); [|discriminate]. injection E as <-.
    apply strip_prefix_eq in E'. rewrite E', !nsc_app, IH. lia.
  - cbn [nsc]. now rewrite IH.
Qed.

Lemma nsc_pattern_sub L R s : nsc (pattern_sub L R s) = nsc s.
Proof.
  unfold pattern_sub. apply nsc_re_sub. rewrite !nsc_app. reflexivity.
Qed.

Lemma split_ws_nil s : split_ws s = [] -> nsc s = 0.
Proof.
  induction s as [|c s IH]; [reflexivity|].
  cbn [split_ws nsc]. destruct (isspace c); [exact IH|].
  destruct s as [|c' s]; [discriminate|].
  destruct (isspace c'); [discriminate|].
  destruct (split_ws (String c' s)); discriminate.
Qed.

Lemma nsc_join_delim w : In DELIM w -> 0 < nsc (join w).
Proof.
  induction w as [|a w IH]; [intros []|].
  rewrite join_cons, nsc_app. intros [->|H]; [simpl; lia|].
  destruct w as [|b w]; [destruct H|].
  cbn [tail_join]. rewrite nsc_app. specialize (IH H). lia.
Qed.

Close Scope string_scope.

Lemma rewrite_word_nonempty pr w : has_delim w = true -> rewrite_word pr w <> [].
Proof.
  intros H. unfold rewrite_word.
  set (m := split_ws (pattern_sub (fst pr) (snd pr) (join w))).
  destruct (collapse_cases m) as [->|[Hc ->]].
  - intros E. apply split_ws_nil in E. rewrite nsc_pattern_sub in E.
    apply has_delim_in in H. apply nsc_join_delim in H. lia.
  - intros E. pose proof (filter_length_count m) as Hl. rewrite E in Hl.
    simpl in Hl. lia.
Qed.

(** * Frame of replace_pair *)

Lemma map_snd_list_set (v : vocabulary) j w f w' :
  nth_error v j = Some (w, f) -> map snd (list_set v j (w', f)) = map snd v.
Proof.
  revert j. induction v as [|[w0 f0] v IH]; intros j; [destruct j; discriminate|].
  destruct j; simpl.
  - intros H. inversion H; subst. reflexivity.
  - intros H. now rewrite (IH _ H).
Qed.

Lemma replace_loop_frame pr items : forall v chs v' chs',
  replace_loop pr items v chs = Ok (v', chs') ->
  map snd v' = map snd v /\
  (Forall (change_ok pr (List.length v)) chs -> Forall (change_ok pr (List.length v)) chs').
Proof.
  induction items as [|[j c] items IH]; intros v chs v' chs'; cbn [replace_loop].
  - intros [= <- <-]. auto.
  - destruct (c <? 1)%Z; [apply IH|].
    destruct (nth_error v j) as [[w f]|] eqn:E; [|discriminate].
    intros H. apply IH in H. destruct H as [H1 H2].
    rewrite (map_snd_list_set _ _ _ _ _ E) in H1. split; [exact H1|].
    rewrite length_list_set in H2. intros Hc. apply H2.
    apply Forall_app. split; [exact Hc|]. constructor; [|constructor].
    cbn [change_ok]. split; [|reflexivity].
    apply nth_error_Some. congruence.
Qed.

Lemma replace_loop_total pr items : forall v chs,
  (forall j, In j (map fst items) -> j < List.length v) ->
  exists v' chs', replace_loop pr items v chs = Ok (v', chs').
Proof.
  induction items as [|[j c] items IH]; intros v chs Hb; cbn [replace_loop].
  - eauto.
  - assert (Hb' : forall v1 : vocabulary, List.length v1 = List.length v ->
                    forall j', In j' (map fst items) -> j' < List.length v1).
    { intros v1 Hl j' Hj. rewrite Hl. apply Hb. now right. }
    destruct (c <? 1)%Z; [apply IH; now apply Hb'|].
    assert (Hj : j < List.length v) by (apply Hb; now left).
    destruct (nth_error v j) as [[w f]|] eqn:E.
    + apply IH. apply Hb'. apply length_list_set.
    + apply nth_error_None in E. lia.
Qed.

(** * The index stays inside the vocabulary *)

Lemma keys_bounded_bumps n ps : forall st j df dc,
  j < n -> keys_bounded n (snd st) -> keys_bounded n (snd (bumps st ps j df dc)).
Proof.
  induction ps as [|p ps IH]; intros st j df dc Hj H; [exact H|].
  unfold bumps. cbn [fold_left]. apply IH; [assumption|]. cbn [bump snd].
  intros q k. rewrite inner_of_idx_add. destruct (pair_eqb p q) eqn:E.
  - rewrite (keys_set Nat.eqb). destruct (Dict.mem _ _ _).
    + apply H.
    + intros Hin. apply in_app_or in Hin. destruct Hin as [Hin|[<-|[]]]; [|assumption].
      eapply H; eauto.
  - apply H.
Qed.

Lemma update_word_total pr n c st :
  change_ok pr n c -> keys_bounded n (snd st) ->
  exists st', update_word (fst pr) (snd pr) c st = Ok st' /\ keys_bounded n (snd st').
Proof.
  destruct c as [[[j w'] w] f]. intros [Hj Hw] Hk. unfold update_word.
  destruct (has_delim w && negb (has_delim w')) eqn:E.
  - apply andb_true_iff in E. destruct E as [E _].
    pose proof (rewrite_word_nonempty pr w E) as Hne. rewrite <- Hw in Hne.
    destruct w' as [|t rest]; [congruence|].
    eexists. split; [reflexivity|]. rewrite count_run_bumps. now apply keys_bounded_bumps.
  - cbv zeta. rewrite else_branch_events. eexists. split; [reflexivity|].
    apply keys_bounded_bumps; [assumption|]. now apply keys_bounded_bumps.
Qed.

Lemma update_changes_total pr n cs : forall st,
  Forall (change_ok pr n) cs -> keys_bounded n (snd st) ->
  exists st', update_changes (fst pr) (snd pr) cs st = Ok st' /\ keys_bounded n (snd st').
Proof.
  induction cs as [|c cs IH]; intros st Hc Hk; cbn [update_changes].
  - eauto.
  - inversion Hc as [|? ? Hc1 Hc2]; subst.
    destruct (update_word_total pr n c st Hc1 Hk) as [st1 [E1 K1]].
    rewrite E1. cbn [bind]. now apply IH.
Qed.

Lemma merge_step_total pr v s ix :
  keys_bounded (List.length v) ix ->
  exists v' s' ix',
    merge_step pr (v, s, ix) = Ok (v', s', ix') /\
    map snd v' = map snd v /\ keys_bounded (List.length v') ix'.
Proof.
  intros Hk. unfold merge_step, replace_pair.
  destruct (replace_loop_total pr (inner_of ix pr) v [] (Hk pr)) as [v' [chs E]].
  rewrite E. cbn [bind].
  destruct (replace_loop_frame _ _ _ _ _ _ E) as [Hf Hc].
  specialize (Hc (Forall_nil _)).
  assert (Hlen : List.length v' = List.length v).
  { rewrite <- (length_map snd v'), Hf. apply length_map. }
  unfold update_pair_statistics.
  destruct (update_changes_total pr (List.length v) chs
              (Dict.set pair_eqb s pr 0%Z, Dict.set pair_eqb (touch ix pr) pr []) Hc)
    as [[s2 ix2] [E2 K2]].
  { cbn [snd]. intros q j. rewrite inner_of_set.
    destruct (pair_eqb pr q); [intros []|]. rewrite inner_of_touch. apply Hk. }
  rewrite E2. cbn [bind]. exists v', (Dict.set pair_eqb s2 pr 0%Z), ix2.
  split; [reflexivity|]. split; [assumption|]. rewrite Hlen. exact K2.
Qed.

(** * The loop never raises *)

Lemma set_nonempty {K V} (keqb : K -> K -> bool) (d : list (K * V)) k x :
  Dict.set keqb d k x <> [].
Proof. destruct d as [|[k' x'] d]; simpl; [discriminate|]. destruct (keqb k' k); discriminate. Qed.

Lemma prune_loop_big items : forall stats big thr,
  big <> [] -> snd (prune_loop items stats big thr) <> [].
Proof.
  induction items as [|[item freq] items IH]; intros stats big thr H; [exact H|].
  cbn [prune_loop]. destruct (below freq thr); [|now apply IH].
  apply IH. destruct (freq <? 0)%Z; apply set_nonempty.
Qed.

Lemma max_key_ok d : d <> [] -> exists k, max_key d = Ok k.
Proof. destruct d as [|[k x] d]; [congruence|]. intros _. simpl. eauto. Qed.

Lemma select_ok i st :
  big_stats st <> [] ->
  exists st' mf,
    select i st = Ok (st', mf) /\
    sorted_vocab st' = sorted_vocab st /\ indices st' = indices st /\
    output st' = output st /\ stderr st' = stderr st /\ big_stats st' <> [].
Proof.
  intros Hb. unfold select.
  set (mfo := match stats st with [] => None | _ :: _ => Some (max_key (stats st)) end).
  set (repair := match mfo with
                 | Some (Ok mf) => negb (i =? 0)%Z && below (stat_of (stats st) mf) (threshold st)
                 | _ => true
                 end).
  destruct repair eqn:Er.
  - destruct (prune_stats (stats st) (big_stats st) (threshold st)) as [s1 big1] eqn:E1.
    assert (Hb1 : big1 <> []).
    { replace big1 with (snd (prune_stats (stats st) (big_stats st) (threshold st)))
        by now rewrite E1.
      now apply prune_loop_big. }
    destruct (max_key_ok big1 Hb1) as [mf Emf]. rewrite Emf. cbn [bind].
    destruct (prune_stats big1 big1 _) as [s3 big3] eqn:E3.
    eexists _, mf. split; [reflexivity|]. cbn. repeat split; auto.
    replace big3 with (snd (prune_stats big1 big1
        (Qmake (stat_of big1 mf * i) (Z.to_pos (i + 10000))))) by now rewrite E3.
    now apply prune_loop_big.
  - subst repair. destruct mfo as [[mf|e]|]; try discriminate.
    exists st, mf. repeat split; auto.
Qed.

Lemma iteration_ok args i st :
  loop_inv st ->
  exists st' stop,
    iteration args i st = Ok (st', stop) /\ loop_inv st' /\
    map snd (sorted_vocab st') = map snd (sorted_vocab st) /\
    (if stop
     then output st' = output st /\ stderr st' = stderr st ++ [stop_note args]
     else exists p, output st' = output st ++ [rule_line p]).
Proof.
  intros [Hb Hk]. unfold iteration.
  destruct (select_ok i st Hb) as [st1 [mf [E [Hv [Hi [Ho [He Hb1]]]]]]].
  rewrite E. cbn [bind].
  set (stats1 := if Dict.mem pair_eqb (stats st1) mf then stats st1
                 else Dict.set pair_eqb (stats st1) mf 0%Z).
  destruct (stat_of stats1 mf <? min_frequency args)%Z.
  - eexists _, true. split; [reflexivity|]. cbn.
    rewrite Hv, Hi, Ho, He. repeat split; auto.
  - rewrite Hv, Hi in *.
    destruct (merge_step_total mf (sorted_vocab st) stats1 (indices st) Hk)
      as [v' [s' [ix' [E2 [Hf K2]]]]].
    rewrite E2. cbn [bind].
    destruct (if (i mod 100 =? 0)%Z then prune_stats s' (big_stats st1) (threshold st1)
              else (s', big_stats st1)) as [stats4 big4] eqn:E4.
    eexists _, false. split; [reflexivity|]. cbn. repeat split; auto.
    + destruct (i mod 100 =? 0)%Z.
      * replace big4 with (snd (prune_stats s' (big_stats st1) (threshold st1)))
          by now rewrite E4.
        now apply prune_loop_big.
      * now injection E4 as _ <-.
    + exists mf. now rewrite Ho.
Qed.

Lemma loop_ok args n : forall i st,
  loop_inv st ->
  exists st',
    loop args n i st = Ok st' /\ loop_inv st' /\
    map snd (sorted_vocab st') = map snd (sorted_vocab st) /\
    (List.length (output st') = List.length (output st) + n
     \/ (List.length (output st') < List.length (output st) + n
         /\ exists e, stderr st' = e ++ [stop_note args])).
Proof.
  induction n as [|n IH]; intros i st Hinv.
  - exists st. cbn [loop]. split; [reflexivity|]. split; [exact Hinv|].
    split; [reflexivity|]. left. lia.
  - destruct (iteration_ok args i st Hinv) as [st1 [stop [E [Hinv1 [Hf Hs]]]]].
    cbn [loop]. rewrite E. cbn [bind]. destruct stop.
    + destruct Hs as [Ho He]. exists st1. split; [reflexivity|].
      split; [exact Hinv1|]. split; [exact Hf|].
      right. split; [rewrite Ho; lia|]. eauto.
    + destruct Hs as [p Ho].
      destruct (IH (i + 1)%Z st1 Hinv1) as [st' [E' [Hinv' [Hf' Hc]]]].
      exists st'. split; [exact E'|]. split; [exact Hinv'|].
      split; [congruence|].
      rewrite Ho, length_app in Hc. cbn [List.length] in Hc.
      destruct Hc as [Hc|[Hc He]]; [left; lia|right; split; [lia|exact He]].
Qed.

(** * The initial state *)

Lemma keys_bounded_recount v : forall i st n,
  i + List.length v <= n ->
  keys_bounded n (snd st) -> keys_bounded n (snd (recount i v st)).
Proof.
  induction v as [|[w f] v IH]; intros i st n Hn H; [exact H|].
  cbn [recount]. simpl in Hn. apply IH; [lia|].
  apply keys_bounded_bumps; [lia|assumption].
Qed.

Lemma initial_state_inv v st :
  initial_state v = Ok st ->
  loop_inv st /\ sorted_vocab st = v /\ output st = [] /\ stderr st = [].
Proof.
  unfold initial_state. rewrite get_pair_statistics_eq.
  destruct (all_spans_ok v); [|discriminate]. cbn [bind].
  destruct (recount 0 v ([], [])) as [s0 ix0] eqn:Er.
  unfold max_value. destruct (max_key s0) as [k|e] eqn:Ek; [|discriminate].
  cbn [bind]. intros [= <-]. unfold loop_inv.
  cbn [big_stats sorted_vocab indices output stderr]. repeat split; auto.
  - intros E. rewrite E in Ek. discriminate.
  - replace ix0 with (snd (recount 0 v ([], []))) by now rewrite Er.
    apply keys_bounded_recount; [simpl; lia|]. intros q j [].
Qed.

(** * Frequencies do not grow *)

Lemma occ_filter_le q f ps : (occ q (filter f ps) <= occ q ps)%Z.
Proof.
  induction ps as [|p ps IH]; [reflexivity|].
  cbn [filter]. destruct (f p); rewrite ?occ_cons; unfold delta;
    destruct (pair_eqb p q); pose proof (occ_nonneg q ps); lia.
Qed.

Lemma symbol_count_cons x a w :
  symbol_count x (a :: w) = ((if String.eqb a x then 1 else 0) + symbol_count x w)%Z.
Proof.
  unfold symbol_count. cbn [count_occ]. destruct (string_dec a x) as [->|Hne].
  - rewrite String.eqb_refl. lia.
  - apply String.eqb_neq in Hne. rewrite Hne. lia.
Qed.

Lemma symbol_count_nonneg x w : (0 <= symbol_count x w)%Z.
Proof. unfold symbol_count. lia. Qed.

Lemma adj_cons2 a b w : adj (a :: b :: w) = (a, b) :: adj (b :: w).
Proof. reflexivity. Qed.

Lemma occ_adj_fst x q w :
  fst q = x -> (occ q (adj w) <= symbol_count x w)%Z.
Proof.
  intros Hq. induction w as [|a w IH]; [reflexivity|].
  destruct w as [|b w].
  - cbn [adj]. rewrite occ_nil. apply symbol_count_nonneg.
  - rewrite adj_cons2, occ_cons, (symbol_count_cons x a). unfold delta.
    destruct (pair_eqb (a, b) q) eqn:E.
    + apply pair_eqb_eq in E. subst q. cbn [fst] in Hq. subst a.
      rewrite String.eqb_refl. lia.
    + destruct (String.eqb a x); lia.
Qed.

Lemma occ_adj_snd x q w :
  snd q = x -> (occ q (adj w) <= symbol_count x (tl w))%Z.
Proof.
  intros Hq. induction w as [|a w IH]; [reflexivity|].
  destruct w as [|b w].
  - cbn [adj tl]. rewrite occ_nil. reflexivity.
  - rewrite adj_cons2, occ_cons. cbn [tl] in *. rewrite (symbol_count_cons x b).
    unfold delta. destruct (pair_eqb (a, b) q) eqn:E.
    + apply pair_eqb_eq in E. subst q. cbn [snd] in Hq. subst b.
      rewrite String.eqb_refl. lia.
    + destruct (String.eqb b x); lia.
Qed.

Lemma cnt_le_symbol_count N q w :
  involves N q = true -> (cnt q w <= symbol_count N w)%Z.
Proof.
  unfold involves. intros H. apply orb_true_iff in H. unfold cnt, pairs_of.
  pose proof (occ_filter_le q (fun p => negb (pair_has_delim p)) (adj w)) as Hf.
  destruct H as [H|H]; apply String.eqb_eq in H.
  - pose proof (occ_adj_fst N q w H). lia.
  - pose proof (occ_adj_snd N q w H) as Hs.
    destruct w as [|a w]; [cbn in *; lia|]. cbn [tl] in Hs.
    rewrite symbol_count_cons. destruct (String.eqb a N); lia.
Qed.

Section Monotone.
Variables L R : symbol.
Let N : symbol := (L ++ R)%string.
Hypothesis wfL : wf_sym L = true.
Hypothesis wfR : wf_sym R = true.
Hypothesis LR_plain : pair_has_delim (L, R) = false.

Lemma cnt_pair_cons a w : (cnt (L, R) w <= cnt (L, R) (a :: w))%Z.
Proof.
  unfold cnt. destruct w as [|b w]; [reflexivity|].
  rewrite pairs_of_keep, occ_app. pose proof (occ_nonneg (L, R) (keep (a, b))). lia.
Qed.

(** Each new symbol comes from one occurrence of the pair. *)
Lemma new_symbols_le_pairs w :
  ~ In N w -> (symbol_count N (merge_pair L R w) <= cnt (L, R) w)%Z.
Proof.
  pattern w. apply (merge_ind L R); clear w.
  - intros _. reflexivity.
  - intros a Ha. cbn [merge_pair]. rewrite symbol_count_cons.
    replace (String.eqb a N) with false.
    2:{ symmetry. apply String.eqb_neq. intros ->. apply Ha. now left. }
    reflexivity.
  - intros rest IH Hn. rewrite merge_hit. fold N. rewrite symbol_count_cons, String.eqb_refl.
    assert (Hr : ~ In N rest) by (intros H; apply Hn; right; now right).
    specialize (IH Hr).
    unfold cnt at 1. rewrite pairs_of_keep, occ_app. fold (cnt (L, R) (R :: rest)).
    unfold keep. rewrite LR_plain, occ_cons, occ_nil. unfold delta.
    rewrite pair_eqb_refl. pose proof (cnt_pair_cons R rest). lia.
  - intros a b rest E IH Hn. rewrite merge_miss by assumption.
    rewrite symbol_count_cons.
    replace (String.eqb a N) with false.
    2:{ symmetry. apply String.eqb_neq. intros ->. apply Hn. now left. }
    assert (Hr : ~ In N (b :: rest)) by (intros H; apply Hn; now right).
    specialize (IH Hr). pose proof (cnt_pair_cons a (b :: rest)). lia.
Qed.

Lemma cnt_merge_le q w :
  ~ In N w ->
  (cnt q (merge_pair L R w) <= if involves N q then cnt (L, R) w else cnt q w)%Z.
Proof.
  intros Hn. destruct (involves N q) eqn:Eq.
  - pose proof (cnt_le_symbol_count N q (merge_pair L R w) Eq).
    pose proof (new_symbols_le_pairs w Hn). lia.
  - destruct (pair_eqb q (L, R)) eqn:E.
    + apply pair_eqb_eq in E. subst q.
      rewrite (cnt_merge_pair L R (N_not_L L R wfR) (N_not_R L R wfL)).
      apply cnt_nonneg.
    + assert (Hne : q <> (L, R)).
      { intros ->. rewrite pair_eqb_refl in E. discriminate. }
      destruct (dec_count L R q Eq Hne w) as [H _]. specialize (H None).
      cbn [with_prev] in H. unfold cnt.
      pose proof (occ_nonneg q (dec_events L R false None w)). lia.
Qed.
End Monotone.

Lemma word_eqb_eq a b : word_eqb a b = true -> a = b.
Proof. unfold word_eqb. destruct (list_eq_dec string_dec a b); [auto|discriminate]. Qed.

Lemma merge_pair_unchanged L R w :
  pair_has_delim (L, R) = false -> (cnt (L, R) w <= 0)%Z -> merge_pair L R w = w.
Proof.
  intros Hp. pattern w. apply (merge_ind L R); clear w; auto.
  - intros rest _ H. exfalso. unfold cnt in H. rewrite pairs_of_keep, occ_app in H.
    unfold keep in H. rewrite Hp, occ_cons, occ_nil in H. unfold delta in H.
    rewrite pair_eqb_refl in H. pose proof (occ_nonneg (L, R) (pairs_of (R :: rest))). lia.
  - intros a b rest E IH H. rewrite merge_miss by assumption. f_equal. apply IH.
    unfold cnt in *. rewrite pairs_of_keep, occ_app in H.
    pose proof (occ_nonneg (L, R) (keep (a, b))). lia.
Qed.

Lemma true_freq_rewrite_le pr v q :
  proper_step pr v = true -> no_collapse pr v = true -> nonneg_freqs v = true ->
  (true_freq (rewrite_vocab pr v) q
   <= if involves (fst pr ++ snd pr)%string q then true_freq v pr else true_freq v q)%Z.
Proof.
  intros Hp Hc Hf.
  destruct (proper_step_inv _ _ Hp) as [wfL [wfR [HL [HR [HN Hw]]]]].
  destruct pr as [L R]. cbn [fst snd] in *.
  assert (HLR : pair_has_delim (L, R) = false).
  { unfold pair_has_delim, is_delim in *. cbn [fst snd].
    now rewrite !(String.eqb_sym DELIM), HL, HR. }
  unfold no_collapse, nonneg_freqs in *. rewrite forallb_forall in Hc, Hf.
  assert (H : forall w f, In (w, f) v ->
     (f * cnt q (fst (if (0 <? cnt (L, R) w)%Z then (rewrite_word (L, R) w, f) else (w, f)))
      <= f * (if involves (L ++ R)%string q then cnt (L, R) w else cnt q w))%Z).
  { intros w f Hin. destruct (Hw _ _ Hin) as [W1 [_ [W3 _]]].
    specialize (Hc _ Hin). specialize (Hf _ Hin). cbn [fst snd] in Hc, Hf.
    apply word_eqb_eq in Hc. apply Z.leb_le in Hf.
    pose proof (cnt_merge_le L R wfL wfR HLR q w W3) as Hm.
    apply Z.mul_le_mono_nonneg_l; [assumption|].
    destruct (0 <? cnt (L, R) w)%Z eqn:E; cbn [fst].
    - rewrite rewrite_word_merge, Hc by assumption. exact Hm.
    - apply Z.ltb_ge in E. rewrite (merge_pair_unchanged L R w HLR E) in Hm. exact Hm. }
  clear Hc Hf Hw Hp. revert H. induction v as [|[w f] v IH]; intros H.
  - cbn. destruct (involves _ q); reflexivity.
  - cbn [rewrite_vocab map]. fold (rewrite_vocab (L, R) v).
    specialize (IH (fun w' f' Hin => H w' f' (or_intror Hin))).
    specialize (H w f (or_introl eq_refl)). cbn [fst snd] in *.
    destruct (0 <? cnt (L, R) w)%Z; cbn [true_freq fst snd] in *;
      destruct (involves (L ++ R)%string q); lia.
Qed.

(** * The maximum *)

Lemma get_some_in {K V} (keqb : K -> K -> bool)
  (keqb_eq : forall a b, keqb a b = true <-> a = b) (d : list (K * V)) k x :
  Dict.get keqb d k = Some x -> In (k, x) d.
Proof.
  induction d as [|[k' x'] d IH]; simpl; [discriminate|].
  destruct (keqb k' k) eqn:E.
  - apply keqb_eq in E. subst. intros [= ->]. now left.
  - intros H. right. now apply IH.
Qed.

Lemma get_in {K V} (keqb : K -> K -> bool)
  (keqb_eq : forall a b, keqb a b = true <-> a = b) (d : list (K * V)) k x :
  NoDup (map fst d) -> In (k, x) d -> Dict.get keqb d k = Some x.
Proof.
  induction d as [|[k' x'] d IH]; simpl; [intros _ []|].
  intros Hn [H|H]; inversion Hn; subst.
  - inversion H; subst. now rewrite (keqb_refl keqb keqb_eq).
  - destruct (keqb k' k) eqn:E; [|auto].
    apply keqb_eq in E. subst. exfalso. apply H2. apply in_map_iff.
    exists (k, x). auto.
Qed.

Lemma max_key_from_spec d : forall best bv,
  exists kv,
    ((max_key_from best bv d, kv) = (best, bv) \/ In (max_key_from best bv d, kv) d) /\
    (bv <= kv)%Z /\ forall q x, In (q, x) d -> (x <= kv)%Z.
Proof.
  induction d as [|[k v] d IH]; intros best bv.
  - exists bv. cbn. split; [now left|]. split; [lia|]. intros q x [].
  - cbn [max_key_from]. destruct (bv <? v)%Z eqn:E.
    + apply Z.ltb_lt in E. destruct (IH k v) as [kv [H1 [H2 H3]]].
      exists kv. split; [|split; [lia|]].
      * right. destruct H1 as [H1|H1]; [left; now symmetry|now right].
      * intros q x [H|H]; [inversion H; subst; lia|eauto].
    + apply Z.ltb_ge in E. destruct (IH best bv) as [kv [H1 [H2 H3]]].
      exists kv. split; [|split; [lia|]].
      * destruct H1 as [H1|H1]; [now left|right; now right].
      * intros q x [H|H]; [inversion H; subst; lia|eauto].
Qed.

(** [max] returns a key of the dictionary whose value no other exceeds. *)
Lemma max_key_spec (d : stats_t) k :
  NoDup (map fst d) -> max_key d = Ok k ->
  Dict.mem pair_eqb d k = true /\
  forall q, Dict.mem pair_eqb d q = true -> (stat_of d q <= stat_of d k)%Z.
Proof.
  intros Hn. destruct d as [|[k0 v0] d]; [discriminate|].
  cbn [max_key]. intros [= <-].
  destruct (max_key_from_spec d k0 v0) as [kv [H1 [H2 H3]]].
  set (k := max_key_from k0 v0 d) in *.
  assert (Hin : In (k, kv) ((k0, v0) :: d)).
  { destruct H1 as [H1|H1]; [left; now symmetry|now right]. }
  assert (Hk : Dict.get pair_eqb ((k0, v0) :: d) k = Some kv).
  { now apply (get_in pair_eqb pair_eqb_eq). }
  unfold Dict.mem, stat_of. rewrite Hk. split; [reflexivity|].
  intros q. destruct (Dict.get pair_eqb ((k0, v0) :: d) q) as [x|] eqn:Eq; [|discriminate].
  intros _. apply (get_some_in pair_eqb pair_eqb_eq) in Eq.
  destruct Eq as [Eq|Eq]; [inversion Eq; subst; lia|eauto].
Qed.

Lemma nodup_stats_bumps ps : forall st j df dc,
  NoDup (map fst (fst st)) -> NoDup (map fst (fst (bumps st ps j df dc))).
Proof.
  induction ps as [|p ps IH]; intros st j df dc H; [exact H|].
  unfold bumps. cbn [fold_left]. apply IH. cbn [bump fst]. unfold stats_add.
  now apply (nodup_set pair_eqb pair_eqb_eq).
Qed.

Lemma nodup_stats_recount v : forall i st,
  NoDup (map fst (fst st)) -> NoDup (map fst (fst (recount i v st))).
Proof.
  induction v as [|[w f] v IH]; intros i st H; [exact H|].
  cbn [recount]. apply IH. now apply nodup_stats_bumps.
Qed.

Lemma true_freq_nonneg v q : nonneg_freqs v = true -> (0 <= true_freq v q)%Z.
Proof.
  induction v as [|[w f] v IH]; [reflexivity|].
  unfold nonneg_freqs. cbn [forallb snd true_freq]. intros H.
  apply andb_true_iff in H. destruct H as [H1 H2]. apply Z.leb_le in H1.
  specialize (IH H2). pose proof (cnt_nonneg q w). nia.
Qed.

(** * Empty spans *)

Lemma spans_ok_empty_span w : spans_ok w = negb (has_empty_span w).
Proof.
  unfold spans_ok, has_empty_span. induction (split_tuple w DELIM) as [|s ss IH]; [reflexivity|].
  cbn [forallb existsb]. rewrite IH. destruct s; reflexivity.
Qed.

Lemma empty_span_shape w :
  existsb is_nil (split_on DELIM w)
  = is_nil w || delim_first w || delim_last w || delim_twice w
  /\ existsb is_nil (tl (split_on DELIM w)) = delim_last w || delim_twice w.
Proof.
  induction w as [|x w [IH1 IH2]]; [split; reflexivity|].
  assert (Hlast : delim_last (x :: w) = if is_nil w then is_delim x else delim_last w).
  { destruct w; reflexivity. }
  assert (Htw : delim_twice (x :: w) = (is_delim x && delim_first w) || delim_twice w).
  { destruct w as [|y w]; [|reflexivity].
    cbn [delim_first]. now rewrite andb_false_r. }
  rewrite split_on_cons, Hlast, Htw. destruct (is_delim x) eqn:Ex.
  - cbn [existsb is_nil tl orb delim_first]. rewrite Ex. cbn [orb andb]. split; [reflexivity|].
    rewrite IH1. destruct (is_nil w) eqn:En.
    + destruct w; [reflexivity|discriminate].
    + cbn [orb]. destruct (delim_first w), (delim_last w), (delim_twice w); reflexivity.
  - destruct (split_on DELIM w) as [|s ss] eqn:Es.
    + exfalso. eapply split_on_nonempty; eauto.
    + cbn [existsb is_nil tl orb delim_first andb] in *. rewrite Ex.
      cbn [orb]. rewrite IH2.
      destruct (is_nil w) eqn:En; [destruct w; [|discriminate]|];
        split; reflexivity.
Qed.

(** * When does the collapse strip the delimiters *)




(** * Membership *)

Lemma mem_set (d : stats_t) k (x : Z) q :
  Dict.mem pair_eqb (Dict.set pair_eqb d k x) q = pair_eqb k q || Dict.mem pair_eqb d q.
Proof.
  unfold Dict.mem. destruct (pair_eqb k q) eqn:E.
  - apply pair_eqb_eq in E. subst. now rewrite (get_set_same _ pair_eqb_eq).
  - rewrite (get_set_other _ pair_eqb_eq); [reflexivity|].
    intros ->. rewrite pair_eqb_refl in E. discriminate.
Qed.

Lemma mem_bumps ps : forall st j df dc q,
  Dict.mem pair_eqb (fst (bumps st ps j df dc)) q
  = Dict.mem pair_eqb (fst st) q || existsb (pair_eqb q) ps.
Proof.
  induction ps as [|p ps IH]; intros st j df dc q.
  - cbn. now rewrite orb_false_r.
  - unfold bumps in *. cbn [fold_left existsb]. rewrite IH. cbn [bump fst].
    unfold stats_add. rewrite mem_set, (pair_eqb_sym q p).
    destruct (pair_eqb p q), (Dict.mem pair_eqb (fst st) q); reflexivity.
Qed.

Lemma mem_false_stat (d : stats_t) q : Dict.mem pair_eqb d q = false -> stat_of d q = 0%Z.
Proof. unfold Dict.mem, stat_of. now destruct (Dict.get pair_eqb d q). Qed.

Lemma existsb_occ q ps : existsb (pair_eqb q) ps = false -> occ q ps = 0%Z.
Proof.
  intros H. apply occ_notin. intros Hin.
  assert (existsb (pair_eqb q) ps = true); [|congruence].
  apply existsb_exists. exists q. split; [assumption|apply pair_eqb_refl].
Qed.

Lemma existsb_occ_pos q ps : existsb (pair_eqb q) ps = true -> (1 <= occ q ps)%Z.
Proof.
  induction ps as [|p ps IH]; [discriminate|].
  cbn [existsb]. rewrite occ_cons. unfold delta. rewrite (pair_eqb_sym q p).
  pose proof (occ_nonneg q ps).
  destruct (pair_eqb p q); [lia|]. cbn [orb]. intros H'. specialize (IH H'). lia.
Qed.

Lemma existsb_in q ps : existsb (pair_eqb q) ps = true -> In q ps.
Proof.
  intros H. apply existsb_exists in H. destruct H as [p [H1 H2]].
  apply pair_eqb_eq in H2. now subst.
Qed.

(** * What the events are *)

Lemma in_inc_events N p s : forall prev,
  In p (inc_events N (is_sym N prev) prev s) -> involves N p = true.
Proof.
  induction s as [|a s IH]; intros prev; [intros []|].
  cbn [inc_events]. intros H. apply in_app_or in H. destruct H as [H|H].
  - destruct (String.eqb a N || is_sym N prev) eqn:E; [|destruct H].
    destruct prev as [x|]; [|destruct H]. cbn [keep_prev] in H. apply in_keep in H.
    subst p. unfold involves. cbn [fst snd is_sym] in *.
    rewrite orb_comm. exact E.
  - apply (IH (Some a)). exact H.
Qed.

Lemma in_dec_events_pairs L R p : forall s merged prev,
  In p (dec_events L R merged prev s) -> In p (pairs_of (with_prev prev s)).
Proof.
  assert (Hk : forall prev a s, In p (keep_prev prev a) ->
                 In p (pairs_of (with_prev prev (a :: s)))).
  { intros prev a s H. rewrite pairs_of_with_prev. apply in_or_app. now left. }
  assert (Hs : forall prev a s, In p (pairs_of (a :: s)) ->
                 In p (pairs_of (with_prev prev (a :: s)))).
  { intros prev a s H. rewrite pairs_of_with_prev. apply in_or_app. now right. }
  intros s. pattern s. apply (merge_ind L R); clear s.
  - intros merged prev [].
  - intros a merged prev. cbn [dec_events]. destruct merged; [apply Hk|intros []].
  - intros rest IH merged prev. rewrite dec_hit. intros H.
    apply in_app_or in H. destruct H as [H|H]; [now apply Hk|].
    apply IH in H. cbn [with_prev] in H. apply Hs.
    rewrite pairs_of_keep. apply in_or_app. now right.
  - intros a b rest E IH merged prev. rewrite dec_miss by assumption. intros H.
    apply in_app_or in H. destruct H as [H|H].
    + destruct merged; [now apply Hk|destruct H].
    + apply IH in H. cbn [with_prev] in H. now apply Hs.
Qed.

(** * prune_stats *)

Lemma below_mono a b t : (a <= b)%Z -> below b t = true -> below a t = true.
Proof.
  unfold below. intros H Hb. apply Z.ltb_lt in Hb. apply Z.ltb_lt.
  pose proof (Pos2Z.is_pos (Qden t)). nia.
Qed.

Lemma get_stat_add (big : stats_t) k x :
  Dict.get pair_eqb (stats_add big k x) k = Some (stat_of big k + x)%Z.
Proof. unfold stats_add. apply (get_set_same _ pair_eqb_eq). Qed.

Lemma prune_loop_spec thr items : forall (s big : stats_t),
  NoDup (map fst items) -> NoDup (map fst s) -> NoDup (map fst big) ->
  (forall k x, In (k, x) items -> Dict.get pair_eqb s k = Some x) ->
  NoDup (map fst (fst (prune_loop items s big thr))) /\
  NoDup (map fst (snd (prune_loop items s big thr))) /\
  forall q,
    Dict.get pair_eqb (fst (prune_loop items s big thr)) q =
      match Dict.get pair_eqb items q with
      | Some x => if below x thr then None else Dict.get pair_eqb s q
      | None => Dict.get pair_eqb s q
      end
    /\ Dict.get pair_eqb (snd (prune_loop items s big thr)) q =
      match Dict.get pair_eqb items q with
      | Some x => if below x thr then Some (pruned_value big q x)
                  else Dict.get pair_eqb big q
      | None => Dict.get pair_eqb big q
      end.
Proof.
  induction items as [|[k x] items IH]; intros s big Hni Hns Hnb Hin.
  - cbn. auto.
  - cbn [map fst] in Hni. inversion Hni as [|? ? Hk Hni']; subst.
    assert (Hk' : Dict.get pair_eqb items k = None)
      by now apply (get_none_notin pair_eqb pair_eqb_eq).
    cbn [prune_loop]. destruct (below x thr) eqn:Eb.
    + set (big1 := if (x <? 0)%Z then stats_add big k x else Dict.set pair_eqb big k x).
      assert (Hnb1 : NoDup (map fst big1)).
      { unfold big1, stats_add. destruct (x <? 0)%Z; now apply (nodup_set pair_eqb pair_eqb_eq). }
      assert (Hin1 : forall k' x', In (k', x') items ->
                Dict.get pair_eqb (Dict.del pair_eqb s k) k' = Some x').
      { intros k' x' H. rewrite (get_del_other _ pair_eqb_eq).
        - apply Hin. now right.
        - intros <-. apply Hk. apply in_map_iff. exists (k, x'). auto. }
      destruct (IH (Dict.del pair_eqb s k) big1 Hni'
                  (nodup_del pair_eqb _ _ Hns) Hnb1 Hin1) as [H1 [H2 H3]].
      split; [exact H1|]. split; [exact H2|]. intros q. destruct (H3 q) as [A B].
      rewrite A, B. cbn [Dict.get]. destruct (pair_eqb k q) eqn:Eq.
      * apply pair_eqb_eq in Eq. subst q. rewrite Hk', Eb.
        rewrite (get_del_same _ pair_eqb_eq) by assumption. split; [reflexivity|].
        unfold big1, pruned_value. destruct (x <? 0)%Z.
        -- apply get_stat_add.
        -- apply (get_set_same _ pair_eqb_eq).
      * assert (Hne : k <> q).
        { intros ->. rewrite pair_eqb_refl in Eq. discriminate. }
        rewrite (get_del_other _ pair_eqb_eq) by assumption.
        assert (Hb1 : Dict.get pair_eqb big1 q = Dict.get pair_eqb big q).
        { unfold big1, stats_add. destruct (x <? 0)%Z;
            now rewrite (get_set_other _ pair_eqb_eq). }
        assert (Hp : forall y, pruned_value big1 q y = pruned_value big q y).
        { intros y. unfold pruned_value, stat_of. now rewrite Hb1. }
        rewrite Hb1. split; [reflexivity|].
        destruct (Dict.get pair_eqb items q); [|reflexivity]. now rewrite Hp.
    + destruct (IH s big Hni' Hns Hnb (fun k' x' H => Hin k' x' (or_intror H)))
        as [H1 [H2 H3]].
      split; [exact H1|]. split; [exact H2|]. intros q. destruct (H3 q) as [A B].
      rewrite A, B. cbn [Dict.get]. destruct (pair_eqb k q) eqn:Eq; [|auto].
      apply pair_eqb_eq in Eq. subst q. rewrite Hk', Eb. auto.
Qed.

Lemma prune_stats_spec thr (s big : stats_t) :
  NoDup (map fst s) -> NoDup (map fst big) ->
  NoDup (map fst (fst (prune_stats s big thr))) /\
  NoDup (map fst (snd (prune_stats s big thr))) /\
  forall q,
    Dict.mem pair_eqb (fst (prune_stats s big thr)) q
      = Dict.mem pair_eqb s q && negb (below (stat_of s q) thr)
    /\ Dict.mem pair_eqb (snd (prune_stats s big thr)) q
      = Dict.mem pair_eqb big q || (Dict.mem pair_eqb s q && below (stat_of s q) thr)
    /\ deferred (fst (prune_stats s big thr)) (snd (prune_stats s big thr)) q
      = deferred s big q.
Proof.
  intros Hns Hnb. unfold prune_stats.
  destruct (prune_loop_spec thr s s big Hns Hns Hnb
              (fun k x H => get_in pair_eqb pair_eqb_eq s k x Hns H)) as [H1 [H2 H3]].
  split; [exact H1|]. split; [exact H2|]. intros q. destruct (H3 q) as [A B].
  unfold deferred, Dict.mem, stat_of. rewrite A, B.
  destruct (Dict.get pair_eqb s q) as [x|] eqn:Es.
  - destruct (below x thr) eqn:Eb; cbn [andb negb orb].
    + rewrite orb_true_r. split; [reflexivity|]. split; [reflexivity|].
      unfold pruned_value, stat_of. destruct (x <? 0)%Z; reflexivity.
    + rewrite orb_false_r. split; [reflexivity|]. split; reflexivity.
  - cbn [andb negb orb]. rewrite orb_false_r. split; [reflexivity|]. split; reflexivity.
Qed.

(** * The selection *)

Lemma unseen_mem N (d : stats_t) q :
  unseen N d = true -> Dict.mem pair_eqb d q = true -> involves N q = false.
Proof.
  unfold unseen, Dict.mem. intros Hu Hm.
  destruct (Dict.get pair_eqb d q) as [x|] eqn:E; [|discriminate].
  apply (get_some_in pair_eqb pair_eqb_eq) in E.
  rewrite forallb_forall in Hu. specialize (Hu _ E). cbn [fst] in Hu.
  now apply negb_true_iff in Hu.
Qed.

Lemma select_deferred i st st' mf :
  select i st = Ok (st', mf) ->
  (0 <= i)%Z ->
  NoDup (map fst (stats st)) -> NoDup (map fst (big_stats st)) ->
  (forall q, (0 <= deferred (stats st) (big_stats st) q)%Z) ->
  sorted_vocab st' = sorted_vocab st /\ indices st' = indices st /\
  output st' = output st /\ stderr st' = stderr st /\
  NoDup (map fst (stats st')) /\ NoDup (map fst (big_stats st')) /\
  Dict.mem pair_eqb (stats st') mf = true /\
  (forall q, deferred (stats st') (big_stats st') q = deferred (stats st) (big_stats st) q) /\
  (forall q, seen (stats st) (big_stats st) q -> seen (stats st') (big_stats st') q).
Proof.
  intros Hsel Hi Hns Hnb Hpos. unfold select in Hsel.
  set (mfo := match stats st with [] => None | _ :: _ => Some (max_key (stats st)) end) in Hsel.
  set (repair := match mfo with
                 | Some (Ok mf) => negb (i =? 0)%Z && below (stat_of (stats st) mf) (threshold st)
                 | _ => true
                 end) in Hsel.
  destruct repair eqn:Er.
  - (* repair: everything in the working table is below the threshold *)
    assert (Hall : forall q, Dict.mem pair_eqb (stats st) q = true ->
                             below (stat_of (stats st) q) (threshold st) = true).
    { intros q Hq. subst repair mfo. destruct (stats st) as [|e d] eqn:Es; [discriminate|].
      rewrite <- Es in *. destruct (max_key (stats st)) as [mf0|] eqn:Em.
      2:{ rewrite Es in Em. destruct e. discriminate. }
      apply andb_true_iff in Er. destruct Er as [_ Er].
      destruct (max_key_spec _ _ Hns Em) as [_ Hmax].
      eapply below_mono; [apply Hmax; exact Hq|exact Er]. }
    destruct (prune_stats_spec (threshold st) (stats st) (big_stats st) Hns Hnb)
      as [N1 [N2 P1]].
    destruct (prune_stats (stats st) (big_stats st) (threshold st)) as [s1 big1] eqn:E1.
    cbn [fst snd] in *.
    assert (Hs1 : forall q, Dict.mem pair_eqb s1 q = false).
    { intros q. destruct (P1 q) as [A _]. rewrite A.
      destruct (Dict.mem pair_eqb (stats st) q) eqn:Em; [|reflexivity].
      now rewrite (Hall q Em). }
    assert (Hb1 : forall q, stat_of big1 q = deferred (stats st) (big_stats st) q).
    { intros q. destruct (P1 q) as [_ [_ C]]. rewrite <- C. unfold deferred.
      now rewrite Hs1. }
    assert (Hd1 : forall q, deferred big1 big1 q = deferred (stats st) (big_stats st) q).
    { intros q. unfold deferred at 1. rewrite Hb1. specialize (Hpos q).
      replace (deferred (stats st) (big_stats st) q <? 0)%Z with false
        by (symmetry; apply Z.ltb_ge; lia).
      now destruct (Dict.mem pair_eqb big1 q). }
    destruct (max_key big1) as [mf1|] eqn:Em; [|discriminate]. cbn [bind] in Hsel.
    set (thr := Qmake (stat_of big1 mf1 * i) (Z.to_pos (i + 10000))) in Hsel.
    destruct (prune_stats_spec thr big1 big1 N2 N2) as [N3 [N4 P3]].
    destruct (prune_stats big1 big1 thr) as [s3 big3] eqn:E3.
    cbn [fst snd] in *. injection Hsel as <- <-. cbn.
    repeat split; auto.
    + destruct (P3 mf1) as [A _]. rewrite A.
      destruct (max_key_spec _ _ N2 Em) as [Hm _]. rewrite Hm. cbn [andb].
      apply negb_true_iff. unfold below, thr. cbn [Qnum Qden].
      apply Z.ltb_ge. rewrite Z2Pos.id by lia.
      pose proof (Hpos mf1) as H0. rewrite <- Hb1 in H0. nia.
    + intros q. destruct (P3 q) as [_ [_ C]]. now rewrite C, Hd1.
    + intros q Hq. right. destruct (P3 q) as [_ [B _]]. rewrite B.
      destruct (P1 q) as [_ [B1 _]]. rewrite B1.
      destruct Hq as [Hq|Hq].
      * rewrite Hq, (Hall q Hq). cbn. now rewrite orb_true_r.
      * now rewrite Hq.
  - subst repair. destruct mfo as [[mf0|e]|] eqn:Emf; try discriminate.
    injection Hsel as <- <-.
    repeat split; auto.
    unfold mfo in Emf. destruct (stats st) as [|e d] eqn:Es; [discriminate|].
    rewrite <- Es in *. injection Emf as Emf.
    now destruct (max_key_spec _ _ Hns Emf).
Qed.

Lemma touch_rel_refl inv m x : touch_rel inv m x m x 0.
Proof. unfold touch_rel. destruct inv; repeat split; auto; lia. Qed.

Lemma touch_rel_trans inv m x m1 x1 d1 m2 x2 d2 :
  touch_rel inv m x m1 x1 d1 -> touch_rel inv m1 x1 m2 x2 d2 ->
  touch_rel inv m x m2 x2 (d1 + d2).
Proof.
  unfold touch_rel. intros [A1 [A2 A3]] [B1 [B2 B3]].
  split; [lia|]. split; [destruct inv; lia|].
  destruct A3 as [[-> ->]|[-> A3]], B3 as [[-> ->]|[-> B3]].
  - left. split; [reflexivity|lia].
  - right. split; [reflexivity|]. destruct B3 as [->|B3]; [now left|right; lia].
  - right. split; [reflexivity|]. destruct A3 as [->|A3]; [now left|right; lia].
  - right. split; [reflexivity|]. destruct inv; [now left|right; lia].
Qed.

Lemma existsb_occ_cases q ps :
  if existsb (pair_eqb q) ps then (1 <= occ q ps)%Z else occ q ps = 0%Z.
Proof.
  destruct (existsb (pair_eqb q) ps) eqn:E;
    [now apply existsb_occ_pos|now apply existsb_occ].
Qed.

Section Touch.
Variables L R : symbol.
Let N : symbol := (L ++ R)%string.
Hypothesis L_plain : is_delim L = false.
Hypothesis R_plain : is_delim R = false.
Hypothesis N_plain : is_delim N = false.

Lemma update_word_touch j w f st q :
  ~ In N w -> (0 < f)%Z -> q <> (L, R) ->
  exists st',
    update_word L R (j, merge_pair L R w, w, f) st = Ok st' /\
    touch_rel (involves N q)
      (Dict.mem pair_eqb (fst st) q) (stat_of (fst st) q)
      (Dict.mem pair_eqb (fst st') q) (stat_of (fst st') q)
      (f * (cnt q (merge_pair L R w) - cnt q w)).
Proof.
  intros Hfresh Hf Hq. unfold update_word.
  rewrite (has_delim_merge L R L_plain R_plain N_plain w).
  replace (has_delim w && negb (has_delim w)) with false by now destruct (has_delim w).
  rewrite else_branch_events. fold N. eexists. split; [reflexivity|].
  unfold touch_rel. rewrite !mem_bumps, !stat_of_bumps.
  rewrite (else_branch_balance L R q w Hq Hfresh). fold N.
  set (od := occ q (dec_events L R false None w)).
  set (oi := occ q (inc_events N false None (merge_pair L R w))).
  assert (Hod : (0 <= od)%Z) by apply occ_nonneg.
  assert (Hoi : (0 <= oi)%Z) by apply occ_nonneg.
  assert (Hed : if existsb (pair_eqb q) (dec_events L R false None w)
                then (1 <= od)%Z else od = 0%Z) by apply existsb_occ_cases.
  assert (Hei : if existsb (pair_eqb q) (inc_events N false None (merge_pair L R w))
                then (1 <= oi)%Z else oi = 0%Z) by apply existsb_occ_cases.
  remember (existsb (pair_eqb q) (dec_events L R false None w)) as ed eqn:Ed.
  remember (existsb (pair_eqb q) (inc_events N false None (merge_pair L R w))) as ei eqn:Ee.
  symmetry in Ed, Ee.
  split; [lia|].
  destruct (involves N q) eqn:Ei.
  - (* a pair with the new symbol: it is not in the old word *)
    assert (Hd0 : ed = false).
    { destruct ed; [|reflexivity]. exfalso.
      apply existsb_in in Ed. apply in_dec_events_pairs in Ed. cbn [with_prev] in Ed.
      apply Hfresh. eapply involves_in; [exact Ei|]. now apply in_pairs_of. }
    rewrite Hd0 in *. rewrite orb_false_r.
    replace (cnt q w) with 0%Z by (symmetry; now apply cnt_fresh with N).
    split; [nia|]. destruct ei.
    + right. rewrite orb_true_r. auto.
    + left. rewrite orb_false_r. split; [reflexivity|nia].
  - (* a pair without it: only decremented *)
    assert (Hi0 : ei = false).
    { destruct ei; [|reflexivity]. exfalso.
      apply existsb_in in Ee.
      pose proof (in_inc_events N q (merge_pair L R w) None) as H.
      cbn [is_sym] in H. rewrite (H Ee) in Ei. discriminate. }
    rewrite Hi0 in *. rewrite orb_false_r.
    split; [nia|]. destruct ed.
    + right. rewrite orb_true_r. split; [reflexivity|]. right. nia.
    + left. rewrite orb_false_r. split; [reflexivity|nia].
Qed.

Lemma update_changes_touch q cs :
  q <> (L, R) -> Forall (plain_change L R) cs ->
  forall st st',
    update_changes L R cs st = Ok st' ->
    touch_rel (involves N q)
      (Dict.mem pair_eqb (fst st) q) (stat_of (fst st) q)
      (Dict.mem pair_eqb (fst st') q) (stat_of (fst st') q)
      (delta_sum q cs).
Proof.
  intros Hq. induction cs as [|[[[j w'] w] f] cs IH]; intros Hs st st' E.
  - cbn [update_changes] in E. injection E as <-.
    cbn [delta_sum]. apply touch_rel_refl.
  - inversion Hs as [|? ? Hc Hs']; subst. destruct Hc as [-> [Hfresh Hf]].
    destruct (update_word_touch j w f st q Hfresh Hf Hq) as [st1 [E1 T1]].
    cbn [update_changes] in E. rewrite E1 in E. cbn [bind] in E.
    pose proof (IH Hs' st1 st' E) as T2.
    cbn [delta_sum]. eapply touch_rel_trans; eauto.
Qed.
End Touch.

Lemma update_word_nodup L R c st st' :
  update_word L R c st = Ok st' ->
  NoDup (map fst (fst st)) -> NoDup (map fst (fst st')).
Proof.
  destruct c as [[[j w'] w] f]. unfold update_word.
  destruct (has_delim w && negb (has_delim w')).
  - destruct w' as [|t rest]; [discriminate|].
    intros [= <-]. rewrite count_run_bumps. apply nodup_stats_bumps.
  - cbv zeta. rewrite else_branch_events. intros [= <-] H. now do 2 apply nodup_stats_bumps.
Qed.

Lemma update_changes_nodup L R cs : forall st st',
  update_changes L R cs st = Ok st' ->
  NoDup (map fst (fst st)) -> NoDup (map fst (fst st')).
Proof.
  induction cs as [|c cs IH]; intros st st' E H.
  - cbn [update_changes] in E. now injection E as <-.
  - cbn [update_changes] in E. destruct (update_word L R c st) as [st1|] eqn:E1; [|discriminate].
    cbn [bind] in E. eapply IH; [exact E|]. eapply update_word_nodup; eauto.
Qed.

(** * Frequencies *)

Lemma positive_nonneg v : positive_freqs v = true -> nonneg_freqs v = true.
Proof.
  unfold positive_freqs, nonneg_freqs. rewrite !forallb_forall.
  intros H e He. specialize (H e He). apply Z.ltb_lt in H. apply Z.leb_le. lia.
Qed.

Lemma positive_rewrite pr v : positive_freqs (rewrite_vocab pr v) = positive_freqs v.
Proof.
  induction v as [|[w f] v IH]; [reflexivity|].
  cbn [rewrite_vocab map fst snd]. fold (rewrite_vocab pr v).
  unfold positive_freqs in *. destruct (0 <? cnt pr w)%Z; cbn [forallb snd]; now rewrite IH.
Qed.

Lemma positive_in v w f : positive_freqs v = true -> In (w, f) v -> (0 < f)%Z.
Proof.
  unfold positive_freqs. rewrite forallb_forall. intros H Hin.
  specialize (H _ Hin). now apply Z.ltb_lt in H.
Qed.

Lemma true_freq_zero_cnt v q :
  positive_freqs v = true -> true_freq v q = 0%Z -> forall j, cnt q (word_at v j) = 0%Z.
Proof.
  induction v as [|[w f] v IH]; intros Hp H0 j.
  - unfold word_at. now destruct j.
  - unfold positive_freqs in Hp. cbn [forallb snd] in Hp.
    apply andb_true_iff in Hp. destruct Hp as [Hf Hp]. apply Z.ltb_lt in Hf.
    cbn [true_freq] in H0. pose proof (cnt_nonneg q w).
    pose proof (true_freq_nonneg v q (positive_nonneg v Hp)).
    assert (Hc0 : cnt q w = 0%Z) by nia.
    assert (Ht0 : true_freq v q = 0%Z) by nia.
    destruct j; [exact Hc0|]. apply (IH Hp Ht0 j).
Qed.

Lemma true_freq_fresh N v q :
  (forall w f, In (w, f) v -> ~ In N w) -> involves N q = true -> true_freq v q = 0%Z.
Proof.
  induction v as [|[w f] v IH]; intros H Hq; [reflexivity|].
  cbn [true_freq]. rewrite (cnt_fresh N q w Hq) by (eapply H; now left).
  rewrite IH; [lia| |exact Hq]. intros w' f' Hin. eapply H. right. exact Hin.
Qed.

(** * One table entry through a merge step *)

Lemma deferred_step inv m x m' x' d b t :
  touch_rel inv m x m' x' d ->
  (m = false -> x = 0%Z) ->
  (if m then (if (x <? 0)%Z then b + x else x) else b)%Z = t ->
  (0 <= t + d)%Z ->
  (inv = true -> m = false /\ t = 0%Z) ->
  (if m' then (if (x' <? 0)%Z then b + x' else x') else b)%Z = (t + d)%Z.
Proof.
  unfold touch_rel. intros [Hx [Hd Hm]] Hx0 Ht Hn Hi.
  destruct inv.
  - destruct (Hi eq_refl) as [-> ->]. rewrite (Hx0 eq_refl) in *. subst b.
    destruct Hm as [[-> ->]|[-> _]]; [reflexivity|].
    replace (x' <? 0)%Z with false by (symmetry; apply Z.ltb_ge; lia). lia.
  - destruct Hm as [[-> ->]|[-> [Hf|Hlt]]]; [|discriminate|].
    + replace x' with x by lia. lia.
    + destruct m.
      * destruct (x <? 0)%Z eqn:E.
        -- apply Z.ltb_lt in E.
           replace (x' <? 0)%Z with true by (symmetry; apply Z.ltb_lt; lia). lia.
        -- replace (x' <? 0)%Z with false by (symmetry; apply Z.ltb_ge; lia). lia.
      * rewrite (Hx0 eq_refl) in *.
        replace (x' <? 0)%Z with true by (symmetry; apply Z.ltb_lt; lia). lia.
Qed.

Lemma pair_eqb_neq p q : q <> p -> pair_eqb p q = false.
Proof.
  intros H. destruct (pair_eqb p q) eqn:E; [|reflexivity].
  apply pair_eqb_eq in E. congruence.
Qed.

Lemma no_collapse_in pr v w f :
  no_collapse pr v = true -> In (w, f) v ->
  collapse (merge_pair (fst pr) (snd pr) w) = merge_pair (fst pr) (snd pr) w.
Proof.
  unfold no_collapse. rewrite forallb_forall. intros H Hin.
  apply word_eqb_eq. apply (H _ Hin).
Qed.

(** * The merge step *)

Lemma merge_step_deferred pr v s big ix v' s' ix' :
  proper_step pr v = true -> no_collapse pr v = true ->
  unseen (fst pr ++ snd pr)%string s = true ->
  unseen (fst pr ++ snd pr)%string big = true ->
  positive_freqs v = true ->
  NoDup (map fst s) -> tidy ix ->
  (forall q, deferred s big q = true_freq v q) ->
  (forall q, idx_ok v s big ix q) ->
  (forall j, idx_of ix pr j = cnt pr (word_at v j)) ->
  merge_step pr (v, s, ix) = Ok (v', s', ix') ->
  NoDup (map fst s') /\ tidy ix' /\ positive_freqs v' = true /\
  (forall q, deferred s' big q = true_freq v' q) /\
  (forall q, idx_ok v' s' big ix' q).
Proof.
  intros Hp Hc Hus Hub Hpos Hnd Ht Hdef Hidx Hex Hstep.
  destruct (merge_step_changes pr v s ix Hp Ht Hex)
    as [new [s2 [ix2 [E [E2 [Hrec [T2 [Hfreq [B1 [B2 [B3 Hpr0]]]]]]]]]]].
  rewrite E in Hstep. injection Hstep as <- <- <-.
  destruct (proper_step_inv _ _ Hp) as [wfL [wfR [HL [HR [HN Hw]]]]].
  assert (Hplain : Forall (plain_change (fst pr) (snd pr)) new).
  { eapply Forall_impl; [|exact Hrec]. intros [[[j w'] w] f] [Ha [Hb _]].
    apply nth_error_In in Ha. destruct (Hw _ _ Ha) as [W1 [W2 [W3 W4]]].
    cbn [plain_change]. split; [|split; [exact W3|eapply positive_in; eauto]].
    rewrite Hb. destruct pr as [L R]. cbn [fst snd] in *.
    rewrite rewrite_word_merge by assumption.
    apply (no_collapse_in (L, R) v w f Hc Ha). }
  assert (Hpos' : positive_freqs (rewrite_vocab pr v) = true)
    by now rewrite positive_rewrite.
  assert (Hnn' : forall q, (0 <= true_freq (rewrite_vocab pr v) q)%Z)
    by (intros q; apply true_freq_nonneg, positive_nonneg, Hpos').
  assert (Hnd2 : NoDup (map fst s2)).
  { eapply update_changes_nodup in E2; [exact E2|]. cbn [fst].
    now apply (nodup_set pair_eqb pair_eqb_eq). }
  (* how an entry other than the merged pair moves *)
  assert (Htouch : forall q, q <> pr ->
            touch_rel (involves (fst pr ++ snd pr)%string q)
              (Dict.mem pair_eqb s q) (stat_of s q)
              (Dict.mem pair_eqb (Dict.set pair_eqb s2 pr 0%Z) q)
              (stat_of (Dict.set pair_eqb s2 pr 0%Z) q)
              (delta_sum q new)).
  { intros q Hq.
    assert (Hq' : q <> (fst pr, snd pr)) by now destruct pr.
    pose proof (update_changes_touch (fst pr) (snd pr) HL HR HN q new Hq' Hplain
                  _ _ E2) as T.
    cbn [fst snd] in T.
    rewrite !mem_set, !stat_of_set, (pair_eqb_neq pr q Hq).
    rewrite mem_set, stat_of_set, (pair_eqb_neq pr q Hq) in T. exact T. }
  assert (Hfresh : forall q, involves (fst pr ++ snd pr)%string q = true ->
                             true_freq v q = 0%Z).
  { intros q Hq. apply (true_freq_fresh (fst pr ++ snd pr)%string); [|exact Hq].
    intros w f Hin. now destruct (Hw _ _ Hin) as [_ [_ [? _]]]. }
  split; [now apply (nodup_set pair_eqb pair_eqb_eq)|]. split; [exact T2|].
  split; [exact Hpos'|]. split.
  - (* the deferred reading *)
    intros q. destruct (pair_eqb pr q) eqn:Eq.
    + apply pair_eqb_eq in Eq. subst q. unfold deferred.
      rewrite mem_set, pair_eqb_refl, stat_of_set, pair_eqb_refl. cbn. now rewrite Hpr0.
    + assert (Hq : q <> pr).
      { intros ->. rewrite pair_eqb_refl in Eq. discriminate. }
      rewrite Hfreq. unfold deferred.
      apply (deferred_step _ _ _ _ _ _ _ _ (Htouch q Hq)).
      * apply mem_false_stat.
      * apply Hdef.
      * rewrite <- Hfreq. apply Hnn'.
      * intros Hi. split; [|now apply Hfresh].
        destruct (Dict.mem pair_eqb s q) eqn:Em; [|reflexivity].
        rewrite (unseen_mem _ _ _ Hus Em) in Hi. discriminate.
  - (* the index *)
    intros q. destruct (pair_eqb pr q) eqn:Eq.
    + apply pair_eqb_eq in Eq. subst q. right. split; [exact Hpr0|]. split; [|exact B3].
      left. now rewrite mem_set, pair_eqb_refl.
    + assert (Hq : q <> pr).
      { intros ->. rewrite pair_eqb_refl in Eq. discriminate. }
      destruct (Hidx q) as [Hexq|[H0 [Hseen Hle]]].
      * left. intros j. rewrite (B2 q j Hq), Hexq. lia.
      * right.
        assert (Hni : involves (fst pr ++ snd pr)%string q = false).
        { destruct Hseen as [Hm|Hm];
            [exact (unseen_mem _ _ _ Hus Hm)|exact (unseen_mem _ _ _ Hub Hm)]. }
        assert (H0' : true_freq (rewrite_vocab pr v) q = 0%Z).
        { pose proof (true_freq_rewrite_le pr v q Hp Hc (positive_nonneg v Hpos)) as Hle'.
          rewrite Hni in Hle'. specialize (Hnn' q). lia. }
        split; [exact H0'|]. split.
        -- destruct Hseen as [Hm|Hm]; [left|now right].
           destruct (Htouch q Hq) as [_ [_ [[-> _]|[-> _]]]]; [exact Hm|reflexivity].
        -- intros j. rewrite (B2 q j Hq).
           rewrite (true_freq_zero_cnt _ _ Hpos' H0' j), (true_freq_zero_cnt _ _ Hpos H0 j).
           specialize (Hle j). lia.
Qed.

(** * Pruning *)

Lemma prune_stats_inv v s big ix thr s' big' :
  prune_stats s big thr = (s', big') ->
  NoDup (map fst s) -> NoDup (map fst big) ->
  (forall q, deferred s big q = true_freq v q) ->
  (forall q, idx_ok v s big ix q) ->
  NoDup (map fst s') /\ NoDup (map fst big') /\
  (forall q, deferred s' big' q = true_freq v q) /\
  (forall q, idx_ok v s' big' ix q).
Proof.
  intros E Hns Hnb Hdef Hidx.
  destruct (prune_stats_spec thr s big Hns Hnb) as [N1 [N2 P]].
  rewrite E in N1, N2, P. cbn [fst snd] in *.
  split; [exact N1|]. split; [exact N2|]. split.
  - intros q. destruct (P q) as [_ [_ C]]. now rewrite C.
  - intros q. destruct (Hidx q) as [H|[H0 [Hseen Hle]]]; [now left|right].
    split; [exact H0|]. split; [|exact Hle].
    destruct (P q) as [A [B _]]. unfold seen. rewrite A, B.
    destruct Hseen as [Hm|Hm]; rewrite Hm.
    + destruct (below (stat_of s q) thr); [right|left]; cbn; auto using orb_true_r.
    + now right.
Qed.

(** * The loop *)

Lemma iteration_inv args i st st' stop :
  (0 <= i)%Z -> (1 <= min_frequency args)%Z ->
  run_inv st ->
  iteration args i st = Ok (st', stop) ->
  (forall st1 mf, select i st = Ok (st1, mf) -> stop = false -> clean_step mf st1 = true) ->
  run_inv st'.
Proof.
  intros Hi Hmin [Hns [Hnb [Ht [Hpos [Hdef Hidx]]]]] Hit Hclean.
  unfold iteration in Hit.
  destruct (select i st) as [[st1 mf]|] eqn:Es; [|discriminate].
  cbn [bind] in Hit. specialize (Hclean st1 mf eq_refl).
  assert (Hnn : forall q, (0 <= deferred (stats st) (big_stats st) q)%Z).
  { intros q. rewrite Hdef. apply true_freq_nonneg, positive_nonneg, Hpos. }
  destruct (select_deferred i st st1 mf Es Hi Hns Hnb Hnn)
    as [Sv [Si [_ [_ [Ns1 [Nb1 [Hmem [Sd Ss]]]]]]]].
  rewrite Hmem in Hit.
  assert (Hdef1 : forall q, deferred (stats st1) (big_stats st1) q
                            = true_freq (sorted_vocab st1) q).
  { intros q. now rewrite Sd, Sv. }
  assert (Hidx1 : forall q, idx_ok (sorted_vocab st1) (stats st1) (big_stats st1)
                              (indices st1) q).
  { intros q. rewrite Sv, Si. destruct (Hidx q) as [H|[H0 [Hseen Hle]]]; [now left|right].
    split; [exact H0|]. split; [now apply Ss|exact Hle]. }
  destruct (stat_of (stats st1) mf <? min_frequency args)%Z eqn:Ef.
  - injection Hit as <- <-. unfold run_inv.
    cbn [stats big_stats indices sorted_vocab].
    rewrite Sv, Si in *. repeat split; auto.
  - apply Z.ltb_ge in Ef.
    destruct (merge_step mf (sorted_vocab st1, stats st1, indices st1))
      as [[[v' s3] ix2]|] eqn:Em; [|discriminate].
    cbn [bind] in Hit.
    destruct (if (i mod 100 =? 0)%Z
              then prune_stats s3 (big_stats st1) (threshold st1)
              else (s3, big_stats st1)) as [s4 big4] eqn:Ep.
    injection Hit as <- <-. specialize (Hclean eq_refl).
    unfold clean_step in Hclean. rewrite !andb_true_iff in Hclean.
    destruct Hclean as [[[Cp Cc] Cs] Cb].
    assert (Hexact : forall j, idx_of (indices st1) mf j
                               = cnt mf (word_at (sorted_vocab st1) j)).
    { destruct (Hidx1 mf) as [H|[H0 _]]; [exact H|]. exfalso.
      specialize (Hdef1 mf). unfold deferred in Hdef1. rewrite Hmem in Hdef1.
      replace (stat_of (stats st1) mf <? 0)%Z with false in Hdef1
        by (symmetry; apply Z.ltb_ge; lia).
      lia. }
    assert (Hpos1 : positive_freqs (sorted_vocab st1) = true) by now rewrite Sv.
    assert (Ht1 : tidy (indices st1)) by now rewrite Si.
    destruct (merge_step_deferred mf _ _ (big_stats st1) _ _ _ _
                Cp Cc Cs Cb Hpos1 Ns1 Ht1 Hdef1 Hidx1 Hexact Em)
      as [N3 [T3 [P3 [D3 I3]]]].
    unfold run_inv. cbn [stats big_stats indices sorted_vocab].
    destruct (i mod 100 =? 0)%Z.
    + destruct (prune_stats_inv v' s3 (big_stats st1) ix2 (threshold st1) s4 big4
                  Ep N3 Nb1 D3 I3) as [N4 [N5 [D4 I4]]].
      repeat split; auto.
    + injection Ep as <- <-. repeat split; auto.
Qed.

Lemma loop_run_inv args n : forall i st st',
  (0 <= i)%Z -> (1 <= min_frequency args)%Z ->
  run_inv st -> clean_loop args n i st = true ->
  loop args n i st = Ok st' -> run_inv st'.
Proof.
  induction n as [|n IH]; intros i st st' Hi Hmin Hinv Hc Hl.
  - cbn [loop] in Hl. now injection Hl as <-.
  - cbn [loop] in Hl. cbn [clean_loop] in Hc.
    destruct (iteration args i st) as [[st1 stop]|] eqn:Eit; [|discriminate].
    cbn [bind] in Hl.
    assert (Hinv1 : run_inv st1).
    { apply (iteration_inv args i st st1 stop Hi Hmin Hinv Eit).
      intros st2 mf Es Hstop. rewrite Es in Hc. subst stop.
      now apply andb_true_iff in Hc. }
    destruct stop.
    + now injection Hl as <-.
    + apply (IH (i + 1)%Z st1 st'); auto; [lia|].
      destruct (select i st) as [[st2 mf]|] eqn:Es.
      * now apply andb_true_iff in Hc.
      * exfalso. unfold iteration in Eit. rewrite Es in Eit. discriminate.
Qed.

Lemma initial_run_inv v st :
  positive_freqs v = true -> initial_state v = Ok st -> run_inv st.
Proof.
  intros Hpos. unfold initial_state.
  destruct (get_pair_statistics v) as [[s0 ix0]|] eqn:Eg; [|discriminate].
  cbn [bind]. unfold max_value.
  destruct (max_key s0) as [k|e] eqn:Ek; [|discriminate].
  cbn [bind]. intros [= <-].
  destruct (get_pair_statistics_exact _ _ _ Eg) as [Hs Hi].
  rewrite get_pair_statistics_eq in Eg. destruct (all_spans_ok v); [|discriminate].
  injection Eg as Eg.
  assert (Hnd : NoDup (map fst s0)).
  { replace s0 with (fst (recount 0 v ([], []))) by now rewrite Eg.
    apply nodup_stats_recount. constructor. }
  assert (Hti : tidy ix0).
  { replace ix0 with (snd (recount 0 v ([], []))) by now rewrite Eg.
    apply tidy_recount, tidy_nil. }
  unfold run_inv. cbn [stats big_stats indices sorted_vocab].
  repeat split; auto.
  - intros q. unfold deferred. rewrite Hs.
    pose proof (true_freq_nonneg v q (positive_nonneg v Hpos)).
    replace (true_freq v q <? 0)%Z with false by (symmetry; apply Z.ltb_ge; lia).
    now destruct (Dict.mem pair_eqb s0 q).
  - intros q. left. intros j. apply Hi.
Qed.

(** * Selections along a sequence of merges *)

Lemma nonneg_rewrite pr v : nonneg_freqs (rewrite_vocab pr v) = nonneg_freqs v.
Proof.
  induction v as [|[w f] v IH]; [reflexivity|].
  cbn [rewrite_vocab map fst snd]. fold (rewrite_vocab pr v).
  unfold nonneg_freqs in *. destruct (0 <? cnt pr w)%Z; cbn [forallb snd]; now rewrite IH.
Qed.

Lemma nonneg_rewrite_all ps : forall v, nonneg_freqs (rewrite_all ps v) = nonneg_freqs v.
Proof.
  induction ps as [|p ps IH]; intros v; [reflexivity|].
  cbn [rewrite_all fold_left]. fold (rewrite_all ps (rewrite_vocab p v)).
  now rewrite IH, nonneg_rewrite.
Qed.

Lemma proper_run_app ps qs : forall v,
  proper_run (ps ++ qs) v = true ->
  proper_run ps v = true /\ proper_run qs (rewrite_all ps v) = true
  /\ forall p, In p ps -> ~ In p qs.
Proof.
  induction ps as [|p ps IH]; intros v H.
  - cbn in *. repeat split; auto.
  - cbn [app proper_run] in H. rewrite !andb_true_iff, negb_true_iff in H.
    destruct H as [[Hp Hn] Hr]. destruct (IH _ Hr) as [H1 [H2 H3]].
    rewrite existsb_app in Hn. apply orb_false_iff in Hn. destruct Hn as [Hn1 Hn2].
    cbn [proper_run rewrite_all fold_left]. rewrite Hp, Hn1, H1.
    split; [reflexivity|]. split; [exact H2|].
    intros p' [<-|Hin]; [|now apply H3].
    intros Hq. assert (existsb (pair_eqb p) qs = true); [|congruence].
    apply existsb_exists. exists p. split; [assumption|apply pair_eqb_refl].
Qed.

Lemma merge_step_nodup pr v s ix v' s' ix' :
  merge_step pr (v, s, ix) = Ok (v', s', ix') ->
  NoDup (map fst s) -> NoDup (map fst s').
Proof.
  unfold merge_step. intros E Hn.
  destruct (replace_pair pr v ix) as [[[v1 ix1] cs]|] eqn:E1; [|discriminate].
  cbn [bind] in E. unfold update_pair_statistics in E.
  destruct (update_changes (fst pr) (snd pr) cs
              (Dict.set pair_eqb s pr 0%Z, Dict.set pair_eqb ix1 pr []))
    as [[s2 ix2]|] eqn:E2; [|discriminate].
  cbn [bind] in E. injection E as <- <- <-.
  apply (nodup_set pair_eqb pair_eqb_eq).
  apply (update_changes_nodup _ _ _ _ _ E2). cbn [fst].
  now apply (nodup_set pair_eqb pair_eqb_eq).
Qed.

Lemma run_merges_nodup ps : forall v s ix v' s' ix',
  run_merges ps (v, s, ix) = Ok (v', s', ix') ->
  NoDup (map fst s) -> NoDup (map fst s').
Proof.
  induction ps as [|p ps IH]; intros v s ix v' s' ix' E Hn.
  - cbn in E. now injection E as <- <- <-.
  - cbn [run_merges] in E.
    destruct (merge_step p (v, s, ix)) as [[[v1 s1] ix1]|] eqn:E1; [|discriminate].
    cbn [bind] in E. eapply IH; [exact E|]. eapply merge_step_nodup; eauto.
Qed.

(** The largest value of an exact table bounds every true frequency. *)
Lemma max_key_bound (s : stats_t) v p :
  NoDup (map fst s) -> nonneg_freqs v = true ->
  (forall q, stat_of s q = true_freq v q) ->
  max_key s = Ok p ->
  forall q, (true_freq v q <= true_freq v p)%Z.
Proof.
  intros Hn Hf Hs Hm q. destruct (max_key_spec s p Hn Hm) as [_ Hmax].
  rewrite <- !Hs. destruct (Dict.mem pair_eqb s q) eqn:Em.
  - now apply Hmax.
  - rewrite (mem_false_stat _ _ Em), Hs. now apply true_freq_nonneg.
Qed.

(** * The run, pass by pass *)

Lemma update_changes_tidy L R cs : forall st st',
  update_changes L R cs st = Ok st' -> tidy (snd st) -> tidy (snd st').
Proof.
  induction cs as [|c cs IH]; intros st st' E H.
  - cbn [update_changes] in E. now injection E as <-.
  - cbn [update_changes] in E. destruct (update_word L R c st) as [st1|] eqn:E1; [|discriminate].
    cbn [bind] in E. eapply IH; [exact E|]. eapply update_word_tidy; eauto.
Qed.

Lemma tidy_set ix p : tidy ix -> tidy (Dict.set pair_eqb ix p []).
Proof.
  intros H q. rewrite inner_of_set. destruct (pair_eqb p q); [constructor|apply H].
Qed.

Lemma tidy_touch ix p : tidy ix -> tidy (touch ix p).
Proof. intros H q. rewrite inner_of_touch. apply H. Qed.

(** One merge, on an index that is in range and lists no position twice. *)
Lemma merge_step_in_place pr v s ix :
  keys_bounded (List.length v) ix -> tidy ix ->
  exists v' s' ix',
    merge_step pr (v, s, ix) = Ok (v', s', ix')
    /\ keys_bounded (List.length v') ix' /\ tidy ix'
    /\ map snd v' = map snd v
    /\ (NoDup (map fst s) -> NoDup (map fst s'))
    /\ forall j,
         nth_error v' j =
         match nth_error v j with
         | Some (w, f) => Some (if (1 <=? idx_of ix pr j)%Z then rewrite_word pr w else w, f)
         | None => None
         end.
Proof.
  intros Hk Ht.
  destruct (merge_step_total pr v s ix Hk) as [v' [s' [ix' [E [Hf K']]]]].
  exists v', s', ix'. split; [exact E|]. split; [exact K'|].
  pose proof (fun Hn => merge_step_nodup pr v s ix v' s' ix' E Hn) as Hnd.
  unfold merge_step, replace_pair in E.
  destruct (replace_loop_spec pr (inner_of ix pr) v [] (Ht pr))
    as [v1 [new [E1 [_ [Hnth _]]]]].
  { intros j c Hin _. apply (Hk pr). apply in_map_iff. now exists (j, c). }
  rewrite E1 in E. cbn [bind app] in E. unfold update_pair_statistics in E.
  destruct (update_changes (fst pr) (snd pr) new
              (Dict.set pair_eqb s pr 0%Z, Dict.set pair_eqb (touch ix pr) pr []))
    as [[s2 ix2]|] eqn:E2; [|discriminate].
  cbn [bind] in E. injection E as <- <- <-.
  split; [|split; [exact Hf|split; [exact Hnd|exact Hnth]]].
  apply (update_changes_tidy _ _ _ _ _ E2). cbn [snd]. apply tidy_set. now apply tidy_touch.
Qed.

(** The selection, on tables without a repeated key. *)
Lemma select_steady i st :
  big_stats st <> [] ->
  NoDup (map fst (stats st)) -> NoDup (map fst (big_stats st)) ->
  exists st1 p,
    select i st = Ok (st1, p)
    /\ sorted_vocab st1 = sorted_vocab st /\ indices st1 = indices st
    /\ output st1 = output st /\ stderr st1 = stderr st
    /\ big_stats st1 <> []
    /\ NoDup (map fst (stats st1)) /\ NoDup (map fst (big_stats st1))
    /\ forall q, Dict.mem pair_eqb (stats st1) q = true ->
                 (stat_of (stats st1) q <= stat_of (stats st1) p)%Z.
Proof.
  intros Hb Hns Hnb.
  destruct (select_ok i st Hb) as [st1 [p [E [Hv [Hi [Ho [He Hb1]]]]]]].
  exists st1, p. split; [exact E|]. do 5 (split; [assumption|]).
  unfold select in E.
  set (mfo := match stats st with [] => None | _ :: _ => Some (max_key (stats st)) end) in E.
  set (repair := match mfo with
                 | Some (Ok mf) => negb (i =? 0)%Z && below (stat_of (stats st) mf) (threshold st)
                 | _ => true
                 end) in E.
  destruct repair eqn:Er.
  - destruct (prune_stats_spec (threshold st) (stats st) (big_stats st) Hns Hnb)
      as [_ [N2 _]].
    destruct (prune_stats (stats st) (big_stats st) (threshold st)) as [s1 big1] eqn:E1.
    cbn [fst snd] in N2.
    destruct (max_key big1) as [mf1|] eqn:Em; [|discriminate]. cbn [bind] in E.
    set (thr := Qmake (stat_of big1 mf1 * i) (Z.to_pos (i + 10000))) in E.
    destruct (prune_stats_spec thr big1 big1 N2 N2) as [N3 [N4 _]].
    destruct (prune_loop_spec thr big1 big1 big1 N2 N2 N2
                (fun k x H => get_in pair_eqb pair_eqb_eq big1 k x N2 H)) as [_ [_ G]].
    fold (prune_stats big1 big1 thr) in G.
    destruct (prune_stats big1 big1 thr) as [s3 big3] eqn:E3.
    cbn [fst snd] in N3, N4, G. injection E as <- <-.
    cbn [stats big_stats]. split; [exact N3|]. split; [exact N4|].
    destruct (max_key_spec _ _ N2 Em) as [Hm Hmax].
    assert (Hval : forall q, Dict.mem pair_eqb s3 q = true ->
                     stat_of s3 q = stat_of big1 q
                     /\ Dict.mem pair_eqb big1 q = true
                     /\ below (stat_of big1 q) thr = false).
    { intros q Hq. destruct (G q) as [A _]. unfold Dict.mem, stat_of in *.
      rewrite A in *. destruct (Dict.get pair_eqb big1 q) as [x|]; [|discriminate].
      destruct (below x thr); [discriminate|]. auto. }
    assert (Hkeep : below (stat_of big1 mf1) thr = false -> stat_of s3 mf1 = stat_of big1 mf1).
    { intros Hbl. destruct (G mf1) as [A _]. unfold Dict.mem, stat_of in *.
      rewrite A. destruct (Dict.get pair_eqb big1 mf1) as [x|]; [|reflexivity].
      now rewrite Hbl. }
    intros q Hq. destruct (Hval q Hq) as [V1 [V2 V3]].
    assert (Hbl : below (stat_of big1 mf1) thr = false).
    { destruct (below (stat_of big1 mf1) thr) eqn:Eb; [|reflexivity].
      rewrite (below_mono _ _ _ (Hmax q V2) Eb) in V3. discriminate. }
    rewrite V1, (Hkeep Hbl). now apply Hmax.
  - subst repair. destruct mfo as [[mf0|e]|] eqn:Emf; try discriminate.
    injection E as <- <-. split; [exact Hns|]. split; [exact Hnb|].
    unfold mfo in Emf. destruct (stats st) as [|e d] eqn:Es; [discriminate|].
    rewrite <- Es in *. injection Emf as Emf.
    now destruct (max_key_spec _ _ Hns Emf).
Qed.

(** One pass of the loop: it stops exactly when the selected pair, and so
    every pair of the working table, is below the floor; otherwise it
    writes the selected pair and merges it in place. *)
Lemma iteration_step args i st :
  steady st ->
  exists p x st',
    selects i st p x /\ steady st'
    /\ map snd (sorted_vocab st') = map snd (sorted_vocab st)
    /\ if (x <? min_frequency args)%Z
       then iteration args i st = Ok (st', true)
            /\ sorted_vocab st' = sorted_vocab st /\ output st' = output st
            /\ stderr st' = stderr st ++ [stop_note args]
       else iteration args i st = Ok (st', false)
            /\ output st' = output st ++ [rule_line p] /\ merged_in_place p st st'.
Proof.
  intros [[Hb Hk] [Ht [Hns Hnb]]].
  destruct (select_steady i st Hb Hns Hnb)
    as [st1 [p [E [Hv [Hi [Ho [He [Hb1 [Hns1 [Hnb1 Hmax]]]]]]]]]].
  exists p, (stat_of (stats st1) p).
  unfold iteration. rewrite E. cbn [bind].
  set (stats1 := if Dict.mem pair_eqb (stats st1) p then stats st1
                 else Dict.set pair_eqb (stats st1) p 0%Z).
  assert (Hs1 : stat_of stats1 p = stat_of (stats st1) p).
  { unfold stats1. destruct (Dict.mem pair_eqb (stats st1) p) eqn:Em; [reflexivity|].
    rewrite stat_of_set, pair_eqb_refl. symmetry. now apply mem_false_stat. }
  assert (Hn1 : NoDup (map fst stats1)).
  { unfold stats1. destruct (Dict.mem pair_eqb (stats st1) p); [exact Hns1|].
    now apply (nodup_set pair_eqb pair_eqb_eq). }
  assert (Hsel : selects i st p (stat_of (stats st1) p)).
  { exists st1. auto. }
  rewrite Hs1. destruct (stat_of (stats st1) p <? min_frequency args)%Z.
  - eexists. split; [exact Hsel|]. split; [|split].
    3:{ split; [reflexivity|]. cbn [sorted_vocab output stderr].
        rewrite Hv, Ho, He. auto. }
    + unfold steady, loop_inv. cbn [sorted_vocab stats big_stats indices].
      rewrite Hv, Hi. auto.
    + cbn [sorted_vocab]. now rewrite Hv.
  - rewrite Hv, Hi in *.
    destruct (merge_step_in_place p (sorted_vocab st) stats1 (indices st) Hk Ht)
      as [v' [s' [ix' [E2 [K2 [T2 [Hf [Hnd Hnth]]]]]]]].
    rewrite E2. cbn [bind].
    destruct (if (i mod 100 =? 0)%Z then prune_stats s' (big_stats st1) (threshold st1)
              else (s', big_stats st1)) as [stats4 big4] eqn:E4.
    eexists. split; [exact Hsel|]. split; [|split].
    3:{ split; [reflexivity|]. cbn [sorted_vocab output stderr indices].
        split; [now rewrite Ho|]. unfold merged_in_place. cbn [sorted_vocab indices]. exact Hnth. }
    + unfold steady, loop_inv. cbn [sorted_vocab stats big_stats indices].
      destruct (i mod 100 =? 0)%Z.
      * destruct (prune_stats_spec (threshold st1) s' (big_stats st1) (Hnd Hn1) Hnb1)
          as [N1 [N2 _]].
        pose proof (prune_loop_big s' s' (big_stats st1) (threshold st1) Hb1) as Hb4.
        fold (prune_stats s' (big_stats st1) (threshold st1)) in Hb4.
        rewrite E4 in N1, N2, Hb4. cbn [fst snd] in N1, N2, Hb4. auto.
      * injection E4 as <- <-. auto.
    + cbn [sorted_vocab]. exact Hf.
Qed.

Lemma loop_next args k i st st1 :
  iteration args i st = Ok (st1, false) ->
  loop args (S k) i st = loop args k (i + 1)%Z st1.
Proof. intros E. cbn [loop]. now rewrite E. Qed.

Lemma same_places_refl v : same_places [] v v.
Proof.
  intros j. destruct (nth_error v j) as [[w f]|]; [|reflexivity].
  exists w. split; reflexivity.
Qed.

Lemma same_places_step p rules a b v' :
  merged_in_place p a b -> same_places rules (sorted_vocab b) v' ->
  same_places (p :: rules) (sorted_vocab a) v'.
Proof.
  intros H1 H2 j. specialize (H1 j). specialize (H2 j).
  destruct (nth_error (sorted_vocab a) j) as [[w f]|].
  - rewrite H1 in H2. destruct H2 as [w' [E D]]. exists w'. split; [exact E|].
    cbn [descends]. destruct (1 <=? idx_of (indices a) p j)%Z; [now right|now left].
  - now rewrite H1 in H2.
Qed.

(** The loop from pass [i] on, in a steady state: the rules it writes, the
    states between the passes, and why it ends. *)
Lemma loop_trace args n : forall i st,
  steady st ->
  exists st' rules,
    loop args n i st = Ok st' /\ steady st'
    /\ output st' = output st ++ map rule_line rules
    /\ List.length rules <= n
    /\ map snd (sorted_vocab st') = map snd (sorted_vocab st)
    /\ same_places rules (sorted_vocab st) (sorted_vocab st')
    /\ (forall k p, nth_error rules k = Some p ->
          exists a b x,
            loop args k i st = Ok a /\ loop args (S k) i st = Ok b
            /\ output a = output st ++ map rule_line (firstn k rules)
            /\ output b = output st ++ map rule_line (firstn (S k) rules)
            /\ selects (i + Z.of_nat k) a p x /\ (min_frequency args <= x)%Z
            /\ merged_in_place p a b)
    /\ exists a,
         loop args (List.length rules) i st = Ok a
         /\ output a = output st' /\ sorted_vocab a = sorted_vocab st'
         /\ ((List.length rules = n /\ a = st')
             \/ (List.length rules < n
                 /\ stderr st' = stderr a ++ [stop_note args]
                 /\ exists p x, selects (i + Z.of_nat (List.length rules)) a p x
                                /\ (x < min_frequency args)%Z)).
Proof.
  induction n as [|n IH]; intros i st Hst.
  - exists st, []. cbn [loop map List.length]. rewrite app_nil_r.
    split; [reflexivity|]. split; [exact Hst|]. split; [reflexivity|].
    split; [lia|]. split; [reflexivity|]. split; [apply same_places_refl|].
    split; [intros k p H; destruct k; discriminate|].
    exists st. repeat split; auto.
  - destruct (iteration_step args i st Hst) as [p [x [st1 [Hsel [Hst1 [Hf1 Hc]]]]]].
    destruct (x <? min_frequency args)%Z eqn:Ex.
    + destruct Hc as [E [Hv [Ho He]]]. apply Z.ltb_lt in Ex.
      exists st1, []. cbn [loop map List.length]. rewrite E. cbn [bind]. rewrite app_nil_r.
      split; [reflexivity|]. split; [exact Hst1|]. split; [exact Ho|].
      split; [lia|]. split; [exact Hf1|]. split; [rewrite Hv; apply same_places_refl|].
      split; [intros k q H; destruct k; discriminate|].
      exists st. split; [reflexivity|]. split; [now symmetry|]. split; [now symmetry|].
      right. split; [lia|]. split; [exact He|]. exists p, x.
      rewrite Z.add_0_r. auto.
    + destruct Hc as [E [Ho Hip]]. apply Z.ltb_ge in Ex.
      destruct (IH (i + 1)%Z st1 Hst1)
        as [st' [rules [El [Hst' [Hout [Hlen [Hf [Hsp [Hper [a [Ea [Hoa [Hva Hend]]]]]]]]]]]]].
      exists st', (p :: rules). rewrite (loop_next _ _ _ _ _ E).
      split; [exact El|]. split; [exact Hst'|].
      split; [rewrite Hout, Ho, <- app_assoc; reflexivity|].
      split; [cbn [List.length]; lia|]. split; [congruence|].
      split; [exact (same_places_step p rules st st1 _ Hip Hsp)|]. split.
      * intros k q Hq. destruct k as [|k].
        -- cbn [nth_error] in Hq. injection Hq as <-.
           exists st, st1, x. cbn [loop firstn map]. rewrite E. cbn [bind].
           rewrite app_nil_r, Z.add_0_r. repeat split; auto.
        -- cbn [nth_error] in Hq.
           destruct (Hper k q Hq) as [a' [b' [x' [A1 [A2 [A3 [A4 [A5 [A6 A7]]]]]]]]].
           exists a', b', x'. rewrite !(loop_next _ _ _ _ _ E).
           split; [exact A1|]. split; [exact A2|].
           split; [rewrite A3, Ho, <- app_assoc; reflexivity|].
           split; [rewrite A4, Ho, <- app_assoc; reflexivity|].
           split; [|auto].
           replace (i + Z.of_nat (S k))%Z with (i + 1 + Z.of_nat k)%Z by lia. exact A5.
      * exists a. cbn [List.length]. rewrite (loop_next _ _ _ _ _ E).
        split; [exact Ea|]. split; [exact Hoa|]. split; [exact Hva|].
        destruct Hend as [[Hl Heq]|[Hl [He [q [y [Hs Hy]]]]]].
        -- left. split; [lia|exact Heq].
        -- right. split; [lia|]. split; [exact He|]. exists q, y.
           replace (i + Z.of_nat (S (List.length rules)))%Z
             with (i + 1 + Z.of_nat (List.length rules))%Z by lia. auto.
Qed.

Lemma initial_state_steady v st :
  initial_state v = Ok st -> steady st.
Proof.
  intros E. destruct (initial_state_inv _ _ E) as [Hinv _]. split; [exact Hinv|].
  unfold initial_state in E. rewrite get_pair_statistics_eq in E.
  destruct (all_spans_ok v); [|discriminate]. cbn [bind] in E.
  pose proof (tidy_recount v 0 ([], []) tidy_nil) as Ht.
  pose proof (nodup_stats_recount v 0 ([], []) (NoDup_nil _)) as Hn.
  destruct (recount 0 v ([], [])) as [s0 ix0]. cbn [fst snd] in Ht, Hn.
  destruct (max_value s0); [|discriminate]. cbn [bind] in E. injection E as <-.
  cbn [indices stats big_stats]. auto.
Qed.

Lemma firstn_succ {A} (l : list A) : forall k p,
  nth_error l k = Some p -> firstn (S k) l = firstn k l ++ [p].
Proof.
  induction l as [|a l IH]; intros k p H; [destruct k; discriminate|].
  destruct k as [|k].
  - cbn in H. injection H as <-. reflexivity.
  - cbn [nth_error] in H. cbn [firstn app]. f_equal. now apply IH.
Qed.

(** The whole run, from the sorted vocabulary. *)
Lemma run_trace args v st0 :
  initial_state v = Ok st0 ->
  exists st rules,
    learn_bpe args v = Ok st
    /\ output st = map rule_line rules
    /\ List.length rules <= Z.to_nat (symbols args)
    /\ map snd (sorted_vocab st) = map snd v
    /\ same_places rules v (sorted_vocab st)
    /\ (forall k p, nth_error rules k = Some p ->
          exists a b x,
            run_to args v k = Ok a /\ run_to args v (S k) = Ok b
            /\ List.length (output a) = k /\ output b = output a ++ [rule_line p]
            /\ selects (Z.of_nat k) a p x /\ (min_frequency args <= x)%Z
            /\ merged_in_place p a b)
    /\ (List.length rules = Z.to_nat (symbols args)
        \/ (List.length rules < Z.to_nat (symbols args)
            /\ (exists e, stderr st = e ++ [stop_note args])
            /\ exists p x, pass_selects args v (List.length rules) p x
                           /\ (x < min_frequency args)%Z)).
Proof.
  intros E0. destruct (initial_state_inv _ _ E0) as [_ [Hv [Ho _]]].
  destruct (loop_trace args (Z.to_nat (symbols args)) 0%Z st0 (initial_state_steady _ _ E0))
    as [st [rules [El [_ [Hout [Hlen [Hf [Hsp [Hper [a [Ea [Hoa [_ Hend]]]]]]]]]]]]].
  rewrite Ho in Hout. cbn [app] in Hout. rewrite Hv in Hf, Hsp.
  exists st, rules. unfold learn_bpe, run_to, pass_selects. rewrite E0. cbn [bind].
  split; [exact El|]. split; [exact Hout|]. split; [exact Hlen|].
  split; [exact Hf|]. split; [exact Hsp|]. split.
  - intros k p Hk. destruct (Hper k p Hk) as [a' [b' [x [A1 [A2 [A3 [A4 [A5 [A6 A7]]]]]]]]].
    exists a', b', x. rewrite Ho in A3, A4. cbn [app] in A3, A4.
    assert (Hlt : k < List.length rules) by (apply nth_error_Some; congruence).
    split; [exact A1|]. split; [exact A2|]. split.
    { rewrite A3, length_map, length_firstn. lia. }
    split.
    { rewrite A4, A3, (firstn_succ _ _ _ Hk). now rewrite map_app. }
    split; [exact A5|]. split; [exact A6|exact A7].
  - destruct Hend as [[Hl _]|[Hl [He [p [x [Hs Hx]]]]]]; [now left|right].
    split; [exact Hl|]. split; [eauto|]. exists p, x. split; [|exact Hx].
    exists a. split; [unfold run_to; rewrite E0; exact Ea|]. split; [|exact Hs].
    now rewrite Hoa, Hout, length_map.
Qed.

(** * The claims *)

(** ** The example of the specification *)

Open Scope string_scope.

Example example_vocab_built :
  build_vocabulary example_args ["low lower lowest newest widest"] = Ok example_vocab.
Proof. vm_compute. reflexivity. Qed.

Example example_rules :
  match learn_bpe example_args example_vocab with
  | Ok st => output st
  | Raise _ => []
  end = [rule_line ("l", "o"); rule_line ("w", "e"); rule_line ("s", "t")].
Proof. vm_compute. reflexivity. Qed.

Close Scope string_scope.

(** ** C1 *)

(** C1 (as stated). With morphemes as starting symbols the corpus holds
    the symbol ab before the pair (a, b) is merged; after the one merge of
    the run the incremental frequency of (ab, x) is 10, a recount of the
    rewritten vocabulary gives 5.  And after the merge of (a, a) in the
    word a a a the index holds -1 for the merged pair, a recount 0. *)
Lemma incremental_differs_from_recount :
  match main preexisting_args preexisting_corpus with
  | Ok st =>
      output st = [rule_line ("a", "b")%string]
      /\ stat_of (stats st) ("ab", "x")%string = 10%Z
      /\ true_freq (sorted_vocab st) ("ab", "x")%string = 5%Z
      /\ match get_pair_statistics (sorted_vocab st) with
         | Ok (s2, _) => stat_of s2 ("ab", "x")%string = 5%Z
         | Raise _ => False
         end
  | Raise _ => False
  end
  /\ match get_pair_statistics [(["a"; "a"; "a"; "</w>"]%string, 1%Z)] with
     | Ok (s, ix) =>
         match merge_step ("a", "a")%string ([(["a"; "a"; "a"; "</w>"]%string, 1%Z)], s, ix) with
         | Ok (v', s', ix') =>
             v' = [(["aa"; "a"; "</w>"]%string, 1%Z)]
             /\ idx_of ix' ("a", "a")%string 0 = (-1)%Z
             /\ match get_pair_statistics v' with
                | Ok (_, ix2) => idx_of ix2 ("a", "a")%string 0 = 0%Z
                | Raise _ => False
                end
         | Raise _ => False
         end
     | Raise _ => False
     end.
Proof. vm_compute. repeat split. Qed.

(** C1 (amended). From the statistics and the index of a full count, along
    a sequence of proper merges (well-formed symbols, none of them a
    delimiter, the merged symbol new to every word, no word in which the
    rewriting brings the pair together again, no pair merged twice), the
    incremental run returns, the full recount of its vocabulary succeeds,
    both give every pair the same frequency, and they give the same index
    to every pair that has not been merged. *)
Theorem incremental_matches_recount ps v s ix :
  get_pair_statistics v = Ok (s, ix) ->
  proper_run ps v = true ->
  exists v' s' ix' s2 ix2,
    run_merges ps (v, s, ix) = Ok (v', s', ix') /\
    get_pair_statistics v' = Ok (s2, ix2) /\
    (forall q, stat_of s' q = stat_of s2 q) /\
    (forall q j, ~ In q ps -> idx_of ix' q j = idx_of ix2 q j).
Proof.
  intros Hg Hp.
  destruct (get_pair_statistics_exact _ _ _ Hg) as [Hs Hi].
  assert (Hok : all_spans_ok v = true).
  { rewrite get_pair_statistics_eq in Hg. now destruct (all_spans_ok v). }
  assert (Ht : tidy ix).
  { rewrite get_pair_statistics_eq, Hok in Hg. injection Hg as Hg.
    replace ix with (snd (recount 0 v ([], []))) by now rewrite Hg.
    apply tidy_recount. apply tidy_nil. }
  destruct (run_merges_exact ps v s ix [] Hp Ht Hs (fun q _ => Hi q) (fun _ _ H => H))
    as [s' [ix' [E [T [B1 B2]]]]].
  pose proof (all_spans_ok_run ps v Hok Hp) as Hok'.
  destruct (recount 0 (rewrite_all ps v) ([], [])) as [s2 ix2] eqn:Er.
  assert (Hg' : get_pair_statistics (rewrite_all ps v) = Ok (s2, ix2)).
  { rewrite get_pair_statistics_eq, Hok', Er. reflexivity. }
  destruct (get_pair_statistics_exact _ _ _ Hg') as [Hs' Hi'].
  exists (rewrite_all ps v), s', ix', s2, ix2. repeat split; auto.
  - intros q. now rewrite B1, Hs'.
  - intros q j Hq. rewrite Hi'. apply B2. now rewrite app_nil_r.
Qed.

Lemma incremental_matches_recount_witness :
  get_pair_statistics example_vocab = Ok example_counts
  /\ proper_run [("l", "o"); ("w", "e"); ("s", "t")]%string example_vocab = true
  /\ exists v' s' ix' s2 ix2,
       run_merges [("l", "o"); ("w", "e"); ("s", "t")]%string
         (example_vocab, fst example_counts, snd example_counts) = Ok (v', s', ix') /\
       get_pair_statistics v' = Ok (s2, ix2) /\
       (forall q, stat_of s' q = stat_of s2 q) /\
       (forall q j, ~ In q [("l", "o"); ("w", "e"); ("s", "t")]%string ->
                    idx_of ix' q j = idx_of ix2 q j).
Proof.
  assert (H1 : get_pair_statistics example_vocab
               = Ok (fst example_counts, snd example_counts)) by (vm_compute; reflexivity).
  assert (H2 : proper_run [("l", "o"); ("w", "e"); ("s", "t")]%string example_vocab = true)
    by (vm_compute; reflexivity).
  split; [exact H1|]. split; [exact H2|].
  exact (incremental_matches_recount _ example_vocab (fst example_counts)
           (snd example_counts) H1 H2).
Defined.

(** ** C2 *)

(** C2 (as stated). A run of three merges on a three-word corpus after
    which the pair (b, z) is present in the working table with the value
    -2 and has the value 2 in the full table, while it occurs nowhere in
    the vocabulary. *)
Lemma full_statistics_stale :
  build_vocabulary stale_args stale_corpus = Ok stale_vocab
  /\ main stale_args stale_corpus = Ok stale_final
  /\ Dict.mem pair_eqb (stats stale_final) ("b", "z")%string = true
  /\ stat_of (stats stale_final) ("b", "z")%string = (-2)%Z
  /\ stat_of (big_stats stale_final) ("b", "z")%string = 2%Z
  /\ true_freq (sorted_vocab stale_final) ("b", "z")%string = 0%Z.
Proof. vm_compute. repeat split. Qed.

(** C2 (amended). Along a run whose merges are all clean (proper, without
    boundary collapse, of a symbol no table key holds), on positive word
    frequencies and with a frequency floor of at least 1, after any number
    of passes of the loop the two tables together give the true frequency
    of every pair: it is the working entry when that is present and not
    negative, the full entry plus the working entry when the working entry
    is negative, and the full entry when the pair is absent from the
    working table. *)
Theorem deferred_statistics_exact (args : arguments) (v : vocabulary)
  (n : nat) (st0 st : state) :
  positive_freqs v = true ->
  (1 <= min_frequency args)%Z ->
  initial_state v = Ok st0 ->
  clean_loop args n 0%Z st0 = true ->
  loop args n 0%Z st0 = Ok st ->
  forall q, deferred (stats st) (big_stats st) q = true_freq (sorted_vocab st) q.
Proof.
  intros Hpos Hmin E0 Hc El.
  pose proof (initial_run_inv v st0 Hpos E0) as Hinv.
  pose proof (loop_run_inv args n 0%Z st0 st (Z.le_refl 0) Hmin Hinv Hc El) as Hfin.
  now destruct Hfin as [_ [_ [_ [_ [Hdef _]]]]].
Qed.

Lemma deferred_statistics_exact_witness :
  positive_freqs stale_vocab = true
  /\ (1 <= min_frequency stale_args)%Z
  /\ initial_state stale_vocab = Ok stale_initial
  /\ clean_loop stale_args 3 0%Z stale_initial = true
  /\ loop stale_args 3 0%Z stale_initial = Ok stale_final
  /\ deferred (stats stale_final) (big_stats stale_final) ("b", "z")%string
     = true_freq (sorted_vocab stale_final) ("b", "z")%string.
Proof.
  assert (H1 : positive_freqs stale_vocab = true) by (vm_compute; reflexivity).
  assert (H2 : (1 <= min_frequency stale_args)%Z) by (simpl; lia).
  assert (H3 : initial_state stale_vocab = Ok stale_initial) by (vm_compute; reflexivity).
  assert (H4 : clean_loop stale_args 3 0%Z stale_initial = true) by (vm_compute; reflexivity).
  assert (H5 : loop stale_args 3 0%Z stale_initial = Ok stale_final)
    by (vm_compute; reflexivity).
  repeat (split; [assumption|]).
  exact (deferred_statistics_exact stale_args stale_vocab 3 stale_initial stale_final
           H1 H2 H3 H4 H5 ("b", "z")%string).
Defined.

(** ** C3 *)

(** C3. A run on which pruning changes the rules: the fourth rule of the
    program is (g, h), the fourth rule of the run that selects over the
    full statistics is (a, b).  The third merge collapses the boundaries of
    two words, which raises the frequency of (a, b) from 2 to 22; the pair
    had been pruned with the value 2, and comes back with 20. *)
Theorem pruning_changes_rules :
  match main pruned_args pruned_corpus with
  | Ok st => output st
  | Raise _ => []
  end
  = [rule_line ("d", "e"); rule_line ("de", "</w>"); rule_line ("c", "</w>");
     rule_line ("g", "h")]%string
  /\ (do v <- build_vocabulary pruned_args pruned_corpus;
      learn_bpe_unpruned pruned_args v)
     = Ok [rule_line ("d", "e"); rule_line ("de", "</w>"); rule_line ("c", "</w>");
           rule_line ("a", "b")]%string.
Proof. vm_compute. split; reflexivity. Qed.

(** ** C4 *)

(** C4. A run that stops on the floor although a pair reaches it: with a
    budget of 10 and a floor of 21 the program writes five rules and the
    note, while the pair (a, b) stands 22 times in the vocabulary it
    leaves; the run that selects over the full statistics writes the rule
    of (a, b) as its fourth, six rules in all.  The merge of (c, </w>)
    collapses the boundaries of the words a==b==c; the pair (a, b), pruned
    with the value 2, comes back with 20. *)
Theorem floor_stop_misses_pair :
  match main floor_args pruned_corpus with
  | Ok st =>
      output st
      = [rule_line ("d", "e"); rule_line ("de", "</w>"); rule_line ("c", "</w>");
         rule_line ("g", "h"); rule_line ("gh", "c</w>")]%string
      /\ stderr st = [stop_note floor_args]
      /\ (Z.of_nat (List.length (output st)) < symbols floor_args)%Z
      /\ true_freq (sorted_vocab st) ("a", "b")%string = 22%Z
      /\ (min_frequency floor_args <= true_freq (sorted_vocab st) ("a", "b")%string)%Z
  | Raise _ => False
  end
  /\ (do v <- build_vocabulary floor_args pruned_corpus;
      learn_bpe_unpruned floor_args v)
     = Ok [rule_line ("d", "e"); rule_line ("de", "</w>"); rule_line ("c", "</w>");
           rule_line ("a", "b"); rule_line ("g", "h"); rule_line ("gh", "c</w>")]%string.
Proof. vm_compute. repeat split; try reflexivity. discriminate. Qed.

(** ** C5 *)

(** C5 (as stated). In morph-aware mode the second rule of the run is
    (ab, </w>) with frequency 2; its merge collapses the boundaries of the
    word, and the third rule is (x, x) with frequency 4. *)
Lemma selection_can_increase :
  build_vocabulary rising_args rising_corpus = Ok rising_vocab0
  /\ rewrite_vocab ("a", "b")%string rising_vocab0 = rising_vocab
  /\ match main rising_args rising_corpus with
     | Ok st => output st
     | Raise _ => []
     end = [rule_line ("a", "b"); rule_line ("ab", "</w>"); rule_line ("x", "x")]%string
  /\ match get_pair_statistics rising_vocab with
     | Ok (s, ix) =>
         max_key s = Ok ("ab", "</w>")%string
         /\ stat_of s ("ab", "</w>")%string = 2%Z
         /\ true_freq rising_vocab ("ab", "</w>")%string = 2%Z
         /\ match merge_step ("ab", "</w>")%string (rising_vocab, s, ix) with
            | Ok (v', s', ix') =>
                v' = [(["x"; "x"; "x"; "ab</w>"]%string, 2%Z)]
                /\ true_freq v' ("x", "x")%string = 4%Z
                /\ match get_pair_statistics v' with
                   | Ok (s2, _) =>
                       max_key s2 = Ok ("x", "x")%string
                       /\ stat_of s2 ("x", "x")%string = 4%Z
                   | Raise _ => False
                   end
            | Raise _ => False
            end
     | Raise _ => False
     end.
Proof. vm_compute. repeat split. Qed.

(** C5 (amended). Under the exact statistics, that is, for the run that
    selects the maximum of the incrementally maintained table of a full
    count: after any sequence of proper merges on non-negative word
    frequencies, if the merge of the selected pair is proper and collapses
    no boundary, then the pair selected next has a true frequency no
    larger than the merged pair had when it was selected; both tables hold
    these true frequencies. *)
Theorem selection_non_increasing ps p1 p2 v s ix v1 s1 ix1 v2 s2 ix2 :
  get_pair_statistics v = Ok (s, ix) ->
  nonneg_freqs v = true ->
  proper_run (ps ++ [p1]) v = true ->
  run_merges ps (v, s, ix) = Ok (v1, s1, ix1) ->
  max_key s1 = Ok p1 ->
  no_collapse p1 v1 = true ->
  merge_step p1 (v1, s1, ix1) = Ok (v2, s2, ix2) ->
  max_key s2 = Ok p2 ->
  stat_of s1 p1 = true_freq v1 p1 /\ stat_of s2 p2 = true_freq v2 p2
  /\ (true_freq v2 p2 <= true_freq v1 p1)%Z.
Proof.
  intros Hg Hf Hrun E1 Hm1 Hc E2 Hm2.
  destruct (get_pair_statistics_exact _ _ _ Hg) as [Hs Hi].
  assert (Ht : tidy ix /\ NoDup (map fst s)).
  { rewrite get_pair_statistics_eq in Hg. destruct (all_spans_ok v); [|discriminate].
    injection Hg as Hg.
    replace ix with (snd (recount 0 v ([], []))) by now rewrite Hg.
    replace s with (fst (recount 0 v ([], []))) by now rewrite Hg.
    split; [apply tidy_recount, tidy_nil|apply nodup_stats_recount; constructor]. }
  destruct Ht as [Ht Hnd].
  destruct (proper_run_app ps [p1] v Hrun) as [Hps [Hp1 Hnew]].
  cbn [proper_run] in Hp1. rewrite !andb_true_iff in Hp1. destruct Hp1 as [[Hp1 _] _].
  destruct (run_merges_exact ps v s ix [] Hps Ht Hs (fun q _ j => Hi q j)
              (fun q _ H => H)) as [s1' [ix1' [E1' [T1 [S1 I1]]]]].
  assert (Hn1 : NoDup (map fst s1)) by (eapply run_merges_nodup; eauto).
  rewrite E1 in E1'. injection E1' as Ev Es Ei. subst s1' ix1' v1.
  assert (Hf1 : nonneg_freqs (rewrite_all ps v) = true) by now rewrite nonneg_rewrite_all.
  assert (Hex : forall j, idx_of ix1 p1 j = cnt p1 (word_at (rewrite_all ps v) j)).
  { apply I1. rewrite app_nil_r. intros Hin. apply (Hnew p1 Hin). now left. }
  destruct (merge_step_exact p1 _ s1 ix1 Hp1 T1 Hex) as [s2' [ix2' [E2' [_ [S2 _]]]]].
  rewrite E2 in E2'. injection E2' as Ev Es Ei. subst s2' ix2' v2.
  assert (Hs2 : forall q, stat_of s2 q = true_freq (rewrite_vocab p1 (rewrite_all ps v)) q)
    by (intros q; apply S2, S1).
  split; [apply S1|]. split; [apply Hs2|].
  pose proof (true_freq_rewrite_le p1 _ p2 Hp1 Hc Hf1) as Hle.
  pose proof (max_key_bound s1 _ p1 Hn1 Hf1 S1 Hm1 p2).
  destruct (involves _ p2); lia.
Qed.

Lemma selection_non_increasing_witness :
  get_pair_statistics example_vocab = Ok example_counts
  /\ nonneg_freqs example_vocab = true
  /\ proper_run ([("l", "o")%string] ++ [("w", "e")%string]) example_vocab = true
  /\ run_merges [("l", "o")%string]
       (example_vocab, fst example_counts, snd example_counts) = Ok example_step
  /\ max_key (snd (fst example_step)) = Ok ("w", "e")%string
  /\ no_collapse ("w", "e")%string (fst (fst example_step)) = true
  /\ merge_step ("w", "e")%string example_step = Ok example_step2
  /\ max_key (snd (fst example_step2)) = Ok ("s", "t")%string
  /\ stat_of (snd (fst example_step)) ("w", "e")%string
       = true_freq (fst (fst example_step)) ("w", "e")%string
  /\ stat_of (snd (fst example_step2)) ("s", "t")%string
       = true_freq (fst (fst example_step2)) ("s", "t")%string
  /\ (true_freq (fst (fst example_step2)) ("s", "t")%string
      <= true_freq (fst (fst example_step)) ("w", "e")%string)%Z.
Proof.
  assert (H1 : get_pair_statistics example_vocab
               = Ok (fst example_counts, snd example_counts)) by (vm_compute; reflexivity).
  assert (H2 : nonneg_freqs example_vocab = true) by (vm_compute; reflexivity).
  assert (H3 : proper_run ([("l", "o")%string] ++ [("w", "e")%string]) example_vocab = true)
    by (vm_compute; reflexivity).
  assert (H4 : run_merges [("l", "o")%string]
                 (example_vocab, fst example_counts, snd example_counts)
               = Ok (fst (fst example_step), snd (fst example_step), snd example_step))
    by (vm_compute; reflexivity).
  assert (H5 : max_key (snd (fst example_step)) = Ok ("w", "e")%string)
    by (vm_compute; reflexivity).
  assert (H6 : no_collapse ("w", "e")%string (fst (fst example_step)) = true)
    by (vm_compute; reflexivity).
  assert (H7 : merge_step ("w", "e")%string
                 (fst (fst example_step), snd (fst example_step), snd example_step)
               = Ok (fst (fst example_step2), snd (fst example_step2), snd example_step2))
    by (vm_compute; reflexivity).
  assert (H8 : max_key (snd (fst example_step2)) = Ok ("s", "t")%string)
    by (vm_compute; reflexivity).
  repeat (split; [assumption|]).
  exact (selection_non_increasing _ _ _ _ _ _ _ _ _ _ _ _ H1 H2 H3 H4 H5 H6 H7 H8).
Defined.

(** ** C6 *)



(** ** C7 *)




(** ** C8 *)

(** C8. With the delimiter option set to +, the word a+b is split at the
    + when the vocabulary is built, but the counting treats the + as an
    ordinary symbol: the pairs (a, +) and (+, b) are counted, and the first
    rule of the run merges across the boundary. *)
Theorem delimiter_option_ignored :
  build_vocabulary plus_args ["a+b"%string] = Ok [(["a"; "+"; "b"; "</w>"]%string, 1%Z)]
  /\ match get_pair_statistics [(["a"; "+"; "b"; "</w>"]%string, 1%Z)] with
     | Ok (s, _) => stat_of s ("a", "+")%string = 1%Z /\ stat_of s ("+", "b")%string = 1%Z
     | Raise _ => False
     end
  /\ match main plus_args ["a+b"%string] with
     | Ok st => output st
     | Raise _ => []
     end = [rule_line ("a", "+")%string].
Proof. vm_compute. repeat split. Qed.

(** ** C9 *)

(** C9. Over a whole run the frequency stored at every index of the
    vocabulary is the initial one and the list keeps its length.  Every
    merge of the run is done in place: between the state before it and the
    state after it every entry stays at its index with its frequency, and
    its word is the rewritten one exactly when the index counts the pair in
    it.  So the entry at an index at the end comes from the entry at that
    index at the start, each merge having left its word or rewritten it
    once.  The run can only raise before the loop. *)
Theorem vocabulary_frame (args : arguments) (v : vocabulary) :
  match learn_bpe args v with
  | Ok st =>
      map snd (sorted_vocab st) = map snd v
      /\ List.length (sorted_vocab st) = List.length v
      /\ exists rules,
           output st = map rule_line rules
           /\ same_places rules v (sorted_vocab st)
           /\ forall k p, nth_error rules k = Some p ->
                exists a b,
                  run_to args v k = Ok a /\ run_to args v (S k) = Ok b
                  /\ List.length (output a) = k /\ output b = output a ++ [rule_line p]
                  /\ merged_in_place p a b
  | Raise e => initial_state v = Raise e
  end.
Proof.
  destruct (initial_state v) as [st0|e] eqn:E0.
  2:{ unfold learn_bpe. now rewrite E0. }
  destruct (run_trace args v st0 E0)
    as [st [rules [E [Hout [_ [Hf [Hsp [Hper _]]]]]]]].
  rewrite E. split; [exact Hf|]. split.
  - rewrite <- (length_map snd (sorted_vocab st)), Hf. apply length_map.
  - exists rules. split; [exact Hout|]. split; [exact Hsp|]. intros k p Hk.
    destruct (Hper k p Hk) as [a [b [x [A1 [A2 [A3 [A4 [_ [_ A7]]]]]]]]].
    exists a, b. auto.
Qed.

(** ** C10 *)

(** C10. [get_pair_statistics] raises IndexError exactly on the
    vocabularies that hold a word with an empty span, and returns the
    recount otherwise; a word has an empty span exactly when it is empty
    or the delimiter stands first, last, or twice in a row. *)
Theorem get_pair_statistics_partial (v : vocabulary) :
  get_pair_statistics v =
    (if existsb (fun e => has_empty_span (fst e)) v
     then Raise IndexError else Ok (recount 0 v ([], [])))
  /\ forall w,
       has_empty_span w = is_nil w || delim_first w || delim_last w || delim_twice w.
Proof.
  split.
  - rewrite get_pair_statistics_eq. unfold all_spans_ok.
    replace (forallb (fun e => spans_ok (fst e)) v)
      with (negb (existsb (fun e => has_empty_span (fst e)) v)).
    + now destruct (existsb _ v).
    + induction v as [|[w f] v IH]; [reflexivity|].
      cbn [forallb existsb fst]. rewrite <- IH, spans_ok_empty_span.
      now destruct (has_empty_span w).
  - intros w. unfold has_empty_span. rewrite split_tuple_eq. apply empty_span_shape.
Qed.

(** * Spans and tokens *)

Lemma fold_left_intercalate d ss : forall t,
  fold_left (fun t1 t2 : word => t1 ++ [d] ++ t2) ss t = t ++ flat_map (fun s => d :: s) ss.
Proof.
  induction ss as [|s ss IH]; intros t; cbn [fold_left flat_map].
  - now rewrite app_nil_r.
  - rewrite IH. now rewrite <- !app_assoc.
Qed.

Lemma split_on_glue d w :
  match split_on d w with
  | [] => False
  | s :: ss => s ++ flat_map (fun s => d :: s) ss = w
  end.
Proof.
  induction w as [|x w IH]; [reflexivity|].
  cbn [split_on]. destruct (String.eqb x d) eqn:E.
  - apply String.eqb_eq in E. subst x. cbn [app flat_map].
    destruct (split_on d w) as [|s ss]; [destruct IH|]. cbn [flat_map app]. now rewrite IH.
  - destruct (split_on d w) as [|s ss]; [destruct IH|]. cbn [app]. now rewrite IH.
Qed.

Lemma split_on_free d w : Forall (fun s => ~ In d s) (split_on d w).
Proof.
  induction w as [|x w IH]; [repeat constructor; intros []|].
  cbn [split_on]. destruct (String.eqb x d) eqn:E.
  - constructor; [intros []|exact IH].
  - apply String.eqb_neq in E.
    destruct (split_on d w) as [|s ss]; [repeat constructor; intros [H|[]]; congruence|].
    inversion IH; subst. constructor; [|assumption].
    intros [H|H]; [congruence|contradiction].
Qed.

Lemma split_on_length d w : List.length (split_on d w) = S (count_occ string_dec w d).
Proof.
  induction w as [|x w IH]; [reflexivity|].
  cbn [split_on count_occ]. destruct (string_dec x d) as [->|Hne].
  - rewrite String.eqb_refl. cbn [List.length]. now rewrite IH.
  - apply String.eqb_neq in Hne. rewrite Hne.
    destruct (split_on d w) as [|s ss]; cbn [List.length] in *; lia.
Qed.

Lemma split_on_notin d w : ~ In d w -> split_on d w = [w].
Proof.
  induction w as [|x w IH]; [reflexivity|]. intros H.
  cbn [split_on]. destruct (String.eqb x d) eqn:E.
  - apply String.eqb_eq in E. exfalso. apply H. now left.
  - rewrite IH; [reflexivity|]. intros H'. apply H. now right.
Qed.

Lemma split_on_app d t r : ~ In d t -> split_on d (t ++ d :: r) = t :: split_on d r.
Proof.
  induction t as [|x t IH]; intros H.
  - cbn [app split_on]. now rewrite String.eqb_refl.
  - cbn [app split_on]. destruct (String.eqb x d) eqn:E.
    + apply String.eqb_eq in E. exfalso. apply H. now left.
    + rewrite IH; [reflexivity|]. intros H'. apply H. now right.
Qed.

(** Spans without the delimiter, glued by it, split back into themselves. *)
Lemma split_on_intercalate d ss : forall t,
  Forall (fun s => ~ In d s) (t :: ss) ->
  split_on d (t ++ flat_map (fun s => d :: s) ss) = t :: ss.
Proof.
  induction ss as [|s ss IH]; intros t H; inversion H as [|? ? Ht Hss]; subst.
  - cbn [flat_map]. rewrite app_nil_r. now apply split_on_notin.
  - cbn [flat_map]. change ((d :: s) ++ flat_map (fun s0 => d :: s0) ss)
      with (d :: (s ++ flat_map (fun s0 => d :: s0) ss)).
    rewrite split_on_app by assumption. now rewrite IH.
Qed.

(** ** The pieces of [str.split] *)

Lemma str_split_nonempty fuel sep x : str_split fuel sep x <> [].
Proof.
  destruct fuel as [|fuel]; destruct x as [|c x]; try discriminate.
  cbn [str_split]. destruct (strip_prefix sep (String c x)); [discriminate|].
  destruct (str_split fuel sep x); discriminate.
Qed.

Lemma str_split_char_free c : forall fuel x,
  String.length x <= fuel ->
  Forall (fun p => char_in c p = false) (str_split fuel (String c EmptyString) x).
Proof.
  induction fuel as [|fuel IH]; intros x Hf.
  - destruct x; [|simpl in Hf; lia]. repeat constructor.
  - destruct x as [|a x]; [cbn; repeat constructor|].
    simpl in Hf. cbn [str_split strip_prefix].
    destruct (Ascii.eqb c a) eqn:E.
    + constructor; [now cbn|]. apply IH. lia.
    + specialize (IH x ltac:(lia)).
      destruct (str_split fuel (String c EmptyString) x) as [|p ps].
      * repeat constructor. cbn [char_in]. rewrite Ascii.eqb_sym, E. reflexivity.
      * inversion IH as [|? ? Hp Hps]; subst. constructor; [|assumption].
        cbn beta in *. cbn [char_in]. rewrite Ascii.eqb_sym, E. assumption.
Qed.

Lemma in_chars d p : In d (chars p) -> exists c, d = String c EmptyString /\ char_in c p = true.
Proof.
  induction p as [|a p IH]; [intros []|].
  cbn [chars char_in]. intros [<-|H].
  - exists a. now rewrite Ascii.eqb_refl.
  - destruct (IH H) as [c [-> Hc]]. exists c. rewrite Hc. now rewrite orb_true_r.
Qed.

Lemma chars_nonempty p : nonempty (chars p) = negb (is_empty p).
Proof. now destruct p. Qed.

(** No piece of [x.split(d)], read as a tuple of characters, holds the
    symbol [d]. *)
Lemma pieces_free d x :
  d <> EmptyString ->
  Forall (fun s => ~ In d s) (map chars (str_split (String.length x) d x)).
Proof.
  intros Hd. apply Forall_forall. intros s Hs.
  apply in_map_iff in Hs. destruct Hs as [p [<- Hp]]. intros Hin.
  destruct (in_chars _ _ Hin) as [c [-> Hc]].
  pose proof (str_split_char_free c (String.length x) x (le_n _)) as Hf.
  rewrite Forall_forall in Hf. rewrite (Hf _ Hp) in Hc. discriminate.
Qed.

Lemma append_last_cons m ms x :
  ms <> [] -> append_last (m :: ms) x = m :: append_last ms x.
Proof. unfold append_last. destruct ms as [|m' ms]; [congruence|]. reflexivity. Qed.

Lemma glue_append_last d x ss : forall t,
  (t ++ flat_map (fun s => d :: s) ss) ++ [x]
  = match append_last (t :: ss) x with
    | [] => []
    | t' :: ss' => t' ++ flat_map (fun s => d :: s) ss'
    end.
Proof.
  induction ss as [|s ss IH]; intros t.
  - cbn. now rewrite !app_nil_r.
  - rewrite append_last_cons by discriminate.
    cbn [flat_map]. rewrite <- app_assoc.
    change ((d :: s) ++ flat_map (fun s0 => d :: s0) ss)
      with (d :: (s ++ flat_map (fun s0 => d :: s0) ss)).
    change ((d :: s ++ flat_map (fun s0 => d :: s0) ss) ++ [x])
      with (d :: ((s ++ flat_map (fun s0 => d :: s0) ss) ++ [x])).
    rewrite IH. destruct (append_last (s :: ss) x) as [|t' ss'] eqn:E.
    + unfold append_last in E. destruct (removelast (s :: ss)); discriminate.
    + reflexivity.
Qed.

Lemma in_removelast {A} (a : A) l : In a (removelast l) -> In a l.
Proof.
  induction l as [|b l IH]; [intros []|].
  destruct l as [|c l]; [intros []|]. intros [<-|H]; [now left|right; now apply IH].
Qed.

Lemma last_in {A} (d : A) l : l <> [] -> In (last l d) l.
Proof.
  induction l as [|b l IH]; [congruence|]. intros _.
  destruct l as [|c l]; [now left|]. right. apply IH. discriminate.
Qed.

Lemma append_last_free d x ms :
  d <> x -> Forall (fun s => ~ In d s) ms -> Forall (fun s => ~ In d s) (append_last ms x).
Proof.
  intros Hx H. rewrite Forall_forall in H. unfold append_last. apply Forall_app. split.
  - apply Forall_forall. intros s Hs. apply H. now apply in_removelast.
  - constructor; [|constructor]. intros Hin. apply in_app_or in Hin.
    destruct Hin as [Hin|[Hin|[]]]; [|congruence].
    destruct ms as [|m ms]; [destruct Hin|].
    apply (H (last (m :: ms) [])); [apply last_in; discriminate|exact Hin].
Qed.

Lemma forallb_append_last ms x :
  forallb nonempty (append_last ms x) = forallb nonempty (removelast ms).
Proof.
  unfold append_last. rewrite forallb_app. cbn [forallb].
  destruct (last ms []); cbn [app nonempty]; now rewrite andb_true_r.
Qed.

Lemma removelast_map {A B} (f : A -> B) l : removelast (map f l) = map f (removelast l).
Proof.
  induction l as [|a l IH]; [reflexivity|].
  destruct l as [|b l]; [reflexivity|]. cbn [map removelast] in *. now rewrite IH.
Qed.

Lemma forallb_map {A B} (g : B -> bool) (f : A -> B) l :
  forallb g (map f l) = forallb (fun a => g (f a)) l.
Proof. induction l as [|a l IH]; [reflexivity|]. cbn. now rewrite IH. Qed.

(** X1. [split_tuple] loses nothing: gluing the spans back together with
    the delimiter, as the vocabulary builder does with [reduce], gives the
    tuple again. *)
Theorem split_tuple_round_trip (tpl : word) (delim : symbol) :
  reduce_with delim (split_tuple tpl delim) = Ok tpl.
Proof.
  rewrite split_tuple_eq. pose proof (split_on_glue delim tpl) as H.
  destruct (split_on delim tpl) as [|s ss]; [destruct H|].
  unfold reduce_with. now rewrite fold_left_intercalate, H.
Qed.

(** X2. [split_tuple] returns one span more than the tuple has delimiters
    (so at least one, also for the empty tuple), and no span holds the
    delimiter. *)
Theorem split_tuple_spans (tpl : word) (delim : symbol) :
  List.length (split_tuple tpl delim) = S (count_occ string_dec tpl delim)
  /\ Forall (fun s => ~ In delim s) (split_tuple tpl delim).
Proof.
  rewrite split_tuple_eq. split; [apply split_on_length|apply split_on_free].
Qed.

Lemma tokenize_aware_spans (args : arguments) (x : string) :
  morph_as_char args = false -> morph_aware args = true ->
  delimiter args <> EmptyString -> delimiter args <> EOW ->
  exists t,
    tokenize args x = Ok t
    /\ split_tuple t (delimiter args)
       = append_last (map chars (str_split (String.length x) (delimiter args) x)) EOW.
Proof.
  intros Hc Ha Hd He. unfold tokenize. rewrite Hc, Ha.
  apply String.eqb_neq in Hd. rewrite Hd. apply String.eqb_neq in Hd.
  pose proof (pieces_free (delimiter args) x Hd) as Hfree.
  pose proof (str_split_nonempty (String.length x) (delimiter args) x) as Hne.
  destruct (str_split (String.length x) (delimiter args) x) as [|p ps] eqn:E; [congruence|].
  cbn [map reduce_with bind] in *. eexists. split; [reflexivity|].
  rewrite split_tuple_eq, fold_left_intercalate, glue_append_last.
  pose proof (append_last_free (delimiter args) EOW _ He Hfree) as Hf.
  destruct (append_last (chars p :: map chars ps) EOW) as [|t' ss'] eqn:Ea.
  - unfold append_last in Ea. destruct (removelast (chars p :: map chars ps)); discriminate.
  - now apply split_on_intercalate.
Qed.

(** X3. In morph-aware mode the spans that [split_tuple] finds in a
    tokenised word are the morphemes of the word, each as its tuple of
    characters, with the end-of-word symbol at the end of the last one. *)
Theorem morph_aware_spans (args : arguments) (x : string) :
  morph_as_char args = false -> morph_aware args = true ->
  delimiter args <> EmptyString -> delimiter args <> EOW ->
  exists t,
    tokenize args x = Ok t
    /\ split_tuple t (delimiter args)
       = append_last (map chars (str_split (String.length x) (delimiter args) x)) EOW.
Proof. apply tokenize_aware_spans. Qed.

Lemma morph_aware_spans_witness :
  morph_as_char aware_args = false /\ morph_aware aware_args = true
  /\ delimiter aware_args <> EmptyString /\ delimiter aware_args <> EOW
  /\ exists t,
       tokenize aware_args "x==ab"%string = Ok t
       /\ split_tuple t (delimiter aware_args)
          = append_last (map chars (str_split (String.length "x==ab"%string)
                                      (delimiter aware_args) "x==ab"%string)) EOW.
Proof.
  assert (H1 : morph_as_char aware_args = false) by reflexivity.
  assert (H2 : morph_aware aware_args = true) by reflexivity.
  assert (H3 : delimiter aware_args <> EmptyString) by (vm_compute; discriminate).
  assert (H4 : delimiter aware_args <> EOW) by (vm_compute; discriminate).
  repeat (split; [assumption|]).
  exact (morph_aware_spans aware_args "x==ab"%string H1 H2 H3 H4).
Defined.

(** * The vocabulary *)

Lemma split_ws_wf s : Forall (fun t => wf_sym t = true) (split_ws s).
Proof.
  induction s as [|c s IH]; [constructor|].
  cbn [split_ws]. destruct (isspace c) eqn:Ec; [exact IH|].
  assert (H1 : wf_sym (String c EmptyString) = true)
    by (unfold wf_sym; cbn; now rewrite Ec).
  destruct s as [|c' s']; [repeat constructor; exact H1|].
  destruct (isspace c') eqn:Ec'; [constructor; [exact H1|exact IH]|].
  destruct (split_ws (String c' s')) as [|t ts]; [repeat constructor; exact H1|].
  inversion IH as [|? ? Ht Hts]; subst. constructor; [|exact Hts].
  unfold wf_sym in *. cbn. rewrite Ec. cbn.
  apply andb_true_iff in Ht. tauto.
Qed.

Lemma fold_left_flat_map {A B C} (f : A -> C -> A) (g : B -> list C) l : forall a,
  fold_left (fun acc x => fold_left f (g x) acc) l a = fold_left f (flat_map g l) a.
Proof.
  induction l as [|x l IH]; intros a; [reflexivity|].
  cbn [fold_left flat_map]. now rewrite IH, fold_left_app.
Qed.

Lemma get_vocabulary_fold fobj :
  get_vocabulary fobj = fold_left counter_add (corpus_words fobj) [].
Proof. unfold get_vocabulary, corpus_words. apply fold_left_flat_map. Qed.

Lemma string_eqb_iff (a b : string) : String.eqb a b = true <-> a = b.
Proof. apply String.eqb_eq. Qed.

Lemma uniq_in x l : In x (uniq l) <-> In x l.
Proof.
  induction l as [|a l IH]; [tauto|].
  cbn [uniq]. split.
  - intros [<-|H]; [now left|]. apply filter_In in H. right. now apply IH.
  - intros [<-|H]; [now left|].
    destruct (String.eqb x a) eqn:E.
    + apply String.eqb_eq in E. now left.
    + right. apply filter_In. split; [now apply IH|now rewrite E].
Qed.

Lemma uniq_nodup l : NoDup (uniq l).
Proof.
  induction l as [|a l IH]; [constructor|].
  cbn [uniq]. constructor.
  - intros H. apply filter_In in H. destruct H as [_ H].
    now rewrite String.eqb_refl in H.
  - now apply NoDup_filter.
Qed.

Lemma filter_snoc {A} (f : A -> bool) l x :
  filter f (l ++ [x]) = filter f l ++ (if f x then [x] else []).
Proof. now rewrite filter_app. Qed.

Lemma uniq_snoc l x :
  uniq (l ++ [x]) = if existsb (String.eqb x) l then uniq l else uniq l ++ [x].
Proof.
  induction l as [|a l IH]; [reflexivity|].
  cbn [app uniq existsb]. rewrite IH.
  destruct (String.eqb x a) eqn:E; cbn [orb].
  - destruct (existsb (String.eqb x) l); [reflexivity|].
    rewrite filter_snoc, E. cbn. now rewrite app_nil_r.
  - destruct (existsb (String.eqb x) l); [reflexivity|].
    rewrite filter_snoc, E. reflexivity.
Qed.

Lemma times_snoc l x w : times (l ++ [x]) w = (times l w + if String.eqb x w then 1 else 0)%Z.
Proof.
  unfold times. rewrite count_occ_app. cbn [count_occ].
  destruct (string_dec x w) as [->|Hne].
  - rewrite String.eqb_refl. lia.
  - apply String.eqb_neq in Hne. rewrite Hne. lia.
Qed.

Lemma existsb_eqb_in x l : existsb (String.eqb x) l = true <-> In x l.
Proof.
  rewrite existsb_exists. split.
  - intros [y [Hy E]]. apply String.eqb_eq in E. now subst.
  - intros H. exists x. split; [assumption|apply String.eqb_refl].
Qed.

Section Tally.
Variables g g' : string -> Z.
Variable x : string.
Variable v : Z.
Hypothesis g'_x : g' x = v.
Hypothesis g'_other : forall w, w <> x -> g' w = g w.

Lemma get_tally ks :
  Dict.get String.eqb (map (fun w => (w, g w)) ks) x
  = if existsb (String.eqb x) ks then Some (g x) else None.
Proof.
  induction ks as [|k ks IH]; [reflexivity|].
  cbn [map Dict.get existsb]. rewrite (String.eqb_sym x k).
  destruct (String.eqb k x) eqn:E; [|exact IH].
  apply String.eqb_eq in E. now subst.
Qed.

Lemma set_tally ks :
  NoDup ks ->
  Dict.set String.eqb (map (fun w => (w, g w)) ks) x v
  = map (fun w => (w, g' w)) (if existsb (String.eqb x) ks then ks else ks ++ [x]).
Proof.
  induction ks as [|k ks IH]; intros Hn.
  - cbn. now rewrite g'_x.
  - apply NoDup_cons_iff in Hn. destruct Hn as [Hk Hks].
    cbn [map Dict.set existsb]. rewrite (String.eqb_sym x k).
    destruct (String.eqb k x) eqn:E; cbn [orb].
    + apply String.eqb_eq in E. subst k. cbn [map]. rewrite g'_x. f_equal.
      apply map_ext_in. intros w Hw. rewrite g'_other; [reflexivity|].
      intros ->. contradiction.
    + rewrite (IH Hks). apply String.eqb_neq in E.
      destruct (existsb (String.eqb x) ks); cbn [map app]; now rewrite (g'_other k E).
Qed.
End Tally.

Lemma fold_counter_add l :
  fold_left counter_add l [] = map (fun w => (w, times l w)) (uniq l).
Proof.
  induction l as [|x l IH] using rev_ind; [reflexivity|].
  rewrite fold_left_app. cbn [fold_left]. rewrite IH. unfold counter_add.
  rewrite (get_tally (times l) x).
  assert (Ex : existsb (String.eqb x) (uniq l) = existsb (String.eqb x) l).
  { destruct (existsb (String.eqb x) l) eqn:E.
    - apply (proj2 (existsb_eqb_in _ _)), (proj2 (uniq_in _ _)), (proj1 (existsb_eqb_in _ _)).
      exact E.
    - destruct (existsb (String.eqb x) (uniq l)) eqn:E'; [|reflexivity].
      apply (proj1 (existsb_eqb_in _ _)), (proj1 (uniq_in _ _)),
        (proj2 (existsb_eqb_in _ _)) in E'. congruence. }
  assert (Hx : times (l ++ [x]) x
               = (match (if existsb (String.eqb x) (uniq l) then Some (times l x) else None)
                  with Some n => n | None => 0 end + 1)%Z).
  { rewrite times_snoc, String.eqb_refl, Ex.
    destruct (existsb (String.eqb x) l) eqn:E; [reflexivity|].
    assert (H : times l x = 0%Z); [|lia].
    unfold times. rewrite (proj1 (count_occ_not_In string_dec l x)); [reflexivity|].
    intros Hin. apply (proj2 (existsb_eqb_in _ _)) in Hin. congruence. }
  assert (Ho : forall w, w <> x -> times (l ++ [x]) w = times l w).
  { intros w Hw. rewrite times_snoc.
    replace (String.eqb x w) with false; [lia|].
    symmetry. apply String.eqb_neq. congruence. }
  rewrite (set_tally (times l) (times (l ++ [x])) x _ Hx Ho (uniq l) (uniq_nodup l)).
  now rewrite uniq_snoc, Ex.
Qed.

Lemma get_vocabulary_eq fobj :
  get_vocabulary fobj
  = map (fun w => (w, times (corpus_words fobj) w)) (uniq (corpus_words fobj)).
Proof. rewrite get_vocabulary_fold. apply fold_counter_add. Qed.

(** X4. [get_vocabulary] lists the distinct words of the corpus in the
    order of their first occurrence, each with the number of its
    occurrences; a word is a maximal run of non-whitespace characters of a
    line. *)
Theorem get_vocabulary_counts (fobj : list string) :
  get_vocabulary fobj
  = map (fun w => (w, times (corpus_words fobj) w)) (uniq (corpus_words fobj)).
Proof. apply get_vocabulary_eq. Qed.

Lemma corpus_words_wf fobj : Forall (fun t => wf_sym t = true) (corpus_words fobj).
Proof.
  unfold corpus_words. induction fobj as [|line fobj IH]; [constructor|].
  cbn [flat_map]. apply Forall_app. split; [apply split_ws_wf|exact IH].
Qed.

Lemma times_pos l w : In w l -> (1 <= times l w)%Z.
Proof.
  intros H. unfold times. apply (count_occ_In string_dec) in H. lia.
Qed.

Lemma get_vocabulary_entries fobj x y :
  In (x, y) (get_vocabulary fobj) -> wf_sym x = true /\ (1 <= y)%Z.
Proof.
  rewrite get_vocabulary_fold, fold_counter_add. intros H.
  apply in_map_iff in H. destruct H as [w [[= <- <-] Hw]].
  apply (proj1 (uniq_in _ _)) in Hw. split; [|now apply times_pos].
  pose proof (corpus_words_wf fobj) as Hf. rewrite Forall_forall in Hf. now apply Hf.
Qed.

Lemma get_vocabulary_nodup fobj : NoDup (map fst (get_vocabulary fobj)).
Proof.
  rewrite get_vocabulary_fold, fold_counter_add, map_map. cbn [fst].
  rewrite map_id. apply uniq_nodup.
Qed.

(** X5. No word of the vocabulary is empty or holds a whitespace character,
    no word is listed twice, and every count is at least 1; the vocabulary
    is empty exactly for a corpus without any word (no line, or blank lines
    only). *)
Theorem get_vocabulary_words (fobj : list string) :
  Forall (fun e => wf_sym (fst e) = true /\ (1 <= snd e)%Z) (get_vocabulary fobj)
  /\ NoDup (map fst (get_vocabulary fobj))
  /\ (if is_nil (corpus_words fobj) then get_vocabulary fobj = []
      else get_vocabulary fobj <> []).
Proof.
  split; [|split].
  - apply Forall_forall. intros [x y] H. now apply get_vocabulary_entries in H.
  - apply get_vocabulary_nodup.
  - rewrite get_vocabulary_eq. destruct (corpus_words fobj); [reflexivity|discriminate].
Qed.

(** * Tokenisation *)

Lemma concat_cons_char sep c p ps :
  String.concat sep (String c p :: ps) = String c (String.concat sep (p :: ps)).
Proof. cbn. destruct ps; reflexivity. Qed.

Lemma concat_empty_cons h t :
  String.concat EmptyString (h :: t) = (h ++ String.concat EmptyString t)%string.
Proof. cbn. destruct t; [now rewrite app_nil_r'|reflexivity]. Qed.

Lemma concat_empty_app a b :
  String.concat EmptyString (a ++ b)
  = (String.concat EmptyString a ++ String.concat EmptyString b)%string.
Proof.
  induction a as [|h a IH]; [reflexivity|].
  cbn [app]. now rewrite !concat_empty_cons, IH, app_assoc'.
Qed.

Lemma concat_chars p : String.concat EmptyString (chars p) = p.
Proof.
  induction p as [|c p IH]; [reflexivity|].
  cbn [chars]. rewrite concat_empty_cons, IH. reflexivity.
Qed.

Lemma str_split_concat sep :
  sep <> EmptyString ->
  forall fuel x, String.length x <= fuel -> String.concat sep (str_split fuel sep x) = x.
Proof.
  intros Hs. induction fuel as [|fuel IH]; intros x Hf.
  - destruct x; [reflexivity|simpl in Hf; lia].
  - destruct x as [|c x]; [reflexivity|]. simpl in Hf. cbn [str_split].
    destruct (strip_prefix sep (String c x)) as [rest|] eqn:E.
    + pose proof (strip_prefix_length _ _ _ E) as Hl.
      pose proof (strip_prefix_eq _ _ _ E) as He.
      assert (Hp : 0 < String.length sep) by (destruct sep; [congruence|simpl; lia]).
      simpl in Hl.
      pose proof (str_split_nonempty fuel sep rest) as Hne.
      specialize (IH rest ltac:(lia)).
      destruct (str_split fuel sep rest) as [|p ps]; [congruence|].
      change (String.concat sep (EmptyString :: p :: ps))
        with (EmptyString ++ sep ++ String.concat sep (p :: ps))%string.
      rewrite IH. cbn [append]. now rewrite He.
    + pose proof (str_split_nonempty fuel sep x) as Hne.
      specialize (IH x ltac:(lia)).
      destruct (str_split fuel sep x) as [|p ps]; [congruence|].
      now rewrite concat_cons_char, IH.
Qed.

Lemma concat_glued d ps : forall p,
  String.concat EmptyString (chars p ++ flat_map (fun s => d :: s) (map chars ps))
  = String.concat d (p :: ps).
Proof.
  induction ps as [|q ps IH]; intros p.
  - cbn [map flat_map]. now rewrite app_nil_r, concat_chars.
  - cbn [map flat_map]. rewrite concat_empty_app, concat_chars.
    change ((d :: chars q) ++ flat_map (fun s => d :: s) (map chars ps))
      with (d :: (chars q ++ flat_map (fun s => d :: s) (map chars ps))).
    rewrite concat_empty_cons, IH. reflexivity.
Qed.

Lemma tokenize_decode (args : arguments) (x : string) (t : word) :
  tokenize args x = Ok t ->
  last t EmptyString = EOW /\ String.concat (glue args) (removelast t) = x.
Proof.
  unfold tokenize, glue. destruct (morph_as_char args).
  - destruct (String.eqb (delimiter args) EmptyString) eqn:E; [discriminate|].
    intros [= <-]. rewrite last_last, removelast_last. split; [reflexivity|].
    apply str_split_concat; [now apply String.eqb_neq|lia].
  - destruct (morph_aware args).
    + destruct (String.eqb (delimiter args) EmptyString) eqn:E; [discriminate|].
      apply String.eqb_neq in E.
      pose proof (str_split_nonempty (String.length x) (delimiter args) x) as Hne.
      pose proof (str_split_concat _ E (String.length x) x (le_n _)) as Hc.
      destruct (str_split (String.length x) (delimiter args) x) as [|p ps]; [congruence|].
      cbn [map reduce_with bind]. intros [= <-].
      rewrite last_last, removelast_last. split; [reflexivity|].
      rewrite <- Hc, <- concat_glued. f_equal.
      apply (fold_left_intercalate (delimiter args)).
    + intros [= <-]. rewrite last_last, removelast_last. split; [reflexivity|].
      apply concat_chars.
Qed.

(** X6. A tokenised word ends in the end-of-word symbol, and the symbols
    before it spell the word: concatenated they give the word back (glued
    by the delimiter under [--morph-as-char], where the delimiter is not
    kept as a symbol). *)
Theorem tokenize_round_trip (args : arguments) (x : string) (t : word) :
  tokenize args x = Ok t ->
  last t EmptyString = EOW /\ String.concat (glue args) (removelast t) = x.
Proof. apply tokenize_decode. Qed.

Lemma tokenize_round_trip_witness :
  tokenize aware_args "x==ab"%string = Ok ["x"; "=="; "a"; "b"; "</w>"]%string
  /\ last ["x"; "=="; "a"; "b"; "</w>"]%string EmptyString = EOW
  /\ String.concat (glue aware_args) (removelast ["x"; "=="; "a"; "b"; "</w>"]%string)
     = "x==ab"%string.
Proof.
  assert (H1 : tokenize aware_args "x==ab"%string
               = Ok ["x"; "=="; "a"; "b"; "</w>"]%string) by (vm_compute; reflexivity).
  split; [assumption|].
  exact (tokenize_round_trip aware_args "x==ab"%string _ H1).
Defined.

(** Whether [tokenize] raises depends on the options only. *)
Lemma tokenize_outcome args x :
  if splits args && is_empty (delimiter args)
  then tokenize args x = Raise ValueError
  else exists t, tokenize args x = Ok t.
Proof.
  unfold splits, is_empty, tokenize.
  destruct (morph_as_char args); cbn [orb andb].
  - destruct (String.eqb (delimiter args) EmptyString); eauto.
  - destruct (morph_aware args); cbn [andb]; [|eauto].
    destruct (String.eqb (delimiter args) EmptyString); [reflexivity|].
    pose proof (str_split_nonempty (String.length x) (delimiter args) x) as Hne.
    destruct (str_split (String.length x) (delimiter args) x) as [|p ps]; [congruence|].
    cbn [map reduce_with bind]. eauto.
Qed.

Lemma tokenize_inj args x x' t :
  tokenize args x = Ok t -> tokenize args x' = Ok t -> x = x'.
Proof.
  intros H H'. apply tokenize_decode in H, H'.
  destruct H as [_ H], H' as [_ H']. congruence.
Qed.

Lemma word_eqb_iff (a b : word) : word_eqb a b = true <-> a = b.
Proof. unfold word_eqb. destruct (list_eq_dec string_dec a b); split; congruence. Qed.

Lemma set_new {K V} (keqb : K -> K -> bool) (d : list (K * V)) k v :
  Dict.get keqb d k = None -> Dict.set keqb d k v = d ++ [(k, v)].
Proof.
  induction d as [|[k' v'] d IH]; [reflexivity|].
  cbn [Dict.get Dict.set app]. destruct (keqb k' k); [discriminate|].
  intros H. now rewrite IH.
Qed.

Lemma tokenize_all_raise args items : forall acc,
  splits args && is_empty (delimiter args) = true -> items <> [] ->
  tokenize_all args items acc = Raise ValueError.
Proof.
  intros acc H Hne. destruct items as [|[x y] items]; [congruence|].
  cbn [tokenize_all]. pose proof (tokenize_outcome args x) as Ho.
  rewrite H in Ho. now rewrite Ho.
Qed.

Lemma tokenize_all_ok args items : forall acc,
  splits args && is_empty (delimiter args) = false ->
  NoDup (map fst items) ->
  (forall x t, In x (map fst items) -> tokenize args x = Ok t -> ~ In t (map fst acc)) ->
  exists d, Forall2 (tokenized args) items d /\ tokenize_all args items acc = Ok (acc ++ d).
Proof.
  induction items as [|[x y] items IH]; intros acc H Hn Hf.
  - exists []. split; [constructor|]. cbn. now rewrite app_nil_r.
  - cbn [map fst] in Hn. apply NoDup_cons_iff in Hn. destruct Hn as [Hx Hn].
    pose proof (tokenize_outcome args x) as Ho. rewrite H in Ho. destruct Ho as [t Ht].
    cbn [tokenize_all]. rewrite Ht. cbn [bind].
    rewrite set_new.
    2:{ apply (get_none_notin word_eqb word_eqb_iff). apply (Hf x t); [now left|exact Ht]. }
    destruct (IH (acc ++ [(t, y)]) H Hn) as [d [Hd E]].
    + intros x' t' Hx' Ht' Hin. rewrite map_app in Hin. apply in_app_or in Hin.
      destruct Hin as [Hin|[Hin|[]]].
      * apply (Hf x' t'); [now right|exact Ht'|exact Hin].
      * cbn [fst] in Hin. subst t'. apply Hx.
        now rewrite (tokenize_inj args x x' t Ht Ht').
    + exists ((t, y) :: d). split.
      * constructor; [split; [exact Ht|reflexivity]|exact Hd].
      * rewrite E, <- app_assoc. reflexivity.
Qed.

(** ** The sort *)

Lemma insert_desc_perm e l : Permutation (e :: l) (insert_desc e l).
Proof.
  induction l as [|e' l IH]; [reflexivity|].
  cbn [insert_desc]. destruct (snd e' <? snd e)%Z; [reflexivity|].
  rewrite perm_swap. now constructor.
Qed.

Lemma insert_desc_sorted e l :
  StronglySorted freq_ge l -> StronglySorted freq_ge (insert_desc e l).
Proof.
  induction l as [|e' l IH]; intros Hs; [repeat constructor|].
  apply StronglySorted_inv in Hs. destruct Hs as [Hl He'].
  cbn [insert_desc]. destruct (snd e' <? snd e)%Z eqn:E.
  - apply Z.ltb_lt in E. constructor; [constructor; assumption|].
    constructor; [unfold freq_ge; lia|].
    eapply Forall_impl; [|exact He']. unfold freq_ge. intros a Ha. lia.
  - apply Z.ltb_ge in E. constructor; [now apply IH|].
    eapply Permutation_Forall; [apply insert_desc_perm|].
    constructor; [exact E|exact He'].
Qed.

Lemma filter_none {A} (f : A -> bool) l :
  (forall a, In a l -> f a = false) -> filter f l = [].
Proof.
  induction l as [|a l IH]; intros H; [reflexivity|].
  cbn [filter]. rewrite (H a (or_introl eq_refl)). apply IH.
  intros b Hb. apply H. now right.
Qed.

Lemma insert_desc_stable k e l :
  StronglySorted freq_ge l ->
  filter (has_freq k) (insert_desc e l)
  = filter (has_freq k) l ++ (if has_freq k e then [e] else []).
Proof.
  induction l as [|e' l IH]; intros Hs; [reflexivity|].
  apply StronglySorted_inv in Hs. destruct Hs as [Hl He'].
  cbn [insert_desc]. destruct (snd e' <? snd e)%Z eqn:E.
  - apply Z.ltb_lt in E. cbn [filter]. destruct (has_freq k e) eqn:Ek.
    + assert (Hnone : filter (has_freq k) (e' :: l) = []).
      { unfold has_freq in Ek. apply Z.eqb_eq in Ek.
        cbn [filter]. replace (has_freq k e') with false
          by (symmetry; unfold has_freq; apply Z.eqb_neq; lia).
        apply filter_none. intros a Ha.
        rewrite Forall_forall in He'. specialize (He' a Ha). unfold freq_ge in He'.
        unfold has_freq. apply Z.eqb_neq. lia. }
      cbn [filter] in Hnone. now rewrite Hnone.
    + now rewrite app_nil_r.
  - cbn [filter]. rewrite (IH Hl). now destruct (has_freq k e').
Qed.

Lemma sort_fold l : forall acc,
  StronglySorted freq_ge acc ->
  StronglySorted freq_ge (fold_left (fun a e => insert_desc e a) l acc)
  /\ Permutation (acc ++ l) (fold_left (fun a e => insert_desc e a) l acc)
  /\ forall k, filter (has_freq k) (fold_left (fun a e => insert_desc e a) l acc)
               = filter (has_freq k) acc ++ filter (has_freq k) l.
Proof.
  induction l as [|e l IH]; intros acc Hs.
  - cbn [fold_left]. rewrite app_nil_r. split; [exact Hs|]. split; [reflexivity|].
    intros k. cbn. now rewrite app_nil_r.
  - cbn [fold_left].
    destruct (IH (insert_desc e acc) (insert_desc_sorted e acc Hs)) as [H1 [H2 H3]].
    split; [exact H1|]. split.
    + rewrite <- H2. rewrite <- (insert_desc_perm e acc).
      symmetry. apply Permutation_middle.
    + intros k. rewrite H3, (insert_desc_stable k e acc Hs), <- app_assoc.
      cbn [filter]. now destruct (has_freq k e).
Qed.

Lemma sort_desc_spec l :
  StronglySorted freq_ge (sort_desc l) /\ Permutation l (sort_desc l)
  /\ forall k, filter (has_freq k) (sort_desc l) = filter (has_freq k) l.
Proof.
  unfold sort_desc. destruct (sort_fold l [] (SSorted_nil _)) as [H1 [H2 H3]]. auto.
Qed.

Lemma build_vocabulary_shape args fobj v :
  build_vocabulary args fobj = Ok v ->
  exists d,
    Forall2 (tokenized args) (get_vocabulary fobj) d /\ v = sort_desc d.
Proof.
  unfold build_vocabulary. intros H.
  destruct (splits args && is_empty (delimiter args)) eqn:E.
  - destruct (get_vocabulary fobj) as [|e items] eqn:Eg.
    + cbn in H. injection H as <-. exists []. split; [constructor|reflexivity].
    + rewrite (tokenize_all_raise args (e :: items) [] E) in H by discriminate.
      discriminate.
  - destruct (tokenize_all_ok args (get_vocabulary fobj) [] E (get_vocabulary_nodup fobj))
      as [d [Hd Et]]; [intros x t _ _ []|].
    rewrite Et in H. cbn in H. injection H as <-. now exists d.
Qed.

Lemma build_vocabulary_cases (args : arguments) (fobj : list string) :
  if splits args && is_empty (delimiter args) && negb (is_nil (corpus_words fobj))
  then build_vocabulary args fobj = Raise ValueError
  else exists v, build_vocabulary args fobj = Ok v.
Proof.
  unfold build_vocabulary. rewrite get_vocabulary_eq.
  destruct (splits args && is_empty (delimiter args)) eqn:E; cbn [andb].
  - destruct (corpus_words fobj) as [|w ws]; cbn [is_nil negb].
    + cbn. eauto.
    + rewrite (tokenize_all_raise args _ [] E); [reflexivity|]. cbn [uniq map]. discriminate.
  - rewrite <- get_vocabulary_eq.
    destruct (tokenize_all_ok args (get_vocabulary fobj) [] E (get_vocabulary_nodup fobj))
      as [d [Hd Et]]; [intros x t _ _ []|].
    rewrite Et. cbn. eauto.
Qed.

(** X7. The vocabulary construction raises ValueError exactly when a mode
    that splits words at the delimiter is run with an empty delimiter on a
    corpus that holds a word; in every other case it returns. *)
Theorem build_vocabulary_errors (args : arguments) (fobj : list string) :
  if splits args && is_empty (delimiter args) && negb (is_nil (corpus_words fobj))
  then build_vocabulary args fobj = Raise ValueError
  else exists v, build_vocabulary args fobj = Ok v.
Proof. apply build_vocabulary_cases. Qed.

(** X8. The sorted vocabulary holds every word of the counter once, in
    tokenised form and with its count; it is in the order of non-increasing
    count, and words of equal count keep the order of the counter, that is,
    of their first occurrence in the corpus. *)
Theorem build_vocabulary_sorted (args : arguments) (fobj : list string) (v : vocabulary) :
  build_vocabulary args fobj = Ok v ->
  exists d,
    Forall2 (tokenized args) (get_vocabulary fobj) d
    /\ Permutation d v
    /\ StronglySorted freq_ge v
    /\ forall k, filter (has_freq k) v = filter (has_freq k) d.
Proof.
  intros H. destruct (build_vocabulary_shape args fobj v H) as [d [Hd ->]].
  destruct (sort_desc_spec d) as [H1 [H2 H3]]. exists d. auto.
Qed.

Lemma build_vocabulary_sorted_witness :
  build_vocabulary aware_args demo_corpus = Ok demo_vocab
  /\ exists d,
       Forall2 (tokenized aware_args) (get_vocabulary demo_corpus) d
       /\ Permutation d demo_vocab
       /\ StronglySorted freq_ge demo_vocab
       /\ forall k, filter (has_freq k) demo_vocab = filter (has_freq k) d.
Proof.
  assert (H1 : build_vocabulary aware_args demo_corpus = Ok demo_vocab)
    by (vm_compute; reflexivity).
  split; [assumption|].
  exact (build_vocabulary_sorted aware_args demo_corpus demo_vocab H1).
Defined.

(** X9. Every word of the sorted vocabulary ends in the end-of-word symbol
    and has a count of at least 1, and no word is listed twice. *)
Theorem build_vocabulary_entries (args : arguments) (fobj : list string) (v : vocabulary) :
  build_vocabulary args fobj = Ok v ->
  Forall (fun e => last (fst e) EmptyString = EOW /\ (1 <= snd e)%Z) v
  /\ NoDup (map fst v)
  /\ List.length v = List.length (uniq (corpus_words fobj)).
Proof.
  intros H. destruct (build_vocabulary_shape args fobj v H) as [d [Hd ->]].
  destruct (sort_desc_spec d) as [_ [Hp _]].
  assert (Hent : Forall (fun e => last (fst e) EmptyString = EOW /\ (1 <= snd e)%Z) d).
  { clear Hp H. pose proof (get_vocabulary_entries fobj) as Hg.
    induction Hd as [|[x y] [t y'] items d [Ht Hy] Hd IH]; [constructor|].
    cbn [fst snd] in *. subst y'. constructor.
    - cbn [fst snd]. split; [now apply (tokenize_decode args x t)|].
      now apply (Hg x y); left.
    - apply IH. intros x' z Hin. apply Hg. now right. }
  assert (Hnd : NoDup (map fst d)).
  { clear Hp H Hent. pose proof (get_vocabulary_nodup fobj) as Hn.
    induction Hd as [|[x y] [t y'] items d [Ht Hy] Hd IH]; [constructor|].
    cbn [map fst snd] in *. apply NoDup_cons_iff in Hn. destruct Hn as [Hx Hn].
    constructor; [|now apply IH].
    intros Hin. apply Hx. clear IH Hn Hx.
    induction Hd as [|[x1 y1] [t1 y1'] items d [Ht1 _] Hd IH]; [destruct Hin|].
    cbn [map fst] in *. destruct Hin as [<-|Hin].
    - left. now apply (tokenize_inj args x1 x t1).
    - right. now apply IH. }
  split; [|split].
  - eapply Permutation_Forall; eassumption.
  - eapply Permutation_NoDup; [apply Permutation_map; exact Hp|exact Hnd].
  - rewrite <- (Permutation_length Hp), <- (Forall2_length Hd), get_vocabulary_eq.
    apply length_map.
Qed.

Lemma build_vocabulary_entries_witness :
  build_vocabulary aware_args demo_corpus = Ok demo_vocab
  /\ Forall (fun e => last (fst e) EmptyString = EOW /\ (1 <= snd e)%Z) demo_vocab
  /\ NoDup (map fst demo_vocab)
  /\ List.length demo_vocab = List.length (uniq (corpus_words demo_corpus)).
Proof.
  assert (H1 : build_vocabulary aware_args demo_corpus = Ok demo_vocab)
    by (vm_compute; reflexivity).
  split; [assumption|].
  exact (build_vocabulary_entries aware_args demo_corpus demo_vocab H1).
Defined.

(** * The tables *)

Lemma filter_filter {A} (f g : A -> bool) l :
  filter f (filter g l) = filter (fun x => g x && f x) l.
Proof.
  induction l as [|a l IH]; [reflexivity|].
  cbn [filter]. destruct (g a); cbn [filter andb]; now rewrite IH.
Qed.

Lemma filter_all {A} (f : A -> bool) l :
  (forall a, In a l -> f a = true) -> filter f l = l.
Proof.
  induction l as [|a l IH]; intros H; [reflexivity|].
  cbn [filter]. rewrite (H a (or_introl eq_refl)). f_equal. apply IH.
  intros b Hb. apply H. now right.
Qed.

Lemma del_filter (d : stats_t) k :
  NoDup (map fst d) ->
  Dict.del pair_eqb d k = filter (fun e => negb (pair_eqb (fst e) k)) d.
Proof.
  induction d as [|[k' v'] d IH]; intros Hn; [reflexivity|].
  cbn [map fst] in Hn. apply NoDup_cons_iff in Hn. destruct Hn as [Hk Hn].
  cbn [Dict.del filter fst]. destruct (pair_eqb k' k) eqn:E; cbn [negb].
  - apply pair_eqb_eq in E. subst k'. symmetry. apply filter_all.
    intros [q x] Hq. cbn [fst]. apply negb_true_iff. apply pair_eqb_neq.
    intros Hkq. apply Hk. apply in_map_iff. exists (q, x).
    split; [cbn [fst]; congruence|assumption].
  - now rewrite IH.
Qed.

Lemma prune_loop_fst thr items : forall (s big : stats_t),
  NoDup (map fst s) ->
  fst (prune_loop items s big thr)
  = filter (fun e => negb (existsb (fun it => pair_eqb (fst it) (fst e) && below (snd it) thr)
                             items)) s.
Proof.
  induction items as [|[k x] items IH]; intros s big Hn.
  - cbn [prune_loop fst existsb negb]. symmetry. now apply filter_all.
  - cbn [prune_loop existsb fst snd]. destruct (below x thr) eqn:Eb.
    + rewrite IH by now apply nodup_del. rewrite del_filter by assumption.
      rewrite filter_filter. apply filter_ext. intros [q y]. cbn [fst].
      rewrite andb_true_r, negb_orb. rewrite (pair_eqb_sym q k). reflexivity.
    + rewrite IH by assumption. apply filter_ext. intros [q y].
      now rewrite andb_false_r.
Qed.

Lemma prune_loop_noop thr items : forall (s big : stats_t),
  Forall (fun e => below (snd e) thr = false) items ->
  prune_loop items s big thr = (s, big).
Proof.
  induction items as [|[k x] items IH]; intros s big H; [reflexivity|].
  apply Forall_cons_iff in H. destruct H as [Hx H]. cbn [snd] in Hx.
  cbn [prune_loop]. rewrite Hx. now apply IH.
Qed.

Lemma prune_stats_fst thr (s big : stats_t) :
  NoDup (map fst s) -> fst (prune_stats s big thr) = filter (kept thr) s.
Proof.
  intros Hn. unfold prune_stats. rewrite prune_loop_fst by assumption.
  apply filter_ext_in. intros [q y] Hq. unfold kept. cbn [fst snd]. f_equal.
  destruct (below y thr) eqn:Eb.
  - apply existsb_exists. exists (q, y). cbn [fst snd].
    now rewrite pair_eqb_refl, Eb.
  - destruct (existsb _ s) eqn:E; [|reflexivity].
    apply existsb_exists in E. destruct E as [[q' y'] [Hin E]]. cbn [fst snd] in E.
    apply andb_true_iff in E. destruct E as [E1 E2]. apply pair_eqb_eq in E1. subst q'.
    assert (y' = y); [|congruence].
    pose proof (get_in pair_eqb pair_eqb_eq s q y Hn Hq) as G1.
    pose proof (get_in pair_eqb pair_eqb_eq s q y' Hn Hin) as G2. congruence.
Qed.

(** X10. [prune_stats] keeps in the working table exactly the entries that
    are not below the threshold, in their order; a pruned pair gets its
    value in the full table when the value is not negative and is added to
    the entry of the full table when it is, the other entries of the full
    table stay; pruning a second time changes nothing. *)
Theorem prune_stats_result (stats big : stats_t) (thr : Q) :
  NoDup (map fst stats) -> NoDup (map fst big) ->
  fst (prune_stats stats big thr) = filter (kept thr) stats
  /\ (forall q,
        Dict.get pair_eqb (snd (prune_stats stats big thr)) q
        = match Dict.get pair_eqb stats q with
          | Some x => if below x thr then Some (stored big q x) else Dict.get pair_eqb big q
          | None => Dict.get pair_eqb big q
          end)
  /\ prune_stats (fst (prune_stats stats big thr)) (snd (prune_stats stats big thr)) thr
     = prune_stats stats big thr.
Proof.
  intros Hns Hnb. split; [now apply prune_stats_fst|]. split.
  - intros q. unfold prune_stats.
    destruct (prune_loop_spec thr stats stats big Hns Hns Hnb
                (fun k x H => get_in pair_eqb pair_eqb_eq stats k x Hns H)) as [_ [_ H]].
    destruct (H q) as [_ B]. rewrite B. reflexivity.
  - rewrite (prune_stats_fst thr stats big Hns). unfold prune_stats at 1.
    rewrite prune_loop_noop.
    + rewrite <- (prune_stats_fst thr stats big Hns). now destruct (prune_stats stats big thr).
    + apply Forall_forall. intros e He. apply filter_In in He. destruct He as [_ He].
      unfold kept in He. now apply negb_true_iff in He.
Qed.

Lemma prune_stats_result_witness :
  NoDup (map fst demo_stats) /\ NoDup (map fst demo_big)
  /\ fst (prune_stats demo_stats demo_big (Qmake 2 1)) = filter (kept (Qmake 2 1)) demo_stats
  /\ (forall q,
        Dict.get pair_eqb (snd (prune_stats demo_stats demo_big (Qmake 2 1))) q
        = match Dict.get pair_eqb demo_stats q with
          | Some x => if below x (Qmake 2 1) then Some (stored demo_big q x)
                      else Dict.get pair_eqb demo_big q
          | None => Dict.get pair_eqb demo_big q
          end)
  /\ prune_stats (fst (prune_stats demo_stats demo_big (Qmake 2 1)))
       (snd (prune_stats demo_stats demo_big (Qmake 2 1))) (Qmake 2 1)
     = prune_stats demo_stats demo_big (Qmake 2 1).
Proof.
  assert (H1 : NoDup (map fst demo_stats)).
  { vm_compute. repeat constructor; cbn; intuition discriminate. }
  assert (H2 : NoDup (map fst demo_big)).
  { vm_compute. repeat constructor; cbn; intuition discriminate. }
  split; [assumption|]. split; [assumption|].
  exact (prune_stats_result demo_stats demo_big (Qmake 2 1) H1 H2).
Defined.

(** ** The maximum *)

Lemma max_key_from_first d : forall pre0 best bv post0,
  Forall (fun e => (snd e < bv)%Z) pre0 -> Forall (fun e => (snd e <= bv)%Z) post0 ->
  exists pre v post,
    pre0 ++ (best, bv) :: post0 ++ d = pre ++ (max_key_from best bv d, v) :: post
    /\ Forall (fun e => (snd e < v)%Z) pre /\ Forall (fun e => (snd e <= v)%Z) post.
Proof.
  induction d as [|[k x] d IH]; intros pre0 best bv post0 Hpre Hpost.
  - exists pre0, bv, post0. rewrite app_nil_r. auto.
  - cbn [max_key_from]. destruct (bv <? x)%Z eqn:E.
    + apply Z.ltb_lt in E.
      destruct (IH (pre0 ++ (best, bv) :: post0) k x []) as [pre [v [post [H1 [H2 H3]]]]].
      * apply Forall_app. split.
        -- eapply Forall_impl; [|exact Hpre]. cbn. intros a Ha. lia.
        -- constructor; [cbn; lia|].
           eapply Forall_impl; [|exact Hpost]. cbn. intros a Ha. lia.
      * constructor.
      * exists pre, v, post. split; [|auto]. rewrite <- H1.
        cbn [app]. rewrite <- app_assoc. reflexivity.
    + apply Z.ltb_ge in E.
      destruct (IH pre0 best bv (post0 ++ [(k, x)])) as [pre [v [post [H1 [H2 H3]]]]].
      * exact Hpre.
      * apply Forall_app. split; [exact Hpost|]. constructor; [exact E|constructor].
      * exists pre, v, post. split; [|auto]. rewrite <- H1.
        rewrite <- app_assoc. reflexivity.
Qed.

(** X11. [max(stats, key=stats.get)] raises ValueError on the empty table
    only; otherwise it returns the first key, in the order of the table,
    among those of the greatest value: every entry before it has a smaller
    value, and no entry after it has a greater one. *)
Theorem max_key_first (d : stats_t) :
  match max_key d with
  | Ok k =>
      exists pre v post,
        d = pre ++ (k, v) :: post
        /\ Forall (fun e => (snd e < v)%Z) pre /\ Forall (fun e => (snd e <= v)%Z) post
  | Raise e => d = [] /\ e = ValueError
  end.
Proof.
  destruct d as [|[k v] d]; [now split|]. cbn [max_key].
  destruct (max_key_from_first d [] k v [] (Forall_nil _) (Forall_nil _))
    as [pre [x [post [H1 H2]]]].
  exists pre, x, post. split; [exact H1|exact H2].
Qed.

(** ** A merge without an indexed word *)

Lemma set_set {V} (d : list ((string * string) * V)) k v v' :
  Dict.set pair_eqb (Dict.set pair_eqb d k v) k v' = Dict.set pair_eqb d k v'.
Proof.
  induction d as [|[k' x] d IH]; cbn [Dict.set].
  - now rewrite pair_eqb_refl.
  - destruct (pair_eqb k' k) eqn:E; cbn [Dict.set]; rewrite E; [reflexivity|now rewrite IH].
Qed.

Lemma replace_loop_skip pr items : forall v chs,
  Forall (fun it => (snd it < 1)%Z) items -> replace_loop pr items v chs = Ok (v, chs).
Proof.
  induction items as [|[j c] items IH]; intros v chs H; [reflexivity|].
  apply Forall_cons_iff in H. destruct H as [Hc H]. cbn [snd] in Hc.
  cbn [replace_loop]. apply Z.ltb_lt in Hc. rewrite Hc. now apply IH.
Qed.

(** X12. Merging a pair for which the index holds no word with a positive
    count (in particular a pair that the index does not know) changes no
    word and raises nothing, whatever the positions in its entry: the pair
    only gets the frequency 0 and an empty index entry, in its place when it
    was a key and at the end otherwise. *)
Theorem merge_step_absent (pr : pair) (v : vocabulary) (s : stats_t) (ix : indices_t) :
  Forall (fun it => (snd it < 1)%Z) (inner_of ix pr) ->
  merge_step pr (v, s, ix) = Ok (v, Dict.set pair_eqb s pr 0%Z, Dict.set pair_eqb ix pr []).
Proof.
  intros H. unfold merge_step, replace_pair.
  rewrite (replace_loop_skip pr _ v [] H). cbn [bind].
  unfold update_pair_statistics. cbn [update_changes bind].
  unfold touch. destruct (Dict.mem pair_eqb ix pr); rewrite !set_set; reflexivity.
Qed.

Lemma merge_step_absent_witness :
  Forall (fun it => (snd it < 1)%Z) (inner_of (snd demo_tables) ("q", "r")%string)
  /\ merge_step ("q", "r")%string (demo_vocab, fst demo_tables, snd demo_tables)
     = Ok (demo_vocab, Dict.set pair_eqb (fst demo_tables) ("q", "r")%string 0%Z,
           Dict.set pair_eqb (snd demo_tables) ("q", "r")%string []).
Proof.
  assert (H1 : Forall (fun it => (snd it < 1)%Z)
                 (inner_of (snd demo_tables) ("q", "r")%string))
    by (vm_compute; constructor).
  split; [assumption|].
  exact (merge_step_absent _ demo_vocab (fst demo_tables) (snd demo_tables) H1).
Defined.

(** * Words as strings *)

Lemma split_ws_space s : split_ws (String " "%char s) = split_ws s.
Proof. reflexivity. Qed.

Lemma split_ws_tail_join w : split_ws (tail_join w) = split_ws (join w).
Proof. destruct w; reflexivity. Qed.

(** X13. The passage of a word through its space-joined string in
    [replace_pair] gives the symbols back when none of them holds
    whitespace, except the empty ones, which are lost. *)
Theorem join_split_drops_empty (w : word) :
  forallb no_space w = true ->
  split_ws (join w) = filter (fun s => negb (is_empty s)) w.
Proof.
  induction w as [|a w IH]; [reflexivity|].
  cbn [forallb]. intros H. apply andb_true_iff in H. destruct H as [Ha Hw].
  rewrite join_cons, (split_ws_token a _ Ha (at_gap_tail_join w)), split_ws_tail_join, (IH Hw).
  cbn [filter]. now destruct a.
Qed.

Lemma join_split_drops_empty_witness :
  forallb no_space ["a"; ""; "b"; "</w>"]%string = true
  /\ split_ws (join ["a"; ""; "b"; "</w>"]%string)
     = filter (fun s => negb (is_empty s)) ["a"; ""; "b"; "</w>"]%string.
Proof.
  assert (H1 : forallb no_space ["a"; ""; "b"; "</w>"]%string = true) by reflexivity.
  split; [assumption|].
  exact (join_split_drops_empty ["a"; ""; "b"; "</w>"]%string H1).
Defined.

Lemma strip_delims_cons a w :
  strip_delims (a :: w) = if is_delim a then strip_delims w else a :: strip_delims w.
Proof. unfold strip_delims, is_delim. cbn [filter]. now destruct (String.eqb a DELIM). Qed.

Lemma strip_delims_idem w : strip_delims (strip_delims w) = strip_delims w.
Proof.
  unfold strip_delims. rewrite filter_filter. apply filter_ext. intros a.
  now destruct (String.eqb a DELIM).
Qed.

Lemma spelling_collapse m : spelling (collapse m) = spelling m.
Proof.
  unfold spelling. destruct (collapse_cases m) as [->|[_ ->]]; [reflexivity|].
  fold (strip_delims m). now rewrite strip_delims_idem.
Qed.

Section Spelling.
Variables L R : symbol.
Hypothesis L_plain : is_delim L = false.
Hypothesis R_plain : is_delim R = false.
Hypothesis N_plain : is_delim (L ++ R)%string = false.

Lemma spelling_merge w : spelling (merge_pair L R w) = spelling w.
Proof.
  pattern w. apply (merge_ind L R); clear w.
  - reflexivity.
  - intros a. reflexivity.
  - intros rest IH. rewrite merge_hit. unfold spelling in *.
    rewrite !strip_delims_cons, L_plain, R_plain, N_plain.
    rewrite !concat_empty_cons, IH. now rewrite app_assoc'.
  - intros a b rest E IH. rewrite (merge_miss L R a b rest E). unfold spelling in *.
    rewrite (strip_delims_cons a (merge_pair L R (b :: rest))).
    rewrite (strip_delims_cons a (b :: rest)).
    destruct (is_delim a); [exact IH|].
    now rewrite !concat_empty_cons, IH.
Qed.
End Spelling.

(** X14. A merge does not change what a word spells: for well-formed
    symbols, none of L, R and L+R being the boundary delimiter, the word
    that [replace_pair] stores has the same concatenation of its symbols,
    the delimiters apart, as the word it replaces. *)
Theorem rewrite_word_spelling (pr : pair) (w : word) :
  wf_sym (fst pr) = true -> wf_sym (snd pr) = true -> wf_word w = true ->
  is_delim (fst pr) = false -> is_delim (snd pr) = false ->
  is_delim (fst pr ++ snd pr)%string = false ->
  spelling (rewrite_word pr w) = spelling w.
Proof.
  destruct pr as [L R]. cbn [fst snd]. intros wfL wfR Hw HL HR HN.
  rewrite rewrite_word_merge by assumption.
  rewrite spelling_collapse. now apply spelling_merge.
Qed.

Lemma rewrite_word_spelling_witness :
  wf_sym (fst ("b", "</w>")%string) = true /\ wf_sym (snd ("b", "</w>")%string) = true
  /\ wf_word ["a"; "=="; "b"; "</w>"]%string = true
  /\ is_delim (fst ("b", "</w>")%string) = false
  /\ is_delim (snd ("b", "</w>")%string) = false
  /\ is_delim (fst ("b", "</w>") ++ snd ("b", "</w>"))%string = false
  /\ spelling (rewrite_word ("b", "</w>")%string ["a"; "=="; "b"; "</w>"]%string)
     = spelling ["a"; "=="; "b"; "</w>"]%string.
Proof.
  assert (H1 : wf_sym (fst ("b", "</w>")%string) = true) by reflexivity.
  assert (H2 : wf_sym (snd ("b", "</w>")%string) = true) by reflexivity.
  assert (H3 : wf_word ["a"; "=="; "b"; "</w>"]%string = true) by reflexivity.
  assert (H4 : is_delim (fst ("b", "</w>")%string) = false) by reflexivity.
  assert (H5 : is_delim (snd ("b", "</w>")%string) = false) by reflexivity.
  assert (H6 : is_delim (fst ("b", "</w>") ++ snd ("b", "</w>"))%string = false)
    by reflexivity.
  repeat (split; [assumption|]).
  exact (rewrite_word_spelling ("b", "</w>")%string ["a"; "=="; "b"; "</w>"]%string
           H1 H2 H3 H4 H5 H6).
Defined.

(** X15. A rule is written as one line that splits at whitespace into its
    two symbols again when both are well formed. *)
Theorem rule_line_round_trip (p : pair) :
  wf_sym (fst p) = true -> wf_sym (snd p) = true ->
  split_ws (rule_line p) = [fst p; snd p].
Proof.
  destruct p as [a b]. cbn [fst snd]. intros Ha Hb. unfold rule_line. cbn [fst snd].
  assert (Na : no_space a = true) by (unfold wf_sym in Ha; apply andb_true_iff in Ha; tauto).
  assert (Nb : no_space b = true) by (unfold wf_sym in Hb; apply andb_true_iff in Hb; tauto).
  rewrite (split_ws_token a (" " ++ b ++ nl)%string Na eq_refl).
  change (" " ++ b ++ nl)%string with (String " "%char (b ++ nl)%string).
  rewrite split_ws_space, (split_ws_token b nl Nb eq_refl).
  destruct a; [discriminate|]. destruct b; [discriminate|]. reflexivity.
Qed.

Lemma rule_line_round_trip_witness :
  wf_sym (fst ("de", "</w>")%string) = true /\ wf_sym (snd ("de", "</w>")%string) = true
  /\ split_ws (rule_line ("de", "</w>")%string)
     = [fst ("de", "</w>")%string; snd ("de", "</w>")%string].
Proof.
  assert (H1 : wf_sym (fst ("de", "</w>")%string) = true) by reflexivity.
  assert (H2 : wf_sym (snd ("de", "</w>")%string) = true) by reflexivity.
  repeat (split; [assumption|]).
  exact (rule_line_round_trip ("de", "</w>")%string H1 H2).
Defined.

(** * The initial count *)

Lemma mem_recount v : forall i st q,
  Dict.mem pair_eqb (fst (recount i v st)) q
  = Dict.mem pair_eqb (fst st) q || existsb (fun e => existsb (pair_eqb q) (pairs_of (fst e))) v.
Proof.
  induction v as [|[w f] v IH]; intros i st q.
  - cbn. now rewrite orb_false_r.
  - cbn [recount existsb fst]. rewrite IH, mem_bumps. now rewrite orb_assoc.
Qed.

(** X16. On a vocabulary without empty span [get_pair_statistics] returns:
    the frequency of a pair is the sum, over the words, of the word's count
    times the number of places where the pair stands inside a morpheme; the
    index gives that number of places for every word; the keys are the
    pairs that stand somewhere, each once. *)
Theorem get_pair_statistics_counts (v : vocabulary) :
  all_spans_ok v = true ->
  exists s ix,
    get_pair_statistics v = Ok (s, ix)
    /\ (forall q, stat_of s q = true_freq v q)
    /\ (forall q j, idx_of ix q j = cnt q (word_at v j))
    /\ NoDup (map fst s)
    /\ (forall q, Dict.mem pair_eqb s q
                  = existsb (fun e => existsb (pair_eqb q) (pairs_of (fst e))) v).
Proof.
  intros H. rewrite get_pair_statistics_eq, H.
  destruct (recount 0 v ([], [])) as [s ix] eqn:E. exists s, ix.
  split; [reflexivity|].
  assert (Eg : get_pair_statistics v = Ok (s, ix))
    by (rewrite get_pair_statistics_eq, H; now rewrite E).
  destruct (get_pair_statistics_exact v s ix Eg) as [H1 H2].
  split; [exact H1|]. split; [exact H2|]. split.
  - replace s with (fst (recount 0 v ([], []))) by now rewrite E.
    apply nodup_stats_recount. constructor.
  - intros q. replace s with (fst (recount 0 v ([], []))) by now rewrite E.
    now rewrite mem_recount.
Qed.

Lemma get_pair_statistics_counts_witness :
  all_spans_ok demo_vocab = true
  /\ exists s ix,
       get_pair_statistics demo_vocab = Ok (s, ix)
       /\ (forall q, stat_of s q = true_freq demo_vocab q)
       /\ (forall q j, idx_of ix q j = cnt q (word_at demo_vocab j))
       /\ NoDup (map fst s)
       /\ (forall q, Dict.mem pair_eqb s q
                     = existsb (fun e => existsb (pair_eqb q) (pairs_of (fst e))) demo_vocab).
Proof.
  assert (H1 : all_spans_ok demo_vocab = true) by (vm_compute; reflexivity).
  split; [assumption|].
  exact (get_pair_statistics_counts demo_vocab H1).
Defined.

(** * Whole runs *)

Lemma bumps_nonempty ps : forall st j df dc,
  fst st <> [] -> fst (bumps st ps j df dc) <> [].
Proof.
  induction ps as [|p ps IH]; intros st j df dc H; [exact H|].
  unfold bumps. cbn [fold_left]. apply IH. cbn [bump fst]. apply set_nonempty.
Qed.

Lemma bumps_empty ps st j df dc :
  fst (bumps st ps j df dc) = [] -> ps = [].
Proof.
  destruct ps as [|p ps]; [reflexivity|]. intros H. exfalso.
  unfold bumps in H. cbn [fold_left] in H.
  revert H. apply bumps_nonempty. cbn [bump fst]. apply set_nonempty.
Qed.

Lemma recount_nonempty v : forall i st,
  fst st <> [] -> fst (recount i v st) <> [].
Proof.
  induction v as [|[w f] v IH]; intros i st H; [exact H|].
  cbn [recount]. apply IH. now apply bumps_nonempty.
Qed.

Lemma recount_empty v : forall i st,
  fst st = [] ->
  (fst (recount i v st) = [] <-> forallb (fun e => no_pairs (fst e)) v = true).
Proof.
  induction v as [|[w f] v IH]; intros i st H; [cbn; tauto|].
  cbn [recount forallb fst]. unfold no_pairs at 1.
  destruct (pairs_of w) as [|p ps] eqn:E.
  - cbn [bumps fold_left andb]. now apply IH.
  - cbn [andb]. split; [|discriminate]. intros H'. exfalso. revert H'.
    apply recount_nonempty. unfold bumps. cbn [fold_left].
    apply bumps_nonempty. cbn [bump fst]. apply set_nonempty.
Qed.

Lemma learn_bpe_cases args v :
  if negb (all_spans_ok v) then learn_bpe args v = Raise IndexError
  else if forallb (fun e => no_pairs (fst e)) v then learn_bpe args v = Raise ValueError
  else exists st, learn_bpe args v = Ok st.
Proof.
  unfold learn_bpe. destruct (initial_state v) as [st0|e] eqn:E0.
  - destruct (initial_state_inv _ _ E0) as [Hinv _].
    destruct (loop_ok args (Z.to_nat (symbols args)) 0%Z st0 Hinv) as [st [E _]].
    unfold initial_state in E0. rewrite get_pair_statistics_eq in E0.
    destruct (all_spans_ok v); [|discriminate]. cbn [negb bind] in *.
    destruct (recount 0 v ([], [])) as [s0 ix0] eqn:Er.
    unfold max_value in E0. destruct (max_key s0) as [k|e] eqn:Ek; [|discriminate].
    destruct (forallb (fun e => no_pairs (fst e)) v) eqn:Ef; [|eauto].
    apply (recount_empty v 0 ([], []) eq_refl) in Ef. rewrite Er in Ef.
    cbn [fst] in Ef. subst s0. discriminate.
  - unfold initial_state in E0. rewrite get_pair_statistics_eq in E0.
    destruct (all_spans_ok v); cbn [negb bind] in *; [|congruence].
    destruct (recount 0 v ([], [])) as [s0 ix0] eqn:Er.
    unfold max_value in E0. destruct (max_key s0) as [k|e'] eqn:Ek; [discriminate|].
    cbn [bind] in E0. injection E0 as <-.
    destruct s0 as [|[k x] s0]; [|discriminate]. cbn in Ek. injection Ek as <-.
    assert (Ef : forallb (fun e => no_pairs (fst e)) v = true).
    { apply (recount_empty v 0 ([], []) eq_refl). now rewrite Er. }
    now rewrite Ef.
Qed.

(** X17. The learner raises IndexError exactly on a vocabulary with a word
    that has an empty morpheme span, ValueError exactly on a vocabulary
    without such a word in which no two symbols stand side by side inside a
    morpheme (the empty vocabulary among them), and returns on every other
    vocabulary, whatever the options. *)
Theorem learn_bpe_outcome (args : arguments) (v : vocabulary) :
  if negb (all_spans_ok v) then learn_bpe args v = Raise IndexError
  else if forallb (fun e => no_pairs (fst e)) v then learn_bpe args v = Raise ValueError
  else exists st, learn_bpe args v = Ok st.
Proof. apply learn_bpe_cases. Qed.

(** ** The default mode *)

Lemma chars_length s x : In s (chars x) -> String.length s = 1.
Proof.
  intros H. destruct (in_chars _ _ H) as [c [-> _]]. reflexivity.
Qed.

Lemma plain_word_no_delim x : has_delim (chars x ++ [EOW]) = false.
Proof.
  destruct (has_delim (chars x ++ [EOW])) eqn:E; [|reflexivity].
  apply has_delim_in in E. apply in_app_or in E. destruct E as [E|[E|[]]].
  - apply chars_length in E. discriminate.
  - discriminate.
Qed.

Lemma plain_word_pairs x : x <> EmptyString -> no_pairs (chars x ++ [EOW]) = false.
Proof.
  intros Hx. unfold no_pairs. rewrite pairs_of_no_delim by apply plain_word_no_delim.
  destruct x as [|c x]; [congruence|]. cbn [chars app].
  destruct (chars x ++ [EOW]) eqn:E; [destruct (chars x); discriminate|reflexivity].
Qed.

Lemma plain_word_spans x : spans_ok (chars x ++ [EOW]) = true.
Proof.
  apply spans_ok_plain; [apply plain_word_no_delim|]. destruct (chars x); discriminate.
Qed.

Lemma forallb_perm {A} (f : A -> bool) l l' :
  Permutation l l' -> forallb f l = forallb f l'.
Proof.
  intros H. induction H; cbn [forallb].
  - reflexivity.
  - now rewrite IHPermutation.
  - now rewrite !andb_assoc, (andb_comm (f y)).
  - congruence.
Qed.

Lemma uniq_nil l : uniq l = [] -> l = [].
Proof. destruct l; [reflexivity|discriminate]. Qed.

(** X18. In the default mode (neither morph option) the whole program
    raises ValueError on a corpus without any word and returns on every
    other corpus. *)
Theorem main_default_total (args : arguments) (fobj : list string) :
  morph_as_char args = false -> morph_aware args = false ->
  if is_nil (corpus_words fobj) then main args fobj = Raise ValueError
  else exists st, main args fobj = Ok st.
Proof.
  intros Hc Ha. unfold main.
  pose proof (build_vocabulary_cases args fobj) as Hb.
  unfold splits in Hb. rewrite Hc, Ha in Hb. cbn [orb andb] in Hb.
  destruct Hb as [v Ev]. rewrite Ev. cbn [bind].
  destruct (build_vocabulary_shape args fobj v Ev) as [d [Hd ->]].
  destruct (sort_desc_spec d) as [_ [Hp _]].
  pose proof (get_vocabulary_entries fobj) as Hg.
  assert (Hw : Forall (fun e => exists x, x <> EmptyString /\ fst e = chars x ++ [EOW]) d).
  { clear Hp Ev. induction Hd as [|[x y] [t y'] items d [Ht Hy] Hd IH]; [constructor|].
    constructor.
    - cbn [fst] in *. exists x. split.
      + apply wf_sym_nonempty. apply (Hg x y). now left.
      + unfold tokenize in Ht. rewrite Hc, Ha in Ht. now injection Ht as <-.
    - apply IH. intros x' z Hin. apply Hg. now right. }
  pose proof (learn_bpe_cases args (sort_desc d)) as Hl.
  assert (Hs : all_spans_ok (sort_desc d) = true).
  { unfold all_spans_ok. rewrite <- (forallb_perm _ _ _ Hp). apply forallb_forall.
    intros e He. rewrite Forall_forall in Hw. destruct (Hw e He) as [x [_ ->]].
    apply plain_word_spans. }
  rewrite Hs in Hl. cbn [negb] in Hl.
  rewrite <- (forallb_perm _ _ _ Hp) in Hl.
  destruct (corpus_words fobj) as [|w ws] eqn:Ew; cbn [is_nil].
  - assert (d = []).
    { apply Forall2_length in Hd. rewrite get_vocabulary_eq, Ew in Hd.
      destruct d; [reflexivity|discriminate]. }
    subst d. exact Hl.
  - destruct d as [|e d].
    { apply Forall2_length in Hd. rewrite get_vocabulary_eq, Ew in Hd. discriminate. }
    apply Forall_cons_iff in Hw. destruct Hw as [[x [Hx Hex]] _].
    cbn [forallb] in Hl. rewrite Hex, (plain_word_pairs x Hx) in Hl. exact Hl.
Qed.

Lemma main_default_total_witness :
  morph_as_char plain_args = false /\ morph_aware plain_args = false
  /\ if is_nil (corpus_words demo_corpus) then main plain_args demo_corpus = Raise ValueError
     else exists st, main plain_args demo_corpus = Ok st.
Proof.
  assert (H1 : morph_as_char plain_args = false) by reflexivity.
  assert (H2 : morph_aware plain_args = false) by reflexivity.
  repeat (split; [assumption|]).
  exact (main_default_total plain_args demo_corpus H1 H2).
Defined.

(** ** The budget *)

Lemma loop_with_symbols args k n : forall i st,
  loop (with_symbols args k) n i st = loop args n i st.
Proof.
  induction n as [|n IH]; intros i st; [reflexivity|].
  cbn [loop]. change (iteration (with_symbols args k) i st) with (iteration args i st).
  destruct (iteration args i st) as [[st' stop]|e]; [|reflexivity].
  cbn [bind]. destruct stop; [reflexivity|apply IH].
Qed.

Lemma loop_output args n : forall i st st',
  loop_inv st -> loop args n i st = Ok st' ->
  exists rules, output st' = output st ++ map rule_line rules.
Proof.
  induction n as [|n IH]; intros i st st' Hinv E.
  - cbn [loop] in E. injection E as <-. exists []. cbn. now rewrite app_nil_r.
  - destruct (iteration_ok args i st Hinv) as [st1 [stop [E1 [Hinv1 [_ Hs]]]]].
    cbn [loop] in E. rewrite E1 in E. cbn [bind] in E. destruct stop.
    + injection E as <-. destruct Hs as [Ho _]. exists []. cbn. now rewrite app_nil_r.
    + destruct Hs as [p Ho]. destruct (IH _ _ _ Hinv1 E) as [rules Hr].
      exists (p :: rules). rewrite Hr, Ho, <- app_assoc. reflexivity.
Qed.

Lemma loop_prefix args n m : forall i st s1 s2,
  loop_inv st -> loop args n i st = Ok s1 -> loop args (n + m) i st = Ok s2 ->
  exists rules, output s2 = output s1 ++ map rule_line rules.
Proof.
  induction n as [|n IH]; intros i st s1 s2 Hinv E1 E2.
  - cbn [loop] in E1. injection E1 as <-. cbn [Nat.add] in E2.
    now apply (loop_output args m i st s2).
  - destruct (iteration_ok args i st Hinv) as [st1 [stop [E [Hinv1 _]]]].
    cbn [Nat.add loop] in E1, E2. rewrite E in E1, E2. cbn [bind] in E1, E2.
    destruct stop.
    + injection E1 as <-. injection E2 as <-. exists []. cbn. now rewrite app_nil_r.
    + now apply (IH _ _ _ _ Hinv1 E1 E2).
Qed.

(** X19. A larger budget only adds rules: the rules written with a budget
    are the first rules written with any larger budget on the same
    vocabulary, the other options being the same. *)
Theorem budget_prefix (args : arguments) (k : Z) (v : vocabulary) (s1 s2 : state) :
  (symbols args <= k)%Z ->
  learn_bpe args v = Ok s1 -> learn_bpe (with_symbols args k) v = Ok s2 ->
  exists rules, output s2 = output s1 ++ map rule_line rules.
Proof.
  unfold learn_bpe. intros Hk E1 E2.
  destruct (initial_state v) as [st0|e] eqn:E0; [|discriminate].
  cbn [bind] in E1, E2. destruct (initial_state_inv _ _ E0) as [Hinv _].
  rewrite loop_with_symbols in E2. cbn [with_symbols symbols] in E2.
  replace (Z.to_nat k)
    with (Z.to_nat (symbols args) + (Z.to_nat k - Z.to_nat (symbols args))) in E2 by lia.
  exact (loop_prefix args _ _ _ _ _ _ Hinv E1 E2).
Qed.

Lemma budget_prefix_witness :
  (symbols plain_args <= 5)%Z
  /\ learn_bpe plain_args demo_vocab = Ok demo_short
  /\ learn_bpe (with_symbols plain_args 5) demo_vocab = Ok demo_long
  /\ exists rules, output demo_long = output demo_short ++ map rule_line rules.
Proof.
  assert (H1 : (symbols plain_args <= 5)%Z) by (vm_compute; discriminate).
  assert (H2 : learn_bpe plain_args demo_vocab = Ok demo_short) by (vm_compute; reflexivity).
  assert (H3 : learn_bpe (with_symbols plain_args 5) demo_vocab = Ok demo_long)
    by (vm_compute; reflexivity).
  repeat (split; [assumption|]).
  exact (budget_prefix plain_args 5 demo_vocab demo_short demo_long H1 H2 H3).
Defined.

(** * The delimiter is never merged *)

Lemma plain_set d k v : plain_keys d -> plain_pair k -> plain_keys (Dict.set pair_eqb d k v).
Proof.
  intros Hd Hk. induction d as [|[k' v'] d IH]; cbn [Dict.set].
  - repeat constructor. exact Hk.
  - apply Forall_cons_iff in Hd. destruct Hd as [Hk' Hd].
    destruct (pair_eqb k' k); constructor; try assumption. now apply IH.
Qed.

Lemma plain_del d k : plain_keys d -> plain_keys (Dict.del pair_eqb d k).
Proof.
  intros Hd. induction d as [|[k' v'] d IH]; cbn [Dict.del]; [constructor|].
  apply Forall_cons_iff in Hd. destruct Hd as [Hk' Hd].
  destruct (pair_eqb k' k); [exact Hd|constructor; [exact Hk'|now apply IH]].
Qed.

Lemma plain_bumps ps : forall st j df dc,
  plain_keys (fst st) -> Forall plain_pair ps -> plain_keys (fst (bumps st ps j df dc)).
Proof.
  induction ps as [|p ps IH]; intros st j df dc Hs Hp; [exact Hs|].
  apply Forall_cons_iff in Hp. destruct Hp as [Hp Hps].
  unfold bumps. cbn [fold_left]. apply IH; [|exact Hps].
  cbn [bump fst]. unfold stats_add. now apply plain_set.
Qed.

Lemma plain_pairs_of w : Forall plain_pair (pairs_of w).
Proof. apply Forall_forall. intros p Hp. now apply in_pairs_of_nodelim in Hp. Qed.

Lemma plain_recount v : forall i st,
  plain_keys (fst st) -> plain_keys (fst (recount i v st)).
Proof.
  induction v as [|[w f] v IH]; intros i st H; [exact H|].
  cbn [recount]. apply IH. apply plain_bumps; [exact H|apply plain_pairs_of].
Qed.

Lemma plain_dec_events L R s merged prev : Forall plain_pair (dec_events L R merged prev s).
Proof.
  apply Forall_forall. intros p Hp. apply in_dec_events_pairs in Hp.
  now apply in_pairs_of_nodelim in Hp.
Qed.

Lemma plain_keep_prev prev a : Forall plain_pair (keep_prev prev a).
Proof.
  destruct prev as [p|]; [|constructor]. cbn [keep_prev]. unfold keep.
  destruct (pair_has_delim (p, a)) eqn:E; repeat constructor. exact E.
Qed.

Lemma plain_inc_events N s : forall pending prev, Forall plain_pair (inc_events N pending prev s).
Proof.
  induction s as [|a s IH]; intros pending prev; [constructor|].
  cbn [inc_events]. apply Forall_app. split; [|apply IH].
  destruct (String.eqb a N || pending); [apply plain_keep_prev|constructor].
Qed.

Lemma plain_update_word L R c st st' :
  update_word L R c st = Ok st' -> plain_keys (fst st) -> plain_keys (fst st').
Proof.
  destruct c as [[[j w'] w] f]. unfold update_word.
  destruct (has_delim w && negb (has_delim w')) eqn:E.
  - destruct w' as [|t rest]; [discriminate|]. intros [= <-] H.
    rewrite count_run_bumps. apply plain_bumps; [exact H|].
    apply andb_true_iff in E. destruct E as [_ E]. apply negb_true_iff in E.
    rewrite <- (pairs_of_no_delim _ E). apply plain_pairs_of.
  - cbv zeta. rewrite else_branch_events. intros [= <-] H.
    apply plain_bumps; [|apply plain_inc_events].
    apply plain_bumps; [exact H|apply plain_dec_events].
Qed.

Lemma plain_update_changes L R cs : forall st st',
  update_changes L R cs st = Ok st' -> plain_keys (fst st) -> plain_keys (fst st').
Proof.
  induction cs as [|c cs IH]; intros st st' E H.
  - cbn [update_changes] in E. now injection E as <-.
  - cbn [update_changes] in E.
    destruct (update_word L R c st) as [st1|] eqn:E1; [|discriminate].
    cbn [bind] in E. eapply IH; [exact E|]. eapply plain_update_word; eauto.
Qed.

Lemma plain_merge_step pr v s ix v' s' ix' :
  merge_step pr (v, s, ix) = Ok (v', s', ix') ->
  plain_keys s -> plain_pair pr -> plain_keys s'.
Proof.
  unfold merge_step. intros E Hs Hp.
  destruct (replace_pair pr v ix) as [[[v1 ix1] cs]|] eqn:E1; [|discriminate].
  cbn [bind] in E. unfold update_pair_statistics in E.
  destruct (update_changes (fst pr) (snd pr) cs
              (Dict.set pair_eqb s pr 0%Z, Dict.set pair_eqb ix1 pr [])) as [[s2 ix2]|] eqn:E2;
    [|discriminate].
  cbn [bind] in E. injection E as <- <- <-.
  apply plain_set; [|exact Hp].
  apply (plain_update_changes _ _ _ _ _ E2). cbn [fst]. now apply plain_set.
Qed.

Lemma plain_prune_loop thr items : forall s big,
  plain_keys items -> plain_keys s -> plain_keys big ->
  plain_keys (fst (prune_loop items s big thr)) /\ plain_keys (snd (prune_loop items s big thr)).
Proof.
  induction items as [|[k x] items IH]; intros s big Hi Hs Hb; [now split|].
  apply Forall_cons_iff in Hi. destruct Hi as [Hk Hi]. cbn [fst] in Hk.
  cbn [prune_loop]. destruct (below x thr); [|now apply IH].
  apply IH; [exact Hi|now apply plain_del|].
  unfold stats_add. destruct (x <? 0)%Z; now apply plain_set.
Qed.

Lemma plain_prune_stats thr s big :
  plain_keys s -> plain_keys big ->
  plain_keys (fst (prune_stats s big thr)) /\ plain_keys (snd (prune_stats s big thr)).
Proof. intros Hs Hb. now apply plain_prune_loop. Qed.

Lemma plain_max_key d k : max_key d = Ok k -> plain_keys d -> plain_pair k.
Proof.
  intros E Hd. destruct d as [|[k0 v0] d]; [discriminate|]. cbn [max_key] in E.
  injection E as <-.
  destruct (max_key_from_first d [] k0 v0 [] (Forall_nil _) (Forall_nil _))
    as [pre [x [post [H1 _]]]].
  cbn [app] in H1. unfold plain_keys in Hd. rewrite H1 in Hd.
  apply Forall_app in Hd. destruct Hd as [_ Hd].
  apply Forall_cons_iff in Hd. now destruct Hd as [Hd _].
Qed.

Lemma plain_select i st st' mf :
  select i st = Ok (st', mf) -> plain_keys (stats st) -> plain_keys (big_stats st) ->
  plain_keys (stats st') /\ plain_keys (big_stats st') /\ plain_pair mf
  /\ output st' = output st.
Proof.
  intros E Hs Hb. unfold select in E.
  set (mfo := match stats st with [] => None | _ :: _ => Some (max_key (stats st)) end) in E.
  set (repair := match mfo with
                 | Some (Ok mf) => negb (i =? 0)%Z && below (stat_of (stats st) mf) (threshold st)
                 | _ => true
                 end) in E.
  destruct repair eqn:Er.
  - destruct (plain_prune_stats (threshold st) _ _ Hs Hb) as [_ Hb1].
    destruct (prune_stats (stats st) (big_stats st) (threshold st)) as [s1 big1] eqn:E1.
    cbn [snd] in Hb1.
    destruct (max_key big1) as [k|e] eqn:Ek; [|discriminate]. cbn [bind] in E.
    destruct (plain_prune_stats (Qmake (stat_of big1 k * i) (Z.to_pos (i + 10000)))
                _ _ Hb1 Hb1) as [Hs3 Hb3].
    destruct (prune_stats big1 big1 _) as [s3 big3] eqn:E3.
    cbn [fst snd] in Hs3, Hb3. injection E as <- <-.
    cbn [stats big_stats output]. repeat split; auto.
    exact (plain_max_key _ _ Ek Hb1).
  - subst repair. destruct mfo as [[k|e]|] eqn:Em; try discriminate.
    injection E as <- <-. repeat split; auto.
    unfold mfo in Em. destruct (stats st) as [|e0 d0] eqn:Es; [discriminate|].
    injection Em as Em. exact (plain_max_key (e0 :: d0) k Em Hs).
Qed.

Lemma plain_iteration args i st st' stop :
  iteration args i st = Ok (st', stop) ->
  plain_keys (stats st) -> plain_keys (big_stats st) ->
  plain_keys (stats st') /\ plain_keys (big_stats st')
  /\ exists rules, output st' = output st ++ map rule_line rules /\ Forall plain_pair rules.
Proof.
  unfold iteration. intros E Hs Hb.
  destruct (select i st) as [[st1 mf]|] eqn:Esel; [|discriminate]. cbn [bind] in E.
  destruct (plain_select _ _ _ _ Esel Hs Hb) as [Hs1 [Hb1 [Hmf Ho]]].
  set (stats1 := if Dict.mem pair_eqb (stats st1) mf then stats st1
                 else Dict.set pair_eqb (stats st1) mf 0%Z) in E.
  assert (Hst1 : plain_keys stats1).
  { unfold stats1. destruct (Dict.mem pair_eqb (stats st1) mf); [exact Hs1|].
    now apply plain_set. }
  destruct (stat_of stats1 mf <? min_frequency args)%Z.
  - injection E as <- <-. cbn [stats big_stats output].
    split; [exact Hst1|]. split; [exact Hb1|].
    exists []. cbn. rewrite app_nil_r. auto.
  - destruct (merge_step mf (sorted_vocab st1, stats1, indices st1))
      as [[[v' s3] ix2]|] eqn:Em; [|discriminate].
    cbn [bind] in E. pose proof (plain_merge_step _ _ _ _ _ _ _ Em Hst1 Hmf) as Hs3.
    destruct (i mod 100 =? 0)%Z.
    + destruct (plain_prune_stats (threshold st1) _ _ Hs3 Hb1) as [Hs4 Hb4].
      destruct (prune_stats s3 (big_stats st1) (threshold st1)) as [s4 big4].
      injection E as <- <-. cbn [stats big_stats output fst snd] in *.
      split; [exact Hs4|]. split; [exact Hb4|].
      exists [mf]. rewrite Ho. split; [reflexivity|]. repeat constructor. exact Hmf.
    + injection E as <- <-. cbn [stats big_stats output].
      split; [exact Hs3|]. split; [exact Hb1|].
      exists [mf]. rewrite Ho. split; [reflexivity|]. repeat constructor. exact Hmf.
Qed.

Lemma plain_loop args n : forall i st st',
  loop args n i st = Ok st' ->
  plain_keys (stats st) -> plain_keys (big_stats st) ->
  exists rules, output st' = output st ++ map rule_line rules /\ Forall plain_pair rules.
Proof.
  induction n as [|n IH]; intros i st st' E Hs Hb.
  - cbn [loop] in E. injection E as <-. exists []. cbn. rewrite app_nil_r. auto.
  - cbn [loop] in E. destruct (iteration args i st) as [[st1 stop]|] eqn:E1; [|discriminate].
    cbn [bind] in E.
    destruct (plain_iteration _ _ _ _ _ E1 Hs Hb) as [Hs1 [Hb1 [r1 [Ho1 Hr1]]]].
    destruct stop.
    + injection E as <-. eauto.
    + destruct (IH _ _ _ E Hs1 Hb1) as [r2 [Ho2 Hr2]].
      exists (r1 ++ r2). rewrite Ho2, Ho1, <- app_assoc, map_app.
      split; [reflexivity|]. apply Forall_app. auto.
Qed.

(** X20. No rule ever has the boundary delimiter [==] as one of its two symbols:
    every line that a run writes is the line of a pair without it, on every
    vocabulary and with every option. *)
Theorem no_delimiter_rule (args : arguments) (v : vocabulary) (st : state) :
  learn_bpe args v = Ok st ->
  exists rules, output st = map rule_line rules /\ Forall plain_pair rules.
Proof.
  unfold learn_bpe. intros E.
  destruct (initial_state v) as [st0|e] eqn:E0; [|discriminate]. cbn [bind] in E.
  assert (H0 : plain_keys (stats st0) /\ plain_keys (big_stats st0) /\ output st0 = []).
  { unfold initial_state in E0. rewrite get_pair_statistics_eq in E0.
    destruct (all_spans_ok v); [|discriminate]. cbn [bind] in E0.
    pose proof (plain_recount v 0 ([], []) (Forall_nil _)) as Hr.
    destruct (recount 0 v ([], [])) as [s0 ix0]. cbn [fst] in Hr.
    destruct (max_value s0); [|discriminate]. cbn [bind] in E0.
    injection E0 as <-. cbn. auto. }
  destruct H0 as [Hs [Hb Ho]].
  destruct (plain_loop _ _ _ _ _ E Hs Hb) as [rules [Hr Hp]].
  exists rules. rewrite Hr, Ho. auto.
Qed.

Lemma no_delimiter_rule_witness :
  learn_bpe plain_args demo_vocab = Ok demo_short
  /\ exists rules, output demo_short = map rule_line rules /\ Forall plain_pair rules.
Proof.
  assert (H1 : learn_bpe plain_args demo_vocab = Ok demo_short) by (vm_compute; reflexivity).
  split; [assumption|].
  exact (no_delimiter_rule plain_args demo_vocab demo_short H1).
Defined.

(** * The verbose option *)

Lemma same_refl st : same_but_stderr st st.
Proof. unfold same_but_stderr. repeat split. Qed.

Lemma select_same i s1 s2 :
  same_but_stderr s1 s2 -> same_outcome (select i s1) (select i s2).
Proof.
  destruct s1 as [v1 t1 b1 x1 h1 o1 e1], s2 as [v2 t2 b2 x2 h2 o2 e2].
  unfold same_but_stderr. cbn [sorted_vocab stats big_stats indices threshold output].
  intros [-> [-> [-> [-> [-> ->]]]]]. unfold select, same_outcome.
  cbn [sorted_vocab stats big_stats indices threshold output stderr].
  set (mfo := match t2 with [] => None | _ :: _ => Some (max_key t2) end).
  set (repair := match mfo with
                 | Some (Ok mf) => negb (i =? 0)%Z && below (stat_of t2 mf) h2
                 | _ => true
                 end).
  destruct repair.
  - destruct (prune_stats t2 b2 h2) as [s1 big1].
    destruct (max_key big1) as [k|e]; [|reflexivity]. cbn [bind].
    destruct (prune_stats big1 big1 _) as [s3 big3].
    split; [|reflexivity]. unfold same_but_stderr. cbn. repeat split.
  - destruct mfo as [[k|e]|]; try reflexivity.
    split; [|reflexivity]. unfold same_but_stderr. cbn. repeat split.
Qed.

Lemma iteration_same args b i s1 s2 :
  same_but_stderr s1 s2 ->
  same_outcome (iteration args i s1) (iteration (with_verbose args b) i s2).
Proof.
  intros H. unfold iteration. pose proof (select_same i s1 s2 H) as Hs.
  unfold same_outcome in Hs.
  destruct (select i s1) as [[a m]|e1], (select i s2) as [[a' m']|e2];
    try contradiction; [|exact Hs].
  destruct Hs as [[Hv [Ht [Hb [Hx [Hh Ho]]]]] <-]. cbn [bind].
  rewrite Hv, Ht, Hb, Hx, Hh, Ho.
  cbn [with_verbose min_frequency verbose].
  set (stats1 := if Dict.mem pair_eqb (stats a') m then stats a'
                 else Dict.set pair_eqb (stats a') m 0%Z).
  destruct (stat_of stats1 m <? min_frequency args)%Z.
  - unfold same_outcome. split; [|reflexivity]. unfold same_but_stderr. cbn. repeat split.
  - destruct (merge_step m (sorted_vocab a', stats1, indices a')) as [[[v' s3] ix2]|e];
      [|reflexivity].
    cbn [bind].
    destruct (if (i mod 100 =? 0)%Z then prune_stats s3 (big_stats a') (threshold a')
              else (s3, big_stats a')) as [s4 big4].
    unfold same_outcome. split; [|reflexivity]. unfold same_but_stderr. cbn. repeat split.
Qed.

Lemma loop_same args b n : forall i s1 s2,
  same_but_stderr s1 s2 ->
  match loop args n i s1, loop (with_verbose args b) n i s2 with
  | Ok r1, Ok r2 => same_but_stderr r1 r2
  | Raise e1, Raise e2 => e1 = e2
  | _, _ => False
  end.
Proof.
  induction n as [|n IH]; intros i s1 s2 H; [exact H|].
  cbn [loop]. pose proof (iteration_same args b i s1 s2 H) as Hi.
  unfold same_outcome in Hi.
  destruct (iteration args i s1) as [[a stop]|e1],
           (iteration (with_verbose args b) i s2) as [[a' stop']|e2];
    try contradiction; [|exact Hi].
  destruct Hi as [Ha <-]. cbn [bind]. destruct stop; [exact Ha|now apply IH].
Qed.

(** X21. The verbose option changes nothing but what is written to stderr:
    with it or without it a run raises the same exception or ends with the
    same rules written, the same vocabulary and the same tables. *)
Theorem verbose_only_stderr (args : arguments) (b : bool) (v : vocabulary) :
  match learn_bpe args v, learn_bpe (with_verbose args b) v with
  | Ok r1, Ok r2 => same_but_stderr r1 r2
  | Raise e1, Raise e2 => e1 = e2
  | _, _ => False
  end.
Proof.
  unfold learn_bpe. destruct (initial_state v) as [st0|e]; [|reflexivity].
  cbn [bind with_verbose symbols]. apply loop_same. apply same_refl.
Qed.

(** ** What goes to stderr *)

Lemma select_frame i st st' mf :
  select i st = Ok (st', mf) -> output st' = output st /\ stderr st' = stderr st.
Proof.
  intros E. unfold select in E.
  set (mfo := match stats st with [] => None | _ :: _ => Some (max_key (stats st)) end) in E.
  set (repair := match mfo with
                 | Some (Ok mf) => negb (i =? 0)%Z && below (stat_of (stats st) mf) (threshold st)
                 | _ => true
                 end) in E.
  destruct repair.
  - destruct (prune_stats (stats st) (big_stats st) (threshold st)) as [s1 big1].
    destruct (max_key big1) as [k|e]; [|discriminate]. cbn [bind] in E.
    destruct (prune_stats big1 big1 _) as [s3 big3].
    injection E as <- <-. cbn. auto.
  - destruct mfo as [[k|e]|]; try discriminate. injection E as <- <-. auto.
Qed.

Lemma iteration_stderr args i st st' stop :
  iteration args i st = Ok (st', stop) ->
  exists rules notes tail,
    output st' = output st ++ rules
    /\ stderr st' = stderr st ++ notes ++ tail
    /\ List.length notes = (if verbose args then List.length rules else 0)
    /\ (if stop then rules = [] /\ tail = [stop_note args]
        else List.length rules = 1 /\ tail = []).
Proof.
  unfold iteration. intros E.
  destruct (select i st) as [[st1 mf]|] eqn:Esel; [|discriminate]. cbn [bind] in E.
  destruct (select_frame _ _ _ _ Esel) as [Ho He].
  set (stats1 := if Dict.mem pair_eqb (stats st1) mf then stats st1
                 else Dict.set pair_eqb (stats st1) mf 0%Z) in E.
  destruct (stat_of stats1 mf <? min_frequency args)%Z.
  - injection E as <- <-. cbn [output stderr]. exists [], [], [stop_note args].
    rewrite Ho, He, app_nil_r. cbn [app]. repeat split. now destruct (verbose args).
  - destruct (merge_step mf (sorted_vocab st1, stats1, indices st1))
      as [[[v' s3] ix2]|]; [|discriminate].
    cbn [bind] in E.
    destruct (if (i mod 100 =? 0)%Z then prune_stats s3 (big_stats st1) (threshold st1)
              else (s3, big_stats st1)) as [s4 big4].
    injection E as <- <-. cbn [output stderr]. rewrite Ho, He.
    exists [rule_line mf],
      (if verbose args then [verbose_note i mf (stat_of stats1 mf)] else []), [].
    rewrite app_nil_r. destruct (verbose args); cbn [app]; repeat split.
    now rewrite app_nil_r.
Qed.

Lemma loop_stderr args n : forall i st st',
  loop args n i st = Ok st' ->
  exists rules notes tail,
    output st' = output st ++ rules
    /\ stderr st' = stderr st ++ notes ++ tail
    /\ List.length notes = (if verbose args then List.length rules else 0)
    /\ (tail = [] \/ tail = [stop_note args]).
Proof.
  induction n as [|n IH]; intros i st st' E.
  - cbn [loop] in E. injection E as <-. exists [], [], [].
    rewrite !app_nil_r. repeat split; auto. now destruct (verbose args).
  - cbn [loop] in E. destruct (iteration args i st) as [[st1 stop]|] eqn:E1; [|discriminate].
    cbn [bind] in E.
    destruct (iteration_stderr _ _ _ _ _ E1) as [r1 [n1 [t1 [Ho1 [He1 [Hl1 Hs1]]]]]].
    destruct stop.
    + injection E as <-. destruct Hs1 as [-> ->]. exists [], n1, [stop_note args].
      repeat split; auto.
    + destruct Hs1 as [Hr1 ->].
      destruct (IH _ _ _ E) as [r2 [n2 [t2 [Ho2 [He2 [Hl2 Hs2]]]]]].
      exists (r1 ++ r2), (n1 ++ n2), t2.
      rewrite Ho2, He2, Ho1, He1, app_nil_r, <- !app_assoc.
      repeat split; auto. rewrite !length_app, Hl1, Hl2. now destruct (verbose args).
Qed.

(** X22. What a run writes to stderr is, in the verbose mode, one line for
    every rule written and, in the other mode, nothing, followed in both by
    at most one line, the note of the stop on the frequency floor. *)
Theorem stderr_lines (args : arguments) (v : vocabulary) (st : state) :
  learn_bpe args v = Ok st ->
  exists notes tail,
    stderr st = notes ++ tail
    /\ List.length notes = (if verbose args then List.length (output st) else 0)
    /\ (tail = [] \/ tail = [stop_note args]).
Proof.
  unfold learn_bpe. intros E.
  destruct (initial_state v) as [st0|e] eqn:E0; [|discriminate]. cbn [bind] in E.
  destruct (initial_state_inv _ _ E0) as [_ [_ [Ho He]]].
  destruct (loop_stderr _ _ _ _ _ E) as [rules [notes [tail [H1 [H2 [H3 H4]]]]]].
  exists notes, tail. rewrite H2, He, H1, Ho. auto.
Qed.

Lemma stderr_lines_witness :
  learn_bpe (with_symbols plain_args 5) demo_vocab = Ok demo_long
  /\ exists notes tail,
       stderr demo_long = notes ++ tail
       /\ List.length notes
          = (if verbose (with_symbols plain_args 5) then List.length (output demo_long) else 0)
       /\ (tail = [] \/ tail = [stop_note (with_symbols plain_args 5)]).
Proof.
  assert (H1 : learn_bpe (with_symbols plain_args 5) demo_vocab = Ok demo_long)
    by (vm_compute; reflexivity).
  split; [assumption|].
  exact (stderr_lines (with_symbols plain_args 5) demo_vocab demo_long H1).
Defined.

(** * Empty morphemes *)

Lemma negb_existsb {A} (f : A -> bool) l :
  negb (existsb f l) = forallb (fun a => negb (f a)) l.
Proof.
  induction l as [|a l IH]; [reflexivity|].
  cbn [existsb forallb]. now rewrite negb_orb, IH.
Qed.

Lemma forallb_same {A} (f g : A -> bool) l :
  (forall a, f a = g a) -> forallb f l = forallb g l.
Proof.
  intros H. induction l as [|a l IH]; [reflexivity|]. cbn [forallb]. now rewrite H, IH.
Qed.

Lemma spans_ok_aware args x t :
  morph_as_char args = false -> morph_aware args = true -> delimiter args = DELIM ->
  tokenize args x = Ok t -> spans_ok t = negb (empty_morph x).
Proof.
  intros Hc Ha Hd Ht.
  destruct (tokenize_aware_spans args x Hc Ha) as [t' [Ht' Hs]].
  - rewrite Hd. discriminate.
  - rewrite Hd. discriminate.
  - rewrite Ht in Ht'. injection Ht' as <-. rewrite Hd in Hs.
    unfold spans_ok, empty_morph. rewrite Hs, forallb_append_last, removelast_map.
    rewrite forallb_map, negb_existsb. apply forallb_same. intros p. apply chars_nonempty.
Qed.

Lemma forallb_uniq (f : string -> bool) l : forallb f (uniq l) = forallb f l.
Proof.
  destruct (forallb f l) eqn:E.
  - apply forallb_forall. intros x Hx. rewrite forallb_forall in E.
    apply E. now apply (proj1 (uniq_in x l)).
  - destruct (forallb f (uniq l)) eqn:E'; [|reflexivity].
    rewrite <- E. symmetry. apply forallb_forall. intros x Hx.
    rewrite forallb_forall in E'. apply E'. now apply (proj2 (uniq_in x l)).
Qed.

(** X23. In the morph-aware mode with the delimiter [==] the whole program
    raises IndexError exactly when some word of the corpus has an empty
    morpheme before a delimiter; an empty last morpheme does not count, the
    end-of-word symbol being appended to it. *)
Theorem main_aware_index_error (args : arguments) (fobj : list string) :
  morph_as_char args = false -> morph_aware args = true -> delimiter args = DELIM ->
  (main args fobj = Raise IndexError <-> existsb empty_morph (corpus_words fobj) = true).
Proof.
  intros Hc Ha Hd. unfold main.
  pose proof (build_vocabulary_cases args fobj) as Hb.
  rewrite Hd in Hb. cbn [is_empty String.eqb DELIM andb] in Hb.
  rewrite andb_false_r in Hb. cbn [andb] in Hb.
  destruct Hb as [v Ev]. rewrite Ev. cbn [bind].
  destruct (build_vocabulary_shape args fobj v Ev) as [d [Hd2 ->]].
  destruct (sort_desc_spec d) as [_ [Hp _]].
  assert (Hs : all_spans_ok (sort_desc d) = negb (existsb empty_morph (corpus_words fobj))).
  { unfold all_spans_ok. rewrite <- (forallb_perm _ _ _ Hp).
    rewrite negb_existsb, <- forallb_uniq.
    rewrite get_vocabulary_eq in Hd2. clear Ev Hp.
    remember (map (fun w => (w, times (corpus_words fobj) w)) (uniq (corpus_words fobj)))
      as items eqn:Ei.
    revert Ei. generalize (uniq (corpus_words fobj)) as ws.
    induction Hd2 as [|[x y] [t y'] items d [Ht Hy] Hd2 IH]; intros ws Ei.
    - destruct ws; [reflexivity|discriminate].
    - destruct ws as [|w ws]; [discriminate|]. cbn [map] in Ei.
      injection Ei as Ex Ey Ei. cbn [fst] in Ht. subst x.
      cbn [forallb fst]. rewrite (spans_ok_aware args w t Hc Ha Hd Ht).
      f_equal. now apply IH. }
  pose proof (learn_bpe_cases args (sort_desc d)) as Hl. rewrite Hs in Hl.
  rewrite negb_involutive in Hl.
  destruct (existsb empty_morph (corpus_words fobj)).
  - split; [reflexivity|intros _; exact Hl].
  - split; [|discriminate]. intros E.
    destruct (forallb (fun e => no_pairs (fst e)) (sort_desc d)).
    + rewrite Hl in E. discriminate.
    + destruct Hl as [st Hl]. rewrite Hl in E. discriminate.
Qed.

Lemma main_aware_index_error_witness :
  morph_as_char aware_args = false /\ morph_aware aware_args = true
  /\ delimiter aware_args = DELIM
  /\ (main aware_args broken_corpus = Raise IndexError
      <-> existsb empty_morph (corpus_words broken_corpus) = true).
Proof.
  assert (H1 : morph_as_char aware_args = false) by reflexivity.
  assert (H2 : morph_aware aware_args = true) by reflexivity.
  assert (H3 : delimiter aware_args = DELIM) by reflexivity.
  repeat (split; [assumption|]).
  exact (main_aware_index_error aware_args broken_corpus H1 H2 H3).
Defined.

(** * The index stays inside the vocabulary *)

(** X24. At the end of a run every word position that the index holds, for
    whatever pair, is a position of the vocabulary, which still has its
    initial length: no merge of the run could have raised on a position out
    of range. *)
Theorem index_in_bounds (args : arguments) (v : vocabulary) (st : state) :
  learn_bpe args v = Ok st ->
  List.length (sorted_vocab st) = List.length v
  /\ forall q j, In j (map fst (inner_of (indices st) q)) -> j < List.length v.
Proof.
  unfold learn_bpe. intros E.
  destruct (initial_state v) as [st0|e] eqn:E0; [|discriminate]. cbn [bind] in E.
  destruct (initial_state_inv _ _ E0) as [Hinv [Hv _]].
  destruct (loop_ok args (Z.to_nat (symbols args)) 0%Z st0 Hinv) as [st' [E' [[_ Hk] [Hf _]]]].
  rewrite E in E'. injection E' as <-.
  assert (Hl : List.length (sorted_vocab st) = List.length v).
  { rewrite <- (length_map snd (sorted_vocab st)), Hf, Hv. apply length_map. }
  split; [exact Hl|]. intros q j Hj. rewrite <- Hl. exact (Hk q j Hj).
Qed.

Lemma index_in_bounds_witness :
  learn_bpe plain_args demo_vocab = Ok demo_short
  /\ List.length (sorted_vocab demo_short) = List.length demo_vocab
  /\ forall q j, In j (map fst (inner_of (indices demo_short) q)) -> j < List.length demo_vocab.
Proof.
  assert (H1 : learn_bpe plain_args demo_vocab = Ok demo_short) by (vm_compute; reflexivity).
  split; [assumption|].
  exact (index_in_bounds plain_args demo_vocab demo_short H1).
Defined.

(** * The update is local *)

Lemma in_keep_prev p prev a : In p (keep_prev prev a) -> exists x, prev = Some x /\ p = (x, a).
Proof.
  destruct prev as [x|]; [|intros []]. cbn [keep_prev]. intros H.
  apply in_keep in H. eauto.
Qed.

Lemma dec_events_shape L R p n : forall s merged prev,
  List.length s <= n ->
  (merged = true -> prev = Some R) ->
  In p (dec_events L R merged prev s) -> snd p = L \/ fst p = R.
Proof.
  induction n as [|n IH]; intros s merged prev Hn Hm Hin.
  - destruct s; [destruct Hin|simpl in Hn; lia].
  - destruct s as [|a [|b rest]]; [destruct Hin| |].
    + cbn [dec_events] in Hin. destruct merged; [|destruct Hin].
      apply in_keep_prev in Hin. destruct Hin as [x [Hx ->]].
      rewrite (Hm eq_refl) in Hx. injection Hx as <-. now right.
    + rewrite dec_events_cons2 in Hin. simpl in Hn.
      destruct (String.eqb a L && String.eqb b R) eqn:E.
      * apply andb_true_iff in E. destruct E as [E1 E2].
        apply String.eqb_eq in E1, E2. subst a b.
        apply in_app_or in Hin. destruct Hin as [Hin|Hin].
        -- apply in_keep_prev in Hin. destruct Hin as [x [_ ->]]. now left.
        -- apply (IH rest true (Some R)); [lia|auto|exact Hin].
      * apply in_app_or in Hin. destruct Hin as [Hin|Hin].
        -- destruct merged; [|destruct Hin].
           apply in_keep_prev in Hin. destruct Hin as [x [Hx ->]].
           rewrite (Hm eq_refl) in Hx. injection Hx as <-. now right.
        -- apply (IH (b :: rest) false (Some a)); [simpl; lia|discriminate|exact Hin].
Qed.

Lemma update_word_frame L R c st q :
  in_place c -> snd q <> L -> fst q <> R -> involves (L ++ R)%string q = false ->
  exists st',
    update_word L R c st = Ok st'
    /\ stat_of (fst st') q = stat_of (fst st) q
    /\ forall k, idx_of (snd st') q k = idx_of (snd st) q k.
Proof.
  destruct c as [[[j w] old] f]. unfold in_place. intros Hc HL HR HN.
  unfold update_word. rewrite Hc. cbv zeta. rewrite else_branch_events.
  eexists. split; [reflexivity|].
  assert (Hd : occ q (dec_events L R false None old) = 0%Z).
  { apply occ_notin. intros Hin.
    destruct (dec_events_shape L R q (List.length old) old false None (le_n _)
                ltac:(discriminate) Hin); contradiction. }
  assert (Hi : occ q (inc_events (L ++ R)%string false None w) = 0%Z).
  { apply occ_notin. intros Hin.
    pose proof (in_inc_events (L ++ R)%string q w None) as H. cbn [is_sym] in H.
    rewrite (H Hin) in HN. discriminate. }
  split.
  - rewrite !stat_of_bumps, Hd, Hi. lia.
  - intros k. rewrite !idx_of_bumps, Hd, Hi. destruct (Nat.eqb j k); lia.
Qed.

Lemma update_changes_frame L R q cs : forall st,
  Forall in_place cs -> snd q <> L -> fst q <> R -> involves (L ++ R)%string q = false ->
  exists st',
    update_changes L R cs st = Ok st'
    /\ stat_of (fst st') q = stat_of (fst st) q
    /\ forall k, idx_of (snd st') q k = idx_of (snd st) q k.
Proof.
  induction cs as [|c cs IH]; intros st Hc HL HR HN.
  - exists st. cbn [update_changes]. auto.
  - apply Forall_cons_iff in Hc. destruct Hc as [Hc Hcs].
    destruct (update_word_frame L R c st q Hc HL HR HN) as [st1 [E1 [S1 I1]]].
    destruct (IH st1 Hcs HL HR HN) as [st' [E' [S' I']]].
    exists st'. cbn [update_changes]. rewrite E1. cbn [bind].
    split; [exact E'|]. split; [congruence|]. intros k. now rewrite I', I1.
Qed.

(** X25. The update of the statistics is local: when no changed word takes
    the collapse branch, [update_pair_statistics] for the merge of (L, R)
    returns and leaves alone, in the frequencies and in the index, every
    pair other than (L, R) that does not end in L, does not start with R and
    does not hold the new symbol L+R. *)
Theorem update_pair_statistics_frame (pr : pair) (changed : list change)
  (stats : stats_t) (indices : indices_t) (q : pair) :
  Forall in_place changed -> clear_of (fst pr) (snd pr) q ->
  exists stats' indices',
    update_pair_statistics pr changed stats indices = Ok (stats', indices')
    /\ stat_of stats' q = stat_of stats q
    /\ forall k, idx_of indices' q k = idx_of indices q k.
Proof.
  destruct pr as [L R]. cbn [fst snd]. intros Hc [Hq [HL [HR HN]]].
  unfold update_pair_statistics. cbn [fst snd].
  destruct (update_changes_frame L R q changed
              (Dict.set pair_eqb stats (L, R) 0%Z, Dict.set pair_eqb indices (L, R) [])
              Hc HL HR HN) as [[s' ix'] [E [S I]]].
  exists s', ix'. split; [exact E|]. cbn [fst snd] in S, I.
  assert (Hne : pair_eqb (L, R) q = false) by now apply pair_eqb_neq.
  split.
  - rewrite S, stat_of_set, Hne. reflexivity.
  - intros k. rewrite I. unfold idx_of. now rewrite inner_of_set, Hne.
Qed.

Lemma update_pair_statistics_frame_witness :
  Forall in_place demo_changes
  /\ clear_of (fst ("a", "b")%string) (snd ("a", "b")%string) ("c", "</w>")%string
  /\ exists stats' indices',
       update_pair_statistics ("a", "b")%string demo_changes (fst demo_tables) (snd demo_tables)
       = Ok (stats', indices')
       /\ stat_of stats' ("c", "</w>")%string = stat_of (fst demo_tables) ("c", "</w>")%string
       /\ forall k, idx_of indices' ("c", "</w>")%string k
                    = idx_of (snd demo_tables) ("c", "</w>")%string k.
Proof.
  assert (H1 : Forall in_place demo_changes) by (repeat constructor).
  assert (H2 : clear_of (fst ("a", "b")%string) (snd ("a", "b")%string) ("c", "</w>")%string)
    by (unfold clear_of; repeat split; discriminate).
  repeat (split; [assumption|]).
  exact (update_pair_statistics_frame ("a", "b")%string demo_changes
           (fst demo_tables) (snd demo_tables) ("c", "</w>")%string H1 H2).
Defined.

(** * The number of rules *)

(** X26. With a non-negative budget, a run that gets past its
    initialisation returns normally and has written at most [symbols]
    rules.  Every rule it has written was, at its pass, the pair selected
    from the working table with a value that reached the floor.  The run
    has written exactly [symbols] rules unless it stopped early, and it
    stopped early only because, at the pass after the last rule, the
    selected pair, than which no pair of the working table had a greater
    value, was below the floor; the last line on stderr is then the note
    and the rules written before are the output. *)
Theorem rule_count (args : arguments) (v : vocabulary) :
  (0 <= symbols args)%Z ->
  match learn_bpe args v with
  | Ok st =>
      (Z.of_nat (List.length (output st)) <= symbols args)%Z
      /\ (exists rules,
            output st = map rule_line rules
            /\ forall k p, nth_error rules k = Some p ->
                 exists x, pass_selects args v k p x /\ (min_frequency args <= x)%Z)
      /\ (Z.of_nat (List.length (output st)) = symbols args
          \/ ((Z.of_nat (List.length (output st)) < symbols args)%Z
              /\ (exists e, stderr st = e ++ [stop_note args])
              /\ exists p x,
                   pass_selects args v (List.length (output st)) p x
                   /\ (x < min_frequency args)%Z))
  | Raise e => initial_state v = Raise e
  end.
Proof.
  intros Hs. destruct (initial_state v) as [st0|e] eqn:E0.
  2:{ unfold learn_bpe. now rewrite E0. }
  destruct (run_trace args v st0 E0)
    as [st [rules [E [Hout [Hlen [_ [_ [Hper Hend]]]]]]]].
  rewrite E, Hout, length_map. split; [lia|]. split.
  - exists rules. split; [reflexivity|]. intros k p Hk.
    destruct (Hper k p Hk) as [a [b [x [A1 [_ [A3 [_ [A5 [A6 _]]]]]]]]].
    exists x. split; [|exact A6]. exists a. auto.
  - destruct Hend as [Hl|[Hl [He Hp]]]; [left; lia|right].
    split; [lia|]. split; [exact He|exact Hp].
Qed.

Lemma rule_count_witness :
  (0 <= symbols example_args)%Z
  /\ match learn_bpe example_args example_vocab with
     | Ok st =>
         (Z.of_nat (List.length (output st)) <= symbols example_args)%Z
         /\ (exists rules,
               output st = map rule_line rules
               /\ forall k p, nth_error rules k = Some p ->
                    exists x, pass_selects example_args example_vocab k p x
                              /\ (min_frequency example_args <= x)%Z)
         /\ (Z.of_nat (List.length (output st)) = symbols example_args
             \/ ((Z.of_nat (List.length (output st)) < symbols example_args)%Z
                 /\ (exists e, stderr st = e ++ [stop_note example_args])
                 /\ exists p x,
                      pass_selects example_args example_vocab (List.length (output st)) p x
                      /\ (x < min_frequency example_args)%Z))
     | Raise e => initial_state example_vocab = Raise e
     end.
Proof.
  assert (H : (0 <= symbols example_args)%Z) by (simpl; lia).
  split; [exact H|].
  exact (rule_count example_args example_vocab H).
Defined.
